(** * ssort: the directed graph, cycle replacement and stable topological sort

    A shallow embedding of [src/ssort/_graphs.py].

    - Python dictionaries keep their keys in insertion order, and the sort
      is observably sensitive to that order: a [dict] is an association
      list in insertion order.
    - A [Graph] object on its own is the value of its two indices; each
      method takes the state of the object and returns the new state.
    - [topological_sort] has two graph objects alive at once (the caller's
      and the private copy) and reads a key view of a dictionary after the
      dictionary has left the graph, so it is modelled over an explicit
      store of dictionary objects ([Module Store]).
    - A raised exception is a [Raise].  A [while] loop is a fixpoint on a
      bound computed from the graph; [OutOfFuel] says that the bound was
      reached and is not a behaviour of the program: the theorems about a
      loop show that it does not occur. *)

From Stdlib Require Import List ZArith Lia Bool Arith Permutation Sorted.
Import ListNotations.


(** ** Equality on nodes (Python's [__eq__] and [__hash__]) *)

Class EqDec (A : Type) := eq_dec : forall x y : A, {x = y} + {x <> y}.

#[export] Instance EqDec_nat : EqDec nat := Nat.eq_dec.
#[export] Instance EqDec_Z : EqDec Z := Z.eq_dec.

(** ** Exceptions *)

Inductive exn : Type :=
| KeyError
| IndexError
| TypeError
| AssertionError
| StopIteration.

Inductive result (A : Type) : Type :=
| Ok (a : A)
| Raise (e : exn)
| OutOfFuel.

Arguments Ok {A} a.
Arguments Raise {A} e.
Arguments OutOfFuel {A}.

Definition bind {A B} (m : result A) (f : A -> result B) : result B :=
  match m with
  | Ok a => f a
  | Raise e => Raise e
  | OutOfFuel => OutOfFuel
  end.

Declare Scope result_scope.
Delimit Scope result_scope with result.
Notation "x <- m ;; k" := (bind m (fun x => k))
  (at level 61, m at next level, right associativity) : result_scope.
Open Scope result_scope.

(** [d[k]]: [KeyError] when the key is absent. *)
Definition lookup {A} (o : option A) : result A :=
  match o with
  | Some a => Ok a
  | None => Raise KeyError
  end.

(** [for x in xs: body], threading the state and stopping at the first
    exception. *)
Fixpoint for_each {S X} (body : S -> X -> result S) (xs : list X) (s : S)
  : result S :=
  match xs with
  | [] => Ok s
  | x :: xs' => s' <- body s x ;; for_each body xs' s'
  end.

(** ** Lists, sets and [sorted] *)

Section Lists.
Context {A : Type} `{EqDec A}.

  (** [x in l] *)
Definition mem (x : A) (l : list A) : bool :=
    if in_dec eq_dec x l then true else false.

  (** [s.add(x)] on a set *)
Definition set_add (x : A) (s : list A) : list A :=
    if mem x s then s else s ++ [x].

  (** [l.pop()] on a list: the last element and the rest. *)
Definition pop_last (l : list A) : option (A * list A) :=
    match rev l with
    | [] => None
    | x :: r => Some (x, rev r)
    end.

Fixpoint insert_by (key : A -> Z) (x : A) (l : list A) : list A :=
    match l with
    | [] => [x]
    | y :: l' =>
        if (key x <=? key y)%Z then x :: l else y :: insert_by key x l'
    end.

  (** [sorted(l, key=key)]: ascending and stable. *)
Definition sorted (key : A -> Z) (l : list A) : list A :=
    fold_right (insert_by key) [] l.

Fixpoint index_from (i : nat) (x : A) (l : list A) : nat :=
    match l with
    | [] => i
    | y :: l' => if eq_dec x y then i else index_from (S i) x l'
    end.
End Lists.

(** Modelled from the spec: [sort_key_from_iter] of [ssort._utils], which
    is not among the sources.  The rank of a node is its zero-based position
    in the reference sequence; a node absent from the sequence is ranked
    after all present nodes. *)
Definition sort_key_from_iter_spec {A} `{EqDec A} (values : list A) (x : A)
  : Z :=
  Z.of_nat (index_from 0 x values).

(** ** Dictionaries *)

Section Dict.
Context {K V : Type} `{EqDec K}.

Definition dict : Type := list (K * V).

Definition dict_keys (d : dict) : list K := map fst d.

  (** [d.get(k)] *)
Fixpoint dict_get (d : dict) (k : K) : option V :=
    match d with
    | [] => None
    | (k', v) :: d' => if eq_dec k k' then Some v else dict_get d' k
    end.

  (** [k in d] *)
Definition dict_contains (d : dict) (k : K) : bool :=
    match dict_get d k with Some _ => true | None => false end.

  (** [d[k] = v]: an existing key keeps its place, a new key goes last. *)
Fixpoint dict_set (d : dict) (k : K) (v : V) : dict :=
    match d with
    | [] => [(k, v)]
    | (k', v') :: d' =>
        if eq_dec k k' then (k', v) :: d' else (k', v') :: dict_set d' k v
    end.

  (** [d.pop(k, None)] *)
Fixpoint dict_pop (d : dict) (k : K) : dict :=
    match d with
    | [] => []
    | (k', v') :: d' =>
        if eq_dec k k' then dict_pop d' k else (k', v') :: dict_pop d' k
    end.

  (** [d.setdefault(k, v)], for its effect on [d] *)
Definition dict_setdefault (d : dict) (k : K) (v : V) : dict :=
    if dict_contains d k then d else d ++ [(k, v)].

  (** [d.update(d2)] *)
Definition dict_update (d d2 : dict) : dict :=
    fold_left (fun acc kv => dict_set acc (fst kv) (snd kv)) d2 d.

  (** Keys are unique in a Python dictionary. *)
Definition dict_ok (d : dict) : Prop := NoDup (dict_keys d).
End Dict.

Arguments dict K V : clear implicits.

(** ** The graph *)

Section Graphs.
Context {N E : Type} `{EqDec N}.

Record Graph : Type := mkGraph {
    _out_edges : dict N (dict N E);
    _in_edges : dict N (dict N E)
  }.

  (** [Graph()] *)
Definition Graph_init : Graph := mkGraph [] [].

Definition nodes (g : Graph) : list N := dict_keys (_out_edges g).

Definition successors (g : Graph) (node : N) : result (list N) :=
    out_edges <- lookup (dict_get (_out_edges g) node) ;;
    Ok (dict_keys out_edges).

Definition predecessors (g : Graph) (node : N) : result (list N) :=
    in_edges <- lookup (dict_get (_in_edges g) node) ;;
    Ok (dict_keys in_edges).

Definition has_edge (g : Graph) (origin destination : N) : bool :=
    match dict_get (_out_edges g) origin with
    | Some out_edges => dict_contains out_edges destination
    | None => false
    end.

Definition edge (g : Graph) (origin destination : N) : result E :=
    out_edges <- lookup (dict_get (_out_edges g) origin) ;;
    lookup (dict_get out_edges destination).

Definition add_node (g : Graph) (node : N) : Graph :=
    mkGraph (dict_setdefault (_out_edges g) node [])
            (dict_setdefault (_in_edges g) node []).

Definition add_edge (g : Graph) (origin destination : N) (e : E)
    : result Graph :=
    out_edges <- lookup (dict_get (_out_edges g) origin) ;;
    in_edges <- lookup (dict_get (_in_edges g) destination) ;;
    Ok (mkGraph
          (dict_set (_out_edges g) origin (dict_set out_edges destination e))
          (dict_set (_in_edges g) destination (dict_set in_edges origin e))).

  (** [index[other].pop(node, None)] on one of the two indices. *)
Definition pop_in (node : N) (index : dict N (dict N E)) (other : N)
    : result (dict N (dict N E)) :=
    edges <- lookup (dict_get index other) ;;
    Ok (dict_set index other (dict_pop edges node)).

Definition remove_node (g : Graph) (node : N) : result Graph :=
    out_edges <- lookup (dict_get (_out_edges g) node) ;;
    in_edges <- lookup (dict_get (_in_edges g) node) ;;
    ins <- for_each (pop_in node) (dict_keys out_edges) (_in_edges g) ;;
    outs <- for_each (pop_in node) (dict_keys in_edges) (_out_edges g) ;;
    _ <- lookup (dict_get outs node) ;;
    _ <- lookup (dict_get ins node) ;;
    Ok (mkGraph (dict_pop outs node) (dict_pop ins node)).

Definition remove_edge (g : Graph) (origin destination : N) : result Graph :=
    out_edges <- lookup (dict_get (_out_edges g) origin) ;;
    in_edges <- lookup (dict_get (_in_edges g) destination) ;;
    Ok (mkGraph
          (dict_set (_out_edges g) origin (dict_pop out_edges destination))
          (dict_set (_in_edges g) destination (dict_pop in_edges origin))).

  (** The body of the loop of [update]. *)
Definition update_node (other : Graph) (self : Graph) (node : N)
    : result Graph :=
    let self := add_node self node in
    mine <- lookup (dict_get (_out_edges self) node) ;;
    theirs <- lookup (dict_get (_out_edges other) node) ;;
    let outs := dict_set (_out_edges self) node (dict_update mine theirs) in
    mine <- lookup (dict_get (_in_edges self) node) ;;
    theirs <- lookup (dict_get (_in_edges other) node) ;;
    let ins := dict_set (_in_edges self) node (dict_update mine theirs) in
    Ok (mkGraph outs ins).

Definition update (self other : Graph) : result Graph :=
    for_each (update_node other) (nodes other) self.

Definition copy (self : Graph) : result Graph :=
    update Graph_init self.

  (** *** The invariant of the two indices *)

  (** The edge [origin -> destination] with label [l], as the outgoing index
      has it and as the incoming index has it. *)
Definition out_edge (g : Graph) (origin destination : N) (l : E) : Prop :=
    exists out_edges,
      dict_get (_out_edges g) origin = Some out_edges /\
      dict_get out_edges destination = Some l.

Definition in_edge (g : Graph) (origin destination : N) (l : E) : Prop :=
    exists in_edges,
      dict_get (_in_edges g) destination = Some in_edges /\
      dict_get in_edges origin = Some l.

Definition mirror (g : Graph) : Prop :=
    (forall n, In n (dict_keys (_out_edges g)) <->
               In n (dict_keys (_in_edges g))) /\
    (forall origin destination l,
        out_edge g origin destination l <-> in_edge g origin destination l).

  (** The label of [origin -> destination], read in either index. *)
Definition out_label (g : Graph) (origin destination : N) : option E :=
    match dict_get (_out_edges g) origin with
    | Some out_edges => dict_get out_edges destination
    | None => None
    end.

Definition in_label (g : Graph) (origin destination : N) : option E :=
    match dict_get (_in_edges g) destination with
    | Some in_edges => dict_get in_edges origin
    | None => None
    end.

  (** The label after [update], from the label of the other graph and the
      label the graph had. *)
Definition merged (theirs mine : option E) : option E :=
    match theirs with Some l => Some l | None => mine end.

  (** What holds of every dictionary: unique keys, at both levels. *)
Definition index_ok (index : dict N (dict N E)) : Prop :=
    dict_ok index /\ forall n edges, In (n, edges) index -> dict_ok edges.

Definition Graph_ok (g : Graph) : Prop :=
    index_ok (_out_edges g) /\ index_ok (_in_edges g) /\ mirror g.

  (** No entry of either index mentions [n]. *)
Definition unmentioned (n : N) (g : Graph) : Prop :=
    ~ In n (dict_keys (_out_edges g)) /\
    ~ In n (dict_keys (_in_edges g)) /\
    (forall m edges, In (m, edges) (_out_edges g) -> ~ In n (dict_keys edges)) /\
    (forall m edges, In (m, edges) (_in_edges g) -> ~ In n (dict_keys edges)).

  (** *** Paths and cycles *)

Inductive path (g : Graph) : N -> N -> Prop :=
  | path_edge a b : has_edge g a b = true -> path g a b
  | path_step a b c : has_edge g a b = true -> path g b c -> path g a c.

Definition acyclic (g : Graph) : Prop := forall n, ~ path g n n.

Definition edge_count (g : Graph) : nat :=
    list_sum (map (fun entry => length (snd entry)) (_out_edges g)).

  (** [b] stands before [a] in [l]. *)
Definition before (b a : N) (l : list N) : Prop :=
    exists l1 l2 l3, l = l1 ++ b :: l2 ++ a :: l3.

  (** *** Reading the graph for the sort *)

  (** [not graph.predecessors(node)] *)
Definition no_predecessors (g : Graph) (node : N) : result bool :=
    preds <- predecessors g node ;;
    Ok (match preds with [] => true | _ => false end).

  (** [for dependency in dependencies: ...], on the list [pending] *)
Fixpoint enqueue (remaining : Graph) (dependencies pending : list N)
    : result (list N) :=
    match dependencies with
    | [] => Ok pending
    | dependency :: rest =>
        free <- no_predecessors remaining dependency ;;
        enqueue remaining rest
          (if free && negb (mem dependency pending)
           then pending ++ [dependency] else pending)
    end.

  (** [[node for node in graph.nodes if not graph.predecessors(node)]] *)
Fixpoint ready (g : Graph) (nodes : list N) : result (list N) :=
    match nodes with
    | [] => Ok []
    | node :: rest =>
        free <- no_predecessors g node ;;
        others <- ready g rest ;;
        Ok (if free then node :: others else others)
    end.

Fixpoint sorted_from (g : Graph) (visited nodes : list N) : result bool :=
    match nodes with
    | [] => Ok true
    | node :: rest =>
        let visited := set_add node visited in
        dependencies <- successors g node ;;
        if forallb (fun dependency => mem dependency visited) dependencies
        then sorted_from g visited rest
        else Ok false
    end.

Definition is_topologically_sorted (nodes : list N) (g : Graph)
    : result bool :=
    sorted_from g [] nodes.

  (** A walk along the edges: each node is followed by one of its
      successors. *)
Fixpoint forwards (g : Graph) (walk : list N) : Prop :=
    match walk with
    | [] => True
    | a :: rest =>
        match rest with
        | [] => True
        | b :: _ => has_edge g a b = true
        end /\ forwards g rest
    end.

  (** A walk against the edges: each node is followed by one of its
      predecessors. *)
Fixpoint backwards (g : Graph) (walk : list N) : Prop :=
    match walk with
    | [] => True
    | a :: rest =>
        match rest with
        | [] => True
        | b :: _ => has_edge g b a = true
        end /\ backwards g rest
    end.

  (** The invariant of the loop of the sort: [remaining] is what the removal
      of [result] leaves of [g], [pending] holds the nodes of [remaining]
      without predecessors, and a node was removed after every node
      that depends on it. *)
Definition sort_inv (g remaining : Graph) (pending result : list N) : Prop :=
    Graph_ok remaining /\
    (forall n, In n (nodes remaining) <-> In n (nodes g) /\ ~ In n result) /\
    (forall a b, has_edge remaining a b = true <->
                 has_edge g a b = true /\ ~ In a result /\ ~ In b result) /\
    NoDup pending /\
    (forall n, In n pending <->
               In n (nodes remaining) /\ forall p, has_edge remaining p n = false) /\
    NoDup result /\ incl result (nodes g) /\
    (forall a b, has_edge g a b = true -> In b result -> before a b result).

  (** *** Cycle search *)

Definition _remove_self_references (g : Graph) : result Graph :=
    for_each (fun g node => remove_edge g node node) (nodes g) g.

Section Search.
    (** [set.pop()] removes "an arbitrary element"; [pick] says which, as a
        position in the listing of the set. *)
Variable pick : list N -> nat.

Definition set_pop (s : list N) : result (N * list N) :=
      match s with
      | [] => Raise KeyError
      | x :: _ =>
          let y := nth (pick s mod length s) s x in
          Ok (y, remove eq_dec y s)
      end.

    (** A frame of the search: a node and its successors not yet drawn. *)
Definition frame : Type := (N * list N)%type.

    (** The Python list [stack] holds the frames bottom first; the model
        holds them top first, so [stack[-1]] is the head. *)
Definition stack_order (stack : list frame) : list N :=
      rev (map fst stack).

Inductive search : Type :=
    | Cycle (cycle : list N)
    | Exhausted (processed : list N).

    (** [while stack[-1][0] != dependency: cycle.append(...); stack.pop()] *)
Fixpoint unwind (dependency : N) (stack : list frame) (cycle : list N)
      : result (list N) :=
      match stack with
      | [] => Raise IndexError
      | (top_node, _) :: below =>
          if eq_dec top_node dependency then Ok cycle
          else unwind dependency below (cycle ++ [top_node])
      end.

    (** [while stack: ...] *)
Fixpoint dfs (fuel : nat) (g : Graph) (processed in_stack : list N)
      (stack : list frame) : result search :=
      match fuel with
      | 0 => OutOfFuel
      | S fuel' =>
          match stack with
          | [] => Ok (Exhausted processed)
          | (top_node, []) :: below =>
              if mem top_node in_stack
              then dfs fuel' g (set_add top_node processed)
                       (remove eq_dec top_node in_stack) below
              else Raise KeyError
          | (top_node, top_dependencies) :: below =>
              drawn <- set_pop top_dependencies ;;
              let dependency := fst drawn in
              let stack := (top_node, snd drawn) :: below in
              if mem dependency in_stack then
                cycle <- unwind dependency stack [dependency] ;;
                Ok (Cycle cycle)
              else if mem dependency processed then
                dfs fuel' g processed in_stack stack
              else
                dependencies <- successors g dependency ;;
                dfs fuel' g processed (set_add dependency in_stack)
                    ((dependency, dependencies) :: stack)
          end
      end.

    (** [for node in graph.nodes: ...] *)
Fixpoint search_from (fuel : nat) (g : Graph) (roots processed : list N)
      : result (option (list N)) :=
      match roots with
      | [] => Ok None
      | node :: roots' =>
          if mem node processed then search_from fuel g roots' processed
          else
            dependencies <- successors g node ;;
            found <- dfs fuel g processed [node] [(node, dependencies)] ;;
            match found with
            | Cycle cycle => Ok (Some cycle)
            | Exhausted processed' => search_from fuel g roots' processed'
            end
      end.

    (** The nodes of the frames from the top down to the frame of
        [dependency], and those strictly above it. *)
Fixpoint down_to (dependency : N) (stack : list frame) : list N :=
      match stack with
      | [] => []
      | (n, _) :: below =>
          if eq_dec n dependency then [n] else n :: down_to dependency below
      end.

Fixpoint above (dependency : N) (stack : list frame) : list N :=
      match stack with
      | [] => []
      | (n, _) :: below =>
          if eq_dec n dependency then [] else n :: above dependency below
      end.

    (** The suffix of the Python list [stack] from the frame of [dependency]
        to the top, in the order of the list. *)
Definition stack_suffix (dependency : N) (stack : list frame) : list N :=
      rev (down_to dependency stack).

    (** Each frame was pushed for a successor of the frame below it. *)
Fixpoint chained (g : Graph) (stack : list frame) : Prop :=
      match stack with
      | [] => True
      | (upper, _) :: below =>
          match below with
          | [] => True
          | (lower, _) :: _ => has_edge g lower upper = true
          end /\ chained g below
      end.

    (** A frame holds a node of the graph and some of its successors. *)
Definition frames_ok (g : Graph) (stack : list frame) : Prop :=
      forall n dependencies,
        In (n, dependencies) stack ->
        In n (nodes g) /\
        forall d, In d dependencies -> has_edge g n d = true.

    (** The invariant of the [while] loop. *)
Definition dfs_inv (g : Graph) (in_stack : list N) (stack : list frame)
      : Prop :=
      NoDup (map fst stack) /\
      (forall x, In x in_stack <-> In x (map fst stack)) /\
      chained g stack /\
      frames_ok g stack.

    (** What a reported cycle is: distinct nodes of the graph, each with an
        edge to one of them. *)
Definition closed_cycle (g : Graph) (cycle : list N) : Prop :=
      cycle <> [] /\ NoDup cycle /\ incl cycle (nodes g) /\
      forall x, In x cycle -> exists y, In y cycle /\ has_edge g x y = true.

    (** What the search knows when it reports no cycle.  The processed
        nodes are listed so that every successor of a node stands before
        it; the successors of a node on the stack are still to be drawn,
        or processed, or the node of the next frame. *)
Definition ordered (g : Graph) (processed : list N) : Prop :=
      forall x y,
        In x processed -> has_edge g x y = true ->
        In y processed /\ index_from 0 y processed < index_from 0 x processed.

Fixpoint explored (g : Graph) (processed : list N) (stack : list frame)
      (child : option N) : Prop :=
      match stack with
      | [] => True
      | (n, dependencies) :: below =>
          (forall y, has_edge g n y = true ->
                     In y dependencies \/ In y processed \/ child = Some y) /\
          explored g processed below (Some n)
      end.

Definition search_inv (g : Graph) (processed in_stack : list N)
      (stack : list frame) : Prop :=
      ordered g processed /\
      explored g processed stack None /\
      forall x, In x processed -> ~ In x in_stack.

    (** What the search still has to do: a frame costs an iteration per
        successor left and one to leave; a node that was never pushed
        costs what its frame will. *)
Definition frames_weight (stack : list frame) : nat :=
      list_sum (map (fun f : frame => S (length (snd f))) stack).

Definition unpushed_weight (g : Graph) (processed in_stack : list N) : nat :=
      list_sum
        (map (fun entry : N * dict N E =>
                if mem (fst entry) processed || mem (fst entry) in_stack
                then 0 else 2 + length (snd entry))
             (_out_edges g)).

    (** The bound of the [while] loop: a frame is pushed at most once per
        node and costs one iteration per successor and one to leave. *)
Definition dfs_bound (g : Graph) : nat :=
      S (2 * length (nodes g) + edge_count g).

Definition _find_cycle (g : Graph) : result (option (list N)) :=
      search_from (dfs_bound g) g (nodes g) [].
End Search.
End Graphs.

Arguments Graph N E : clear implicits.

(** ** Cycle replacement: the labels are booleans *)

Section Replace.
Context {N : Type} `{EqDec N}.
Variable pick : list N -> nat.
Variable key : N -> Z.

  (** [for node in cycle: for dependency in cycle: remove_edge(...)] *)
Definition remove_cycle_edges (g : Graph N bool) (cycle : list N)
    : result (Graph N bool) :=
    for_each
      (fun g node =>
         for_each (fun g dependency => remove_edge g node dependency) cycle g)
      cycle g.

  (** [for node in nodes: graph.add_edge(node, prev, True); prev = node] *)
Fixpoint link_chain (g : Graph N bool) (prev : N) (rest : list N)
    : result (Graph N bool) :=
    match rest with
    | [] => Ok g
    | node :: rest' =>
        g' <- add_edge g node prev true ;;
        link_chain g' node rest'
    end.

Definition relink (g : Graph N bool) (cycle : list N)
    : result (Graph N bool) :=
    match sorted key cycle with
    | [] => Raise StopIteration
    | prev :: rest => link_chain g prev rest
    end.

  (** [while True: ...] *)
Fixpoint replace_loop (fuel : nat) (g : Graph N bool)
    : result (Graph N bool) :=
    match fuel with
    | 0 => OutOfFuel
    | S fuel' =>
        found <- _find_cycle pick g ;;
        match found with
        | None | Some [] => Ok g
        | Some cycle =>
            g1 <- remove_cycle_edges g cycle ;;
            g2 <- relink g1 cycle ;;
            replace_loop fuel' g2
        end
    end.

  (** The graph is changed in place: the result is its final state. *)
Definition replace_cycles (g : Graph N bool) : result (Graph N bool) :=
    g0 <- _remove_self_references g ;;
    replace_loop (S (edge_count g0)) g0.
End Replace.

(** ** The store of dictionary objects, and [topological_sort] *)

Module Store.
Section Store.
Context {N E : Type} `{EqDec N}.

  (** Two kinds of dictionary objects live in the store: the indices of the
      graphs, from a node to (a reference to) its dictionary of edges, and
      the dictionaries of edges, from a node to a label.  A reference is the
      number of the object; [next_index] and [next_edges] are the numbers
      the next allocations take. *)
Record store : Type := mkStore {
    index_at : nat -> dict N nat;
    edges_at : nat -> dict N E;
    next_index : nat;
    next_edges : nat
  }.

Definition empty_store : store :=
    mkStore (fun _ => []) (fun _ => []) 0 0.

  (** A [Graph] object: its two attributes are bound by [__init__] and
      never again. *)
Record GraphRef : Type := mkRef {
    out_edges_ref : nat;
    in_edges_ref : nat
  }.

Definition M (A : Type) : Type := store -> store * result A.

Definition ret {A} (a : A) : M A := fun h => (h, Ok a).

Definition raise {A} (e : exn) : M A := fun h => (h, Raise e).

Definition lift {A} (r : result A) : M A := fun h => (h, r).

Definition mbind {A B} (m : M A) (f : A -> M B) : M B :=
    fun h =>
      match m h with
      | (h', Ok a) => f a h'
      | (h', Raise e) => (h', Raise e)
      | (h', OutOfFuel) => (h', OutOfFuel)
      end.

Notation "x <~ m ;; k" := (mbind m (fun x => k))
    (at level 61, m at next level, right associativity).
Notation "m ;;; k" := (mbind m (fun _ => k))
    (at level 61, right associativity).

Definition override {V} (f : nat -> V) (a : nat) (v : V) : nat -> V :=
    fun b => if Nat.eq_dec b a then v else f b.

  (** [{}] *)
Definition new_index : M nat :=
    fun h =>
      (mkStore (override (index_at h) (next_index h) []) (edges_at h)
               (S (next_index h)) (next_edges h),
       Ok (next_index h)).

Definition new_edges : M nat :=
    fun h =>
      (mkStore (index_at h) (override (edges_at h) (next_edges h) [])
               (next_index h) (S (next_edges h)),
       Ok (next_edges h)).

Definition read_index (a : nat) : M (dict N nat) :=
    fun h => (h, Ok (index_at h a)).

Definition read_edges (a : nat) : M (dict N E) :=
    fun h => (h, Ok (edges_at h a)).

Definition write_index (a : nat) (d : dict N nat) : M unit :=
    fun h =>
      (mkStore (override (index_at h) a d) (edges_at h)
               (next_index h) (next_edges h),
       Ok tt).

Definition write_edges (a : nat) (d : dict N E) : M unit :=
    fun h =>
      (mkStore (index_at h) (override (edges_at h) a d)
               (next_index h) (next_edges h),
       Ok tt).

Fixpoint mfor {X} (body : X -> M unit) (xs : list X) : M unit :=
    match xs with
    | [] => ret tt
    | x :: xs' => body x ;;; mfor body xs'
    end.

  (** [[x for x in xs if keep(x)]] *)
Fixpoint mfilter {X} (keep : X -> M bool) (xs : list X) : M (list X) :=
    match xs with
    | [] => ret []
    | x :: xs' =>
        b <~ keep x ;;
        rest <~ mfilter keep xs' ;;
        ret (if b then x :: rest else rest)
    end.

  (** [Graph()] *)
Definition Graph_init : M GraphRef :=
    o <~ new_index ;;
    i <~ new_index ;;
    ret (mkRef o i).

  (** [list(graph.nodes)] *)
Definition nodes (g : GraphRef) : M (list N) :=
    index <~ read_index (out_edges_ref g) ;;
    ret (dict_keys index).

  (** [index[node]]: the dictionary of edges of [node] in [index]. *)
Definition edges_of (index : nat) (node : N) : M nat :=
    d <~ read_index index ;;
    lift (lookup (dict_get d node)).

  (** [graph.successors(node)] and [graph.predecessors(node)] are views:
      they show the keys the dictionary has when they are read. *)
Definition successors (g : GraphRef) (node : N) : M nat :=
    edges_of (out_edges_ref g) node.

Definition predecessors (g : GraphRef) (node : N) : M nat :=
    edges_of (in_edges_ref g) node.

Definition view_keys (view : nat) : M (list N) :=
    d <~ read_edges view ;;
    ret (dict_keys d).

  (** [index.setdefault(node, {})] *)
Definition index_setdefault (index : nat) (node : N) : M unit :=
    fresh <~ new_edges ;;
    d <~ read_index index ;;
    write_index index (dict_setdefault d node fresh).

Definition add_node (g : GraphRef) (node : N) : M unit :=
    index_setdefault (out_edges_ref g) node ;;;
    index_setdefault (in_edges_ref g) node.

Definition add_edge (g : GraphRef) (origin destination : N) (e : E)
    : M unit :=
    out_edges <~ edges_of (out_edges_ref g) origin ;;
    in_edges <~ edges_of (in_edges_ref g) destination ;;
    d <~ read_edges out_edges ;;
    write_edges out_edges (dict_set d destination e) ;;;
    d <~ read_edges in_edges ;;
    write_edges in_edges (dict_set d origin e).

  (** [index[other].pop(node, None)] *)
Definition pop_in (node : N) (index : nat) (other : N) : M unit :=
    edges <~ edges_of index other ;;
    d <~ read_edges edges ;;
    write_edges edges (dict_pop d node).

  (** [index.pop(node)] *)
Definition index_pop (index : nat) (node : N) : M unit :=
    d <~ read_index index ;;
    _ <~ lift (lookup (dict_get d node)) ;;
    write_index index (dict_pop d node).

Definition remove_node (g : GraphRef) (node : N) : M unit :=
    out_edges <~ (edges <~ edges_of (out_edges_ref g) node ;; view_keys edges) ;;
    in_edges <~ (edges <~ edges_of (in_edges_ref g) node ;; view_keys edges) ;;
    mfor (pop_in node (in_edges_ref g)) out_edges ;;;
    mfor (pop_in node (out_edges_ref g)) in_edges ;;;
    index_pop (out_edges_ref g) node ;;;
    index_pop (in_edges_ref g) node.

  (** [self_index[node].update(other_index[node])] *)
Definition update_edges (self_index other_index : nat) (node : N) : M unit :=
    mine <~ edges_of self_index node ;;
    theirs <~ edges_of other_index node ;;
    d <~ read_edges mine ;;
    d2 <~ read_edges theirs ;;
    write_edges mine (dict_update d d2).

Definition update (self other : GraphRef) : M unit :=
    others <~ nodes other ;;
    mfor (fun node =>
            add_node self node ;;;
            update_edges (out_edges_ref self) (out_edges_ref other) node ;;;
            update_edges (in_edges_ref self) (in_edges_ref other) node)
         others.

Definition copy (self : GraphRef) : M GraphRef :=
    c <~ Graph_init ;;
    update c self ;;;
    ret c.

  (** The graph that the store holds at [g]. *)
Definition index_value (h : store) (index : nat) : dict N (dict N E) :=
    map (fun entry => (fst entry, edges_at h (snd entry))) (index_at h index).

Definition graph_at (h : store) (g : GraphRef) : Graph N E :=
    mkGraph (index_value h (out_edges_ref g)) (index_value h (in_edges_ref g)).

  (** The dictionaries of edges that [g] refers to. *)
Definition edges_refs (h : store) (g : GraphRef) : list nat :=
    map snd (index_at h (out_edges_ref g)) ++
    map snd (index_at h (in_edges_ref g)).

  (** A graph object in the store: its dictionaries are allocated, and no
      dictionary is referred to twice. *)
Definition separate (h : store) (g : GraphRef) : Prop :=
    out_edges_ref g <> in_edges_ref g /\
    out_edges_ref g < next_index h /\
    in_edges_ref g < next_index h /\
    NoDup (edges_refs h g) /\
    (forall a, In a (edges_refs h g) -> a < next_edges h).

Definition graph_ok (h : store) (g : GraphRef) : Prop :=
    separate h g /\ Graph_ok (graph_at h g).

  (** The graph object [c] was made after [h0]: its dictionaries are not
      among the objects of [h0]. *)
Definition made_after (h0 h : store) (c : GraphRef) : Prop :=
    next_index h0 <= out_edges_ref c /\
    next_index h0 <= in_edges_ref c /\
    forall a, In a (edges_refs h c) -> next_edges h0 <= a.

  (** Every object of [h] is in [h'] as it was. *)
Definition unchanged (h h' : store) : Prop :=
    (forall a, a < next_index h -> index_at h' a = index_at h a) /\
    (forall a, a < next_edges h -> edges_at h' a = edges_at h a).

Fixpoint sorted_from (g : GraphRef) (visited nodes : list N) : M bool :=
    match nodes with
    | [] => ret true
    | node :: rest =>
        let visited := set_add node visited in
        view <~ successors g node ;;
        dependencies <~ view_keys view ;;
        if forallb (fun dependency => mem dependency visited) dependencies
        then sorted_from g visited rest
        else ret false
    end.

Definition is_topologically_sorted (nodes : list N) (g : GraphRef) : M bool :=
    sorted_from g [] nodes.

  (** [not graph.predecessors(node)] *)
Definition no_predecessors (g : GraphRef) (node : N) : M bool :=
    view <~ predecessors g node ;;
    keys <~ view_keys view ;;
    ret (match keys with [] => true | _ => false end).

  (** [for dependency in dependencies: ...], on the list [pending] *)
Fixpoint enqueue (remaining : GraphRef) (dependencies pending : list N)
    : M (list N) :=
    match dependencies with
    | [] => ret pending
    | dependency :: rest =>
        free <~ no_predecessors remaining dependency ;;
        enqueue remaining rest
          (if free && negb (mem dependency pending)
           then pending ++ [dependency] else pending)
    end.

  (** [while pending: ...] *)
Fixpoint sort_loop (fuel : nat) (key : N -> Z) (remaining : GraphRef)
    (pending result : list N) : M (list N) :=
    match fuel with
    | 0 => lift OutOfFuel
    | S fuel' =>
        match pending with
        | [] => ret result
        | _ =>
            match pop_last (sorted key pending) with
            | None => raise IndexError
            | Some (node, pending) =>
                view <~ successors remaining node ;;
                remove_node remaining node ;;;
                dependencies <~ view_keys view ;;
                pending <~ enqueue remaining dependencies pending ;;
                sort_loop fuel' key remaining pending (result ++ [node])
            end
        end
    end.

  (** [sort_key_from_iter] is a parameter: any function from a reference
      sequence to a rank. *)
Variable sort_key_from_iter : list N -> N -> Z.

Definition sort_with (nodes : list N) (graph : GraphRef) : M (list N) :=
    remaining <~ copy graph ;;
    let key := sort_key_from_iter nodes in
    all <~ Store.nodes graph ;;
    pending <~ mfilter (no_predecessors graph) all ;;
    left <~ Store.nodes remaining ;;
    result <~ sort_loop (S (length left)) key remaining pending [] ;;
    let result := rev result in
    left <~ Store.nodes remaining ;;
    match left with
    | _ :: _ => raise AssertionError
    | [] =>
        good <~ is_topologically_sorted result graph ;;
        if good
        then ret (filter (fun node => mem node nodes) result)
        else raise AssertionError
    end.

Definition topological_sort (target : GraphRef + list N)
    (graph : option GraphRef) : M (list N) :=
    match graph with
    | None =>
        match target with
        | inl g => nodes <~ Store.nodes g ;; sort_with nodes g
        | inr _ => raise TypeError
        end
    | Some g =>
        match target with
        | inr nodes => sort_with nodes g
        | inl _ => raise TypeError
        end
    end.
End Store.
End Store.

(** ** Concrete graphs *)

(** Nodes 1 and 2 and the edge [1 -> 2]. *)
Definition one_edge : Graph nat bool :=
  mkGraph [(1, [(2, true)]); (2, [])] [(1, []); (2, [(1, true)])].

(** Nodes 2 and 3 and the edge [2 -> 3], labelled [false]. *)
Definition other_edge : Graph nat bool :=
  mkGraph [(2, [(3, false)]); (3, [])] [(2, []); (3, [(2, false)])].

(** Nodes 1 and 2 and the edges [1 -> 1], [1 -> 2] and [2 -> 1]. *)
Definition self_loop : Graph nat bool :=
  mkGraph [(1, [(1, true); (2, true)]); (2, [(1, true)])]
          [(1, [(1, true); (2, true)]); (2, [(1, true)])].

(** Nodes 1, 2 and 3 and the edges [1 -> 2], [2 -> 3] and [3 -> 1]. *)
Definition three_cycle : Graph nat bool :=
  mkGraph [(1, [(2, true)]); (2, [(3, true)]); (3, [(1, true)])]
          [(1, [(3, true)]); (2, [(1, true)]); (3, [(2, true)])].

(** The search on [three_cycle] when it has pushed 1, 2 and 3 and is about
    to draw the successor 1 of the top frame. *)
Definition three_frames : list (frame (N:=nat)) :=
  [(3, [1]); (2, []); (1, [])].

(** ** Concrete stores *)

(** [g = Graph(); g.add_node(1); g.add_node(2); g.add_edge(2, 1, True)] in
    the empty store. *)
Definition edge_program : Store.M (N:=nat) (E:=bool) Store.GraphRef :=
  Store.mbind Store.Graph_init (fun g =>
  Store.mbind (Store.add_node g 1) (fun _ =>
  Store.mbind (Store.add_node g 2) (fun _ =>
  Store.mbind (Store.add_edge g 2 1 true) (fun _ =>
  Store.ret g)))).

Definition edge_store : Store.store (N:=nat) (E:=bool) :=
  fst (edge_program Store.empty_store).

(** [g = Graph(); g.add_node(1); g.add_edge(1, 1, True)] *)
Definition loop_program : Store.M (N:=nat) (E:=bool) Store.GraphRef :=
  Store.mbind Store.Graph_init (fun g =>
  Store.mbind (Store.add_node g 1) (fun _ =>
  Store.mbind (Store.add_edge g 1 1 true) (fun _ =>
  Store.ret g))).

Definition loop_store : Store.store (N:=nat) (E:=bool) :=
  fst (loop_program Store.empty_store).

(** [g = Graph()], then [add_node] of 7, 3, 9 and 1 *)
Definition nodes_program : Store.M (N:=nat) (E:=bool) Store.GraphRef :=
  Store.mbind Store.Graph_init (fun g =>
  Store.mbind (Store.add_node g 7) (fun _ =>
  Store.mbind (Store.add_node g 3) (fun _ =>
  Store.mbind (Store.add_node g 9) (fun _ =>
  Store.mbind (Store.add_node g 1) (fun _ =>
  Store.ret g))))).

Definition nodes_store : Store.store (N:=nat) (E:=bool) :=
  fst (nodes_program Store.empty_store).

(** [g = Graph()] *)
Definition empty_program : Store.M (N:=nat) (E:=bool) Store.GraphRef :=
  Store.Graph_init.

Definition empty_graph_store : Store.store (N:=nat) (E:=bool) :=
  fst (empty_program Store.empty_store).

(** [g = Graph()], [add_node] of 1, 2 and 3, then [add_edge(2, 1, True)]
    and [add_edge(3, 2, True)]: the chain of the tests. *)
Definition chain_program : Store.M (N:=nat) (E:=bool) Store.GraphRef :=
  Store.mbind Store.Graph_init (fun g =>
  Store.mbind (Store.add_node g 1) (fun _ =>
  Store.mbind (Store.add_node g 2) (fun _ =>
  Store.mbind (Store.add_node g 3) (fun _ =>
  Store.mbind (Store.add_edge g 2 1 true) (fun _ =>
  Store.mbind (Store.add_edge g 3 2 true) (fun _ =>
  Store.ret g)))))).

Definition chain_store : Store.store (N:=nat) (E:=bool) :=
  fst (chain_program Store.empty_store).

(** The graph object that each of these programs makes. *)
Definition first_graph : Store.GraphRef := Store.mkRef 0 1.

(** * Proofs *)

(** ** Results *)

Lemma bind_Ok {A B} (m : result A) (f : A -> result B) b :
  bind m f = Ok b -> exists a, m = Ok a /\ f a = Ok b.
Proof. destruct m; simpl; intros; try discriminate. eauto. Qed.

Lemma lookup_Ok {A} (o : option A) a : lookup o = Ok a <-> o = Some a.
Proof. destruct o; simpl; split; intros; congruence. Qed.

Ltac inv_ok :=
  repeat match goal with
    | H : bind _ _ = Ok _ |- _ =>
        let a := fresh "a" in
        let Ha := fresh "Ha" in
        apply bind_Ok in H; destruct H as (a & Ha & H)
    | H : lookup _ = Ok _ |- _ => apply lookup_Ok in H
    | H : Ok _ = Ok _ |- _ => inversion H; clear H; subst
    end.

(** ** Lists and sets *)

Section ListFacts.
Context {A : Type} `{EqDec A}.

Lemma mem_true (x : A) l : mem x l = true <-> In x l.
  Proof. unfold mem. destruct (in_dec eq_dec x l); split; intros; congruence || auto. Qed.

Lemma mem_false (x : A) l : mem x l = false <-> ~ In x l.
  Proof. unfold mem. destruct (in_dec eq_dec x l); split; intros; congruence || auto. Qed.

Lemma In_set_add (x y : A) s : In y (set_add x s) <-> y = x \/ In y s.
  Proof.
    unfold set_add. destruct (mem x s) eqn:Hm.
    - apply mem_true in Hm. split; intros; auto. destruct H0; subst; auto.
    - rewrite in_app_iff. simpl. intuition.
  Qed.

Lemma NoDup_set_add (x : A) s : NoDup s -> NoDup (set_add x s).
  Proof.
    unfold set_add. destruct (mem x s) eqn:Hm; auto.
    apply mem_false in Hm. intros Hs.
    apply NoDup_rev in Hs. rewrite <- (rev_involutive (s ++ [x])).
    apply NoDup_rev. rewrite rev_app_distr. simpl. constructor; auto.
    rewrite <- in_rev. auto.
  Qed.

Lemma In_remove_iff (x y : A) l : In y (remove eq_dec x l) <-> In y l /\ y <> x.
  Proof.
    split.
    - apply in_remove.
    - intros [? ?]. apply in_in_remove; auto.
  Qed.

Lemma NoDup_remove_elt (x : A) l : NoDup l -> NoDup (remove eq_dec x l).
  Proof.
    induction 1; simpl; [constructor|].
    destruct (eq_dec x x0); auto. constructor; auto.
    rewrite In_remove_iff. tauto.
  Qed.

Lemma pop_last_snoc (l : list A) x : pop_last (l ++ [x]) = Some (x, l).
  Proof. unfold pop_last. rewrite rev_app_distr. simpl. now rewrite rev_involutive. Qed.

Lemma pop_last_Some (l : list A) x r : pop_last l = Some (x, r) -> l = r ++ [x].
  Proof.
    unfold pop_last. destruct (rev l) eqn:E; intros Hp; inversion Hp; subst.
    rewrite <- (rev_involutive l), E. reflexivity.
  Qed.

Lemma pop_last_None (l : list A) : pop_last l = None -> l = [].
  Proof.
    unfold pop_last. destruct (rev l) eqn:E; intros Hp; [|discriminate].
    rewrite <- (rev_involutive l), E. reflexivity.
  Qed.
End ListFacts.

(** ** [sorted] *)

Section Sorted.
Context {A : Type}.
Variable key : A -> Z.

Lemma insert_by_perm (x : A) l : Permutation (x :: l) (insert_by key x l).
  Proof.
    induction l as [|y l IH]; simpl; auto.
    destruct (key x <=? key y)%Z; auto.
    rewrite perm_swap. constructor. exact IH.
  Qed.

Lemma sorted_perm (l : list A) : Permutation l (sorted key l).
  Proof.
    induction l as [|x l IH]; simpl; auto.
    rewrite <- insert_by_perm. constructor. exact IH.
  Qed.

Lemma In_sorted (x : A) l : In x (sorted key l) <-> In x l.
  Proof.
    split; apply Permutation_in; [symmetry|]; apply sorted_perm.
  Qed.

Lemma NoDup_sorted (l : list A) : NoDup l -> NoDup (sorted key l).
  Proof. apply Permutation_NoDup, sorted_perm. Qed.

Lemma length_sorted (l : list A) : length (sorted key l) = length l.
  Proof. symmetry. apply Permutation_length, sorted_perm. Qed.

  (** A list whose keys already ascend is left as it is. *)
Lemma insert_by_least (x : A) l :
    Forall (fun y => (key x <= key y)%Z) l -> insert_by key x l = x :: l.
  Proof.
    destruct 1 as [|y l Hy _]; simpl; auto.
    apply Z.leb_le in Hy. now rewrite Hy.
  Qed.

Lemma sorted_ascending (l : list A) :
    StronglySorted (fun x y => (key x <= key y)%Z) l -> sorted key l = l.
  Proof.
    induction 1 as [|x l Hs IH Hx]; simpl; auto.
    rewrite IH. now apply insert_by_least.
  Qed.
End Sorted.

(** ** Dictionaries *)

Section DictFacts.
Context {K V : Type} `{EqDec K}.
Implicit Types (d : dict K V) (k : K) (v : V).

Lemma dict_get_Some_In d k v : dict_get d k = Some v -> In (k, v) d.
  Proof.
    induction d as [|[k' v'] d IH]; simpl; [discriminate|].
    destruct (eq_dec k k'); intros E.
    - inversion E; subst. auto.
    - auto.
  Qed.

Lemma dict_get_None d k : dict_get d k = None <-> ~ In k (dict_keys d).
  Proof.
    induction d as [|[k' v'] d IH]; simpl.
    - tauto.
    - destruct (eq_dec k k'); subst.
      + split; [discriminate|]. intros F. exfalso. auto.
      + rewrite IH. split; intros F; [intros [?|?]; [congruence|auto]|auto].
  Qed.

Lemma dict_get_In_keys d k : In k (dict_keys d) <-> exists v, dict_get d k = Some v.
  Proof.
    destruct (dict_get d k) eqn:E.
    - split; eauto. intros _.
      apply dict_get_Some_In in E. change k with (fst (k, v)). now apply in_map.
    - apply dict_get_None in E. split; [tauto|]. intros [? ?]. discriminate.
  Qed.

Lemma dict_contains_true d k : dict_contains d k = true <-> In k (dict_keys d).
  Proof.
    unfold dict_contains. rewrite dict_get_In_keys.
    destruct (dict_get d k); split; eauto; try discriminate. intros [? ?]. discriminate.
  Qed.

Lemma dict_contains_false d k : dict_contains d k = false <-> ~ In k (dict_keys d).
  Proof.
    rewrite <- dict_contains_true. destruct (dict_contains d k); split; congruence.
  Qed.

Lemma In_dict_get d k v : dict_ok d -> In (k, v) d -> dict_get d k = Some v.
  Proof.
    unfold dict_ok. induction d as [|[k' v'] d IH]; simpl; [tauto|].
    intros Hnd [E|Hin]; inversion Hnd; subst.
    - inversion E; subst. destruct (eq_dec k k); congruence.
    - destruct (eq_dec k k'); subst; auto.
      exfalso. apply H2. change k' with (fst (k', v)). now apply in_map.
  Qed.

  (** *** [d[k] = v] *)

Lemma dict_get_set_eq d k v : dict_get (dict_set d k v) k = Some v.
  Proof.
    induction d as [|[k' v'] d IH]; simpl.
    - destruct (eq_dec k k); congruence.
    - destruct (eq_dec k k') as [->|Hne]; simpl.
      + destruct (eq_dec k' k'); congruence.
      + destruct (eq_dec k k'); congruence.
  Qed.

Lemma dict_get_set_ne d k v k' : k <> k' -> dict_get (dict_set d k v) k' = dict_get d k'.
  Proof.
    intros Hne. induction d as [|[k0 v0] d IH]; simpl.
    - destruct (eq_dec k' k); congruence.
    - destruct (eq_dec k k0) as [->|Hne0]; simpl.
      + destruct (eq_dec k' k0); congruence.
      + destruct (eq_dec k' k0); congruence.
  Qed.

Lemma dict_get_set d k v k' :
    dict_get (dict_set d k v) k' = if eq_dec k k' then Some v else dict_get d k'.
  Proof.
    destruct (eq_dec k k'); subst.
    - apply dict_get_set_eq.
    - now apply dict_get_set_ne.
  Qed.

Lemma dict_keys_set_in d k v : In k (dict_keys d) -> dict_keys (dict_set d k v) = dict_keys d.
  Proof.
    induction d as [|[k' v'] d IH]; simpl; [tauto|].
    destruct (eq_dec k k'); simpl; auto.
    intros [?|?]; [congruence|]. f_equal. auto.
  Qed.

Lemma dict_keys_set_new d k v :
    ~ In k (dict_keys d) -> dict_keys (dict_set d k v) = dict_keys d ++ [k].
  Proof.
    induction d as [|[k' v'] d IH]; simpl; auto.
    destruct (eq_dec k k'); simpl; intros Hn.
    - exfalso. auto.
    - f_equal. auto.
  Qed.

Lemma In_keys_set d k v x : In x (dict_keys (dict_set d k v)) <-> x = k \/ In x (dict_keys d).
  Proof.
    destruct (in_dec eq_dec k (dict_keys d)) as [Hin|Hn].
    - rewrite dict_keys_set_in by auto. intuition (subst; auto).
    - rewrite dict_keys_set_new by auto. rewrite in_app_iff. simpl. intuition.
  Qed.

Lemma dict_ok_set d k v : dict_ok d -> dict_ok (dict_set d k v).
  Proof.
    unfold dict_ok. intros Hd.
    destruct (in_dec eq_dec k (dict_keys d)) as [Hin|Hn].
    - now rewrite dict_keys_set_in.
    - rewrite dict_keys_set_new by auto.
      apply NoDup_rev in Hd. rewrite <- (rev_involutive (_ ++ _)).
      apply NoDup_rev. rewrite rev_app_distr. simpl. constructor; auto.
      now rewrite <- in_rev.
  Qed.

Lemma In_dict_set d k v k' v' :
    In (k', v') (dict_set d k v) -> (k' = k /\ v' = v) \/ In (k', v') d.
  Proof.
    induction d as [|[k0 v0] d IH]; simpl.
    - intros [E|[]]. inversion E; auto.
    - destruct (eq_dec k k0); simpl; intros [E|Hin]; auto.
      + inversion E; subst; auto.
      + destruct (IH Hin); auto.
  Qed.

Lemma length_dict_set_in d k v : In k (dict_keys d) -> length (dict_set d k v) = length d.
  Proof.
    intros Hin. rewrite <- (length_map fst (dict_set d k v)), <- (length_map fst d).
    fold (dict_keys (dict_set d k v)). fold (dict_keys d). now rewrite dict_keys_set_in.
  Qed.

  (** *** [d.pop(k, None)] *)

Lemma dict_get_pop_eq d k : dict_get (dict_pop d k) k = None.
  Proof.
    induction d as [|[k' v'] d IH]; simpl; auto.
    destruct (eq_dec k k'); simpl; auto. destruct (eq_dec k k'); congruence.
  Qed.

Lemma dict_get_pop_ne d k k' : k <> k' -> dict_get (dict_pop d k) k' = dict_get d k'.
  Proof.
    intros Hne. induction d as [|[k0 v0] d IH]; simpl; auto.
    destruct (eq_dec k k0) as [->|Hne0]; simpl.
    - destruct (eq_dec k' k0); congruence.
    - destruct (eq_dec k' k0); congruence.
  Qed.

Lemma dict_get_pop d k k' :
    dict_get (dict_pop d k) k' = if eq_dec k k' then None else dict_get d k'.
  Proof.
    destruct (eq_dec k k'); subst.
    - apply dict_get_pop_eq.
    - now apply dict_get_pop_ne.
  Qed.

Lemma dict_keys_pop d k : dict_keys (dict_pop d k) = remove eq_dec k (dict_keys d).
  Proof.
    induction d as [|[k' v'] d IH]; simpl; auto.
    destruct (eq_dec k k'); simpl; congruence.
  Qed.

Lemma In_keys_pop d k x : In x (dict_keys (dict_pop d k)) <-> In x (dict_keys d) /\ x <> k.
  Proof. rewrite dict_keys_pop. apply In_remove_iff. Qed.

Lemma dict_ok_pop d k : dict_ok d -> dict_ok (dict_pop d k).
  Proof. unfold dict_ok. rewrite dict_keys_pop. apply NoDup_remove_elt. Qed.

Lemma In_dict_pop d k k' v' : In (k', v') (dict_pop d k) -> In (k', v') d /\ k' <> k.
  Proof.
    induction d as [|[k0 v0] d IH]; simpl; [tauto|].
    destruct (eq_dec k k0); simpl.
    - intros Hin. destruct (IH Hin). auto.
    - intros [E|Hin].
      + inversion E; subst. auto.
      + destruct (IH Hin). auto.
  Qed.

Lemma dict_pop_absent d k : ~ In k (dict_keys d) -> dict_pop d k = d.
  Proof.
    induction d as [|[k' v'] d IH]; simpl; auto.
    destruct (eq_dec k k'); intros Hn.
    - exfalso. auto.
    - f_equal. auto.
  Qed.

Lemma length_dict_pop_le d k : length (dict_pop d k) <= length d.
  Proof.
    induction d as [|[k' v'] d IH]; simpl; auto.
    destruct (eq_dec k k'); simpl; lia.
  Qed.

Lemma length_dict_pop_lt d k : In k (dict_keys d) -> length (dict_pop d k) < length d.
  Proof.
    induction d as [|[k' v'] d IH]; simpl; [tauto|].
    destruct (eq_dec k k'); simpl.
    - intros _. pose proof (length_dict_pop_le d k). lia.
    - intros [?|?]; [congruence|]. apply IH in H0. lia.
  Qed.

  (** *** [d.setdefault(k, v)] *)

Lemma dict_setdefault_present d k v : In k (dict_keys d) -> dict_setdefault d k v = d.
  Proof. unfold dict_setdefault. intros Hin. apply dict_contains_true in Hin. now rewrite Hin. Qed.

Lemma dict_setdefault_absent d k v : ~ In k (dict_keys d) -> dict_setdefault d k v = d ++ [(k, v)].
  Proof. unfold dict_setdefault. intros Hn. apply dict_contains_false in Hn. now rewrite Hn. Qed.

Lemma dict_get_app d d' k :
    dict_get (d ++ d') k = match dict_get d k with Some v => Some v | None => dict_get d' k end.
  Proof.
    induction d as [|[k' v'] d IH]; simpl; auto.
    destruct (eq_dec k k'); auto.
  Qed.

Lemma dict_get_setdefault d k v k' :
    dict_get (dict_setdefault d k v) k' =
    match dict_get d k' with
    | Some v' => Some v'
    | None => if eq_dec k k' then Some v else None
    end.
  Proof.
    unfold dict_setdefault, dict_contains.
    destruct (dict_get d k) eqn:E.
    - destruct (dict_get d k') eqn:E'; auto.
      destruct (eq_dec k k'); congruence.
    - rewrite dict_get_app. simpl. destruct (dict_get d k'); auto.
      destruct (eq_dec k' k), (eq_dec k k'); congruence.
  Qed.

Lemma In_keys_setdefault d k v x :
    In x (dict_keys (dict_setdefault d k v)) <-> x = k \/ In x (dict_keys d).
  Proof.
    destruct (in_dec eq_dec k (dict_keys d)) as [Hin|Hn].
    - rewrite dict_setdefault_present by auto. intuition (subst; auto).
    - rewrite dict_setdefault_absent by auto. unfold dict_keys.
      rewrite map_app, in_app_iff. simpl. intuition.
  Qed.

Lemma dict_ok_setdefault d k v : dict_ok d -> dict_ok (dict_setdefault d k v).
  Proof.
    unfold dict_ok. intros Hd.
    destruct (in_dec eq_dec k (dict_keys d)) as [Hin|Hn].
    - now rewrite dict_setdefault_present.
    - rewrite dict_setdefault_absent by auto. unfold dict_keys. rewrite map_app. simpl.
      apply NoDup_rev in Hd. rewrite <- (rev_involutive (_ ++ _)).
      apply NoDup_rev. rewrite rev_app_distr. simpl. constructor; auto.
      now rewrite <- in_rev.
  Qed.

Lemma In_dict_setdefault d k v k' v' :
    In (k', v') (dict_setdefault d k v) -> (k' = k /\ v' = v) \/ In (k', v') d.
  Proof.
    unfold dict_setdefault. destruct (dict_contains d k); auto.
    rewrite in_app_iff. simpl. intros [?|[E|[]]]; auto. inversion E; auto.
  Qed.

  (** *** [d.update(d2)] *)

Lemma dict_update_cons d k v d2 :
    dict_update d ((k, v) :: d2) = dict_update (dict_set d k v) d2.
  Proof. reflexivity. Qed.

Lemma dict_get_update d d2 k :
    dict_ok d2 ->
    dict_get (dict_update d d2) k =
    match dict_get d2 k with Some v => Some v | None => dict_get d k end.
  Proof.
    unfold dict_ok. revert d. induction d2 as [|[k2 v2] d2 IH]; intros d Hd2; auto.
    rewrite dict_update_cons. simpl in Hd2. inversion Hd2; subst.
    rewrite IH by auto. simpl. destruct (eq_dec k k2) as [->|Hne].
    - destruct (dict_get d2 k2) eqn:E.
      + exfalso. apply H2. apply dict_get_In_keys. eauto.
      + apply dict_get_set_eq.
    - destruct (dict_get d2 k); auto. apply dict_get_set_ne. congruence.
  Qed.

Lemma In_keys_update d d2 x :
    In x (dict_keys (dict_update d d2)) <-> In x (dict_keys d) \/ In x (dict_keys d2).
  Proof.
    revert d. induction d2 as [|[k2 v2] d2 IH]; intros d.
    - simpl. tauto.
    - rewrite dict_update_cons, IH, In_keys_set. simpl. intuition.
  Qed.

Lemma dict_ok_update d d2 : dict_ok d -> dict_ok (dict_update d d2).
  Proof.
    revert d. induction d2 as [|[k2 v2] d2 IH]; intros d Hd; auto.
    rewrite dict_update_cons. apply IH. now apply dict_ok_set.
  Qed.

Lemma dict_set_snoc d k v : ~ In k (dict_keys d) -> dict_set d k v = d ++ [(k, v)].
  Proof.
    induction d as [|[k' v'] d IH]; simpl; auto.
    destruct (eq_dec k k'); intros Hn.
    - exfalso; auto.
    - f_equal; auto.
  Qed.

Lemma dict_update_app d d2 :
    dict_ok (d ++ d2) -> dict_update d d2 = d ++ d2.
  Proof.
    unfold dict_ok, dict_keys. revert d. induction d2 as [|[k2 v2] d2 IH]; intros d Hd.
    - simpl. now rewrite app_nil_r.
    - rewrite dict_update_cons.
      assert (Hn : ~ In k2 (dict_keys d)).
      { rewrite map_app in Hd. simpl in Hd. apply NoDup_remove_2 in Hd.
        rewrite in_app_iff in Hd. tauto. }
      rewrite dict_set_snoc by auto.
      change ((k2, v2) :: d2) with ([(k2, v2)] ++ d2). rewrite app_assoc.
      apply IH. now rewrite <- app_assoc.
  Qed.

Lemma dict_update_nil d2 : dict_ok d2 -> dict_update [] d2 = d2.
  Proof. intros Hd. now apply (dict_update_app []). Qed.
End DictFacts.

(** ** The graph and its two indices *)

Section GraphFacts.
Context {N E : Type} `{EqDec N}.
Implicit Types (g : Graph N E) (index : dict N (dict N E)).

Lemma out_edge_label g o d l : out_edge g o d l <-> out_label g o d = Some l.
  Proof.
    unfold out_edge, out_label. split.
    - intros (e & -> & He). exact He.
    - destruct (dict_get (_out_edges g) o); [eauto|discriminate].
  Qed.

Lemma in_edge_label g o d l : in_edge g o d l <-> in_label g o d = Some l.
  Proof.
    unfold in_edge, in_label. split.
    - intros (e & -> & He). exact He.
    - destruct (dict_get (_in_edges g) d); [eauto|discriminate].
  Qed.

Lemma mirror_labels g :
    mirror g <->
    (forall n, In n (dict_keys (_out_edges g)) <-> In n (dict_keys (_in_edges g))) /\
    (forall o d, out_label g o d = in_label g o d).
  Proof.
    unfold mirror. split; intros [Hk He]; split; auto.
    - intros o d. destruct (out_label g o d) as [l|] eqn:Eo.
      + symmetry. apply in_edge_label, He, out_edge_label. exact Eo.
      + destruct (in_label g o d) as [l|] eqn:Ei; auto.
        apply in_edge_label, He, out_edge_label in Ei. congruence.
    - intros o d l. rewrite out_edge_label, in_edge_label, He. tauto.
  Qed.

Lemma has_edge_label g o d : has_edge g o d = true <-> exists l, out_label g o d = Some l.
  Proof.
    unfold has_edge, out_label. destruct (dict_get (_out_edges g) o).
    - rewrite dict_contains_true. apply dict_get_In_keys.
    - split; [discriminate|]. intros [? ?]. discriminate.
  Qed.

Lemma out_label_node g o d l : out_label g o d = Some l -> In o (nodes g).
  Proof.
    unfold out_label, nodes. destruct (dict_get (_out_edges g) o) eqn:Hg; [|discriminate].
    intros _. apply dict_get_In_keys. eauto.
  Qed.

Lemma in_label_node g o d l : in_label g o d = Some l -> In d (dict_keys (_in_edges g)).
  Proof.
    unfold in_label. destruct (dict_get (_in_edges g) d) eqn:Hg; [|discriminate].
    intros _. apply dict_get_In_keys. eauto.
  Qed.

Lemma mirror_nodes_in g n : mirror g -> In n (nodes g) <-> In n (dict_keys (_in_edges g)).
  Proof. intros [Hk _]. apply Hk. Qed.

Lemma edge_nodes g o d :
    mirror g -> has_edge g o d = true -> In o (nodes g) /\ In d (nodes g).
  Proof.
    intros Hm He. apply has_edge_label in He. destruct He as [l Hl]. split.
    - eapply out_label_node; eauto.
    - apply mirror_labels in Hm. destruct Hm as [Hk Hl']. rewrite Hl' in Hl.
      apply Hk. eapply in_label_node; eauto.
  Qed.

Lemma index_ok_nil : index_ok (@nil (N * dict N E)).
  Proof. split; [constructor|]. intros ? ? []. Qed.

Lemma index_ok_get index n edges :
    index_ok index -> dict_get index n = Some edges -> dict_ok edges.
  Proof. intros [_ Hi] Hg. eapply Hi. apply dict_get_Some_In. eauto. Qed.

Lemma index_ok_set index n edges :
    index_ok index -> dict_ok edges -> index_ok (dict_set index n edges).
  Proof.
    intros [Hd Hi] He. split.
    - now apply dict_ok_set.
    - intros m e Hin. apply In_dict_set in Hin. destruct Hin as [[_ ->]|Hin]; eauto.
  Qed.

Lemma index_ok_pop index n : index_ok index -> index_ok (dict_pop index n).
  Proof.
    intros [Hd Hi]. split.
    - now apply dict_ok_pop.
    - intros m e Hin. apply In_dict_pop in Hin. destruct Hin. eauto.
  Qed.

Lemma index_ok_setdefault index n edges :
    index_ok index -> dict_ok edges -> index_ok (dict_setdefault index n edges).
  Proof.
    intros [Hd Hi] He. split.
    - now apply dict_ok_setdefault.
    - intros m e Hin. apply In_dict_setdefault in Hin. destruct Hin as [[_ ->]|Hin]; eauto.
  Qed.

  (** *** [Graph()] *)

Lemma Graph_init_ok : Graph_ok (@Graph_init N E).
  Proof.
    split; [apply index_ok_nil|]. split; [apply index_ok_nil|].
    apply mirror_labels. split; [tauto|]. reflexivity.
  Qed.

  (** *** [add_node] *)

Lemma out_label_add_node g n o d : out_label (add_node g n) o d = out_label g o d.
  Proof.
    unfold out_label, add_node. simpl. rewrite dict_get_setdefault.
    destruct (dict_get (_out_edges g) o); auto. destruct (eq_dec n o); auto.
  Qed.

Lemma in_label_add_node g n o d : in_label (add_node g n) o d = in_label g o d.
  Proof.
    unfold in_label, add_node. simpl. rewrite dict_get_setdefault.
    destruct (dict_get (_in_edges g) d); auto. destruct (eq_dec n d); auto.
  Qed.

Lemma add_node_ok g n : Graph_ok g -> Graph_ok (add_node g n).
  Proof.
    intros (Ho & Hi & Hm). split; [|split].
    - apply index_ok_setdefault; auto. constructor.
    - apply index_ok_setdefault; auto. constructor.
    - apply mirror_labels in Hm. destruct Hm as [Hk Hl]. apply mirror_labels. split.
      + intros m. simpl. rewrite !In_keys_setdefault, Hk. tauto.
      + intros o d. now rewrite out_label_add_node, in_label_add_node.
  Qed.

Lemma In_nodes_add_node g n m : In m (nodes (add_node g n)) <-> m = n \/ In m (nodes g).
  Proof. unfold nodes, add_node. simpl. apply In_keys_setdefault. Qed.

  (** *** [add_edge] *)

Lemma add_edge_Ok g o d e :
    In o (nodes g) -> In d (dict_keys (_in_edges g)) -> exists g', add_edge g o d e = Ok g'.
  Proof.
    unfold add_edge, nodes. intros Ho Hd.
    apply dict_get_In_keys in Ho. destruct Ho as [oe ->].
    apply dict_get_In_keys in Hd. destruct Hd as [ie ->]. simpl. eauto.
  Qed.

Lemma add_edge_fails g o d e ex :
    add_edge g o d e = Raise ex ->
    ex = KeyError /\ (~ In o (nodes g) \/ ~ In d (dict_keys (_in_edges g))).
  Proof.
    unfold add_edge, nodes.
    destruct (dict_get (_out_edges g) o) eqn:Eo; simpl.
    - destruct (dict_get (_in_edges g) d) eqn:Ed; simpl; [discriminate|].
      intros E'. inversion E'. split; auto. right. now apply dict_get_None.
    - intros E'. inversion E'. split; auto. left. now apply dict_get_None.
  Qed.

Lemma nodes_add_edge [g o d e g'] : add_edge g o d e = Ok g' -> nodes g' = nodes g.
  Proof.
    unfold add_edge, nodes. intros Hop. inv_ok. simpl.
    apply dict_keys_set_in. apply dict_get_In_keys. eauto.
  Qed.

Lemma keys_in_add_edge [g o d e g'] :
    add_edge g o d e = Ok g' -> dict_keys (_in_edges g') = dict_keys (_in_edges g).
  Proof.
    unfold add_edge. intros Hop. inv_ok. simpl.
    apply dict_keys_set_in. apply dict_get_In_keys. eauto.
  Qed.

Lemma out_label_add_edge [g o d e g'] :
    add_edge g o d e = Ok g' -> forall a b,
    out_label g' a b =
    if eq_dec o a then if eq_dec d b then Some e else out_label g a b else out_label g a b.
  Proof.
    unfold add_edge, out_label. intros Hop a b. inv_ok. simpl.
    rewrite dict_get_set. destruct (eq_dec o a); subst; auto.
    rewrite Ha. apply dict_get_set.
  Qed.

Lemma in_label_add_edge [g o d e g'] :
    add_edge g o d e = Ok g' -> forall a b,
    in_label g' a b =
    if eq_dec o a then if eq_dec d b then Some e else in_label g a b else in_label g a b.
  Proof.
    unfold add_edge, in_label. intros Hop a b. inv_ok. simpl.
    rewrite dict_get_set. destruct (eq_dec d b); subst.
    - rewrite Ha0. rewrite dict_get_set. destruct (eq_dec o a); auto.
    - destruct (eq_dec o a); auto.
  Qed.

Lemma add_edge_ok g o d e g' : Graph_ok g -> add_edge g o d e = Ok g' -> Graph_ok g'.
  Proof.
    intros (Ho & Hi & Hm) Hop.
    pose proof (nodes_add_edge Hop) as Hn.
    pose proof (keys_in_add_edge Hop) as Hk'.
    pose proof (out_label_add_edge Hop) as Hlo.
    pose proof (in_label_add_edge Hop) as Hli.
    unfold add_edge in Hop. inv_ok. split; [|split]; simpl.
    - apply index_ok_set; auto. apply dict_ok_set. exact (index_ok_get _ _ _ Ho Ha).
    - apply index_ok_set; auto. apply dict_ok_set. exact (index_ok_get _ _ _ Hi Ha0).
    - apply mirror_labels in Hm. destruct Hm as [Hk Hl]. apply mirror_labels. split.
      + intros m. unfold nodes in Hn. simpl in *. rewrite Hn, Hk'. apply Hk.
      + intros x y. rewrite Hlo, Hli, Hl. reflexivity.
  Qed.

  (** *** [remove_edge] *)

Lemma remove_edge_Ok g o d :
    In o (nodes g) -> In d (dict_keys (_in_edges g)) -> exists g', remove_edge g o d = Ok g'.
  Proof.
    unfold remove_edge, nodes. intros Ho Hd.
    apply dict_get_In_keys in Ho. destruct Ho as [oe ->].
    apply dict_get_In_keys in Hd. destruct Hd as [ie ->]. simpl. eauto.
  Qed.

Lemma nodes_remove_edge [g o d g'] : remove_edge g o d = Ok g' -> nodes g' = nodes g.
  Proof.
    unfold remove_edge, nodes. intros Hop. inv_ok. simpl.
    apply dict_keys_set_in. apply dict_get_In_keys. eauto.
  Qed.

Lemma keys_in_remove_edge [g o d g'] :
    remove_edge g o d = Ok g' -> dict_keys (_in_edges g') = dict_keys (_in_edges g).
  Proof.
    unfold remove_edge. intros Hop. inv_ok. simpl.
    apply dict_keys_set_in. apply dict_get_In_keys. eauto.
  Qed.

Lemma out_label_remove_edge [g o d g'] :
    remove_edge g o d = Ok g' -> forall a b,
    out_label g' a b =
    if eq_dec o a then if eq_dec d b then None else out_label g a b else out_label g a b.
  Proof.
    unfold remove_edge, out_label. intros Hop a b. inv_ok. simpl.
    rewrite dict_get_set. destruct (eq_dec o a); subst; auto.
    rewrite Ha. apply dict_get_pop.
  Qed.

Lemma in_label_remove_edge [g o d g'] :
    remove_edge g o d = Ok g' -> forall a b,
    in_label g' a b =
    if eq_dec o a then if eq_dec d b then None else in_label g a b else in_label g a b.
  Proof.
    unfold remove_edge, in_label. intros Hop a b. inv_ok. simpl.
    rewrite dict_get_set. destruct (eq_dec d b); subst.
    - rewrite Ha0. rewrite dict_get_pop. destruct (eq_dec o a); auto.
    - destruct (eq_dec o a); auto.
  Qed.

Lemma remove_edge_ok g o d g' : Graph_ok g -> remove_edge g o d = Ok g' -> Graph_ok g'.
  Proof.
    intros (Ho & Hi & Hm) Hop.
    pose proof (nodes_remove_edge Hop) as Hn.
    pose proof (keys_in_remove_edge Hop) as Hk'.
    pose proof (out_label_remove_edge Hop) as Hlo.
    pose proof (in_label_remove_edge Hop) as Hli.
    unfold remove_edge in Hop. inv_ok. split; [|split]; simpl.
    - apply index_ok_set; auto. apply dict_ok_pop. exact (index_ok_get _ _ _ Ho Ha).
    - apply index_ok_set; auto. apply dict_ok_pop. exact (index_ok_get _ _ _ Hi Ha0).
    - apply mirror_labels in Hm. destruct Hm as [Hk Hl]. apply mirror_labels. split.
      + intros m. unfold nodes in Hn. simpl in *. rewrite Hn, Hk'. apply Hk.
      + intros x y. rewrite Hlo, Hli, Hl. reflexivity.
  Qed.
End GraphFacts.

(** *** [remove_node] *)

Section RemoveNode.
Context {N E : Type} `{EqDec N}.
Implicit Types (g : Graph N E) (index : dict N (dict N E)).

Lemma dict_pop_pop (d : dict N E) n : dict_pop (dict_pop d n) n = dict_pop d n.
  Proof. apply dict_pop_absent. rewrite In_keys_pop. tauto. Qed.

  (** The loop [for other in ks: index[other].pop(node, None)]. *)
Lemma for_each_pop_in node ks : forall index index',
    for_each (pop_in node) ks index = Ok index' ->
    dict_keys index' = dict_keys index /\
    (forall k, In k ks -> In k (dict_keys index)) /\
    (forall k, dict_get index' k =
               match dict_get index k with
               | Some edges => Some (if mem k ks then dict_pop edges node else edges)
               | None => None
               end) /\
    (index_ok index -> index_ok index').
  Proof.
    induction ks as [|k ks IH]; simpl; intros index index' Hrun.
    - inv_ok. split; [|split; [|split]]; auto; try tauto.
      intros k. destruct (dict_get index' k); auto.
    - inv_ok. unfold pop_in in Ha. inv_ok.
      destruct (IH _ _ Hrun) as (Hk & Hin & Hget & Hok). clear IH.
      assert (Hk0 : In k (dict_keys index)) by (apply dict_get_In_keys; eauto).
      rewrite dict_keys_set_in in Hk by auto.
      split; [|split; [|split]]; auto.
      + intros x [<-|Hx]; auto. apply Hin in Hx. now rewrite dict_keys_set_in in Hx.
      + intros x. rewrite Hget, dict_get_set. destruct (eq_dec k x) as [<-|Hne].
        * rewrite Ha0. f_equal.
          replace (mem k (k :: ks)) with true
            by (symmetry; apply mem_true; simpl; auto).
          destruct (mem k ks); auto using dict_pop_pop.
        * destruct (dict_get index x); auto. f_equal.
          replace (mem x (k :: ks)) with (mem x ks); auto.
          destruct (mem x ks) eqn:Hm.
          -- symmetry. apply mem_true. right. now apply mem_true.
          -- symmetry. apply mem_false. apply mem_false in Hm. simpl. intuition.
      + intros Hix. apply Hok. apply index_ok_set; auto.
        apply dict_ok_pop. eapply index_ok_get; eauto.
  Qed.

Lemma for_each_pop_in_Ok node ks : forall index,
    (forall k, In k ks -> In k (dict_keys index)) ->
    exists index', for_each (pop_in node) ks index = Ok index'.
  Proof.
    induction ks as [|k ks IH]; simpl; intros index Hin; eauto.
    destruct (proj1 (dict_get_In_keys index k) (Hin k (or_introl eq_refl))) as [e He].
    unfold pop_in at 1. rewrite He. simpl. apply IH.
    intros x Hx. rewrite dict_keys_set_in; [auto | apply dict_get_In_keys; eauto].
  Qed.

  (** Under the invariant [remove_node] raises only for an absent node, at
      its first line. *)
Lemma remove_node_Ok g node :
    mirror g -> In node (nodes g) -> exists g', remove_node g node = Ok g'.
  Proof.
    intros Hm Hn. pose proof Hm as Hm'. apply mirror_labels in Hm'. destruct Hm' as [Hk Hl].
    unfold remove_node.
    destruct (proj1 (dict_get_In_keys _ _) Hn) as [oe Hoe].
    destruct (proj1 (dict_get_In_keys _ _) (proj1 (Hk node) Hn)) as [ie Hie].
    rewrite Hoe, Hie. simpl.
    destruct (for_each_pop_in_Ok node (dict_keys oe) (_in_edges g)) as [ins Hins].
    { intros d Hd. apply dict_get_In_keys in Hd. destruct Hd as [l Hd].
      assert (Ho : out_label g node d = Some l) by (unfold out_label; now rewrite Hoe).
      rewrite Hl in Ho. eapply in_label_node; eauto. }
    destruct (for_each_pop_in_Ok node (dict_keys ie) (_out_edges g)) as [outs Houts].
    { intros o Ho. apply dict_get_In_keys in Ho. destruct Ho as [l Ho].
      assert (Hi : in_label g o node = Some l) by (unfold in_label; now rewrite Hie).
      rewrite <- Hl in Hi. eapply out_label_node; eauto. }
    rewrite Hins, Houts. simpl.
    destruct (for_each_pop_in _ _ _ _ Hins) as (Hki & _ & _ & _).
    destruct (for_each_pop_in _ _ _ _ Houts) as (Hko & _ & _ & _).
    assert (Ho' : In node (dict_keys outs)) by (rewrite Hko; exact Hn).
    assert (Hi' : In node (dict_keys ins)) by (rewrite Hki; apply Hk; exact Hn).
    apply dict_get_In_keys in Ho', Hi'. destruct Ho' as [? ->], Hi' as [? ->].
    simpl. eauto.
  Qed.

Lemma remove_node_absent g node :
    ~ In node (nodes g) -> remove_node g node = Raise KeyError.
  Proof.
    intros Hn. unfold remove_node. apply dict_get_None in Hn. now rewrite Hn.
  Qed.

Lemma remove_node_spec [g node g'] :
    mirror g -> remove_node g node = Ok g' ->
    nodes g' = remove eq_dec node (nodes g) /\
    dict_keys (_in_edges g') = remove eq_dec node (dict_keys (_in_edges g)) /\
    (forall a, dict_get (_out_edges g') a =
               if eq_dec node a then None
               else option_map (fun edges => dict_pop edges node)
                               (dict_get (_out_edges g) a)) /\
    (forall a, dict_get (_in_edges g') a =
               if eq_dec node a then None
               else option_map (fun edges => dict_pop edges node)
                               (dict_get (_in_edges g) a)).
  Proof.
    intros Hm Hrun. apply mirror_labels in Hm. destruct Hm as [Hk Hl].
    unfold remove_node in Hrun. inv_ok. rename a into oe, a0 into ie, a1 into ins, a2 into outs.
    destruct (for_each_pop_in _ _ _ _ Ha1) as (Hki & _ & Hgi & _).
    destruct (for_each_pop_in _ _ _ _ Ha2) as (Hko & _ & Hgo & _).
    unfold nodes. simpl. rewrite !dict_keys_pop, Hki, Hko.
    repeat split; auto.
    - intros x. rewrite dict_get_pop. destruct (eq_dec node x); auto.
      rewrite Hgo. destruct (dict_get (_out_edges g) x) as [e|] eqn:Hx; auto.
      simpl. f_equal. destruct (mem x (dict_keys ie)) eqn:Hmem; auto.
      symmetry. apply dict_pop_absent. apply dict_get_None.
      apply mem_false in Hmem. apply dict_get_None in Hmem.
      specialize (Hl x node). unfold out_label, in_label in Hl.
      rewrite Hx, Ha0, Hmem in Hl. exact Hl.
    - intros x. rewrite dict_get_pop. destruct (eq_dec node x); auto.
      rewrite Hgi. destruct (dict_get (_in_edges g) x) as [e|] eqn:Hx; auto.
      simpl. f_equal. destruct (mem x (dict_keys oe)) eqn:Hmem; auto.
      symmetry. apply dict_pop_absent. apply dict_get_None.
      apply mem_false in Hmem. apply dict_get_None in Hmem.
      specialize (Hl node x). unfold out_label, in_label in Hl.
      rewrite Hx, Ha, Hmem in Hl. symmetry. exact Hl.
  Qed.

Lemma out_label_remove_node [g node g'] :
    mirror g -> remove_node g node = Ok g' -> forall a b,
    out_label g' a b =
    if eq_dec node a then None else if eq_dec node b then None else out_label g a b.
  Proof.
    intros Hm Hrun a b. destruct (remove_node_spec Hm Hrun) as (_ & _ & Ho & _).
    unfold out_label. rewrite Ho. destruct (eq_dec node a); auto.
    destruct (dict_get (_out_edges g) a); simpl.
    - apply dict_get_pop.
    - destruct (eq_dec node b); auto.
  Qed.

Lemma in_label_remove_node [g node g'] :
    mirror g -> remove_node g node = Ok g' -> forall a b,
    in_label g' a b =
    if eq_dec node a then None else if eq_dec node b then None else in_label g a b.
  Proof.
    intros Hm Hrun a b. destruct (remove_node_spec Hm Hrun) as (_ & _ & _ & Hi).
    unfold in_label. rewrite Hi. destruct (eq_dec node b).
    - destruct (eq_dec node a); auto.
    - destruct (dict_get (_in_edges g) b); simpl.
      + apply dict_get_pop.
      + destruct (eq_dec node a); auto.
  Qed.

Lemma remove_node_ok [g node g'] :
    Graph_ok g -> remove_node g node = Ok g' -> Graph_ok g'.
  Proof.
    intros (Hio & Hii & Hm) Hrun.
    pose proof (out_label_remove_node Hm Hrun) as Hlo.
    pose proof (in_label_remove_node Hm Hrun) as Hli.
    destruct (remove_node_spec Hm Hrun) as (Hn & Hk' & _ & _).
    pose proof Hm as Hm'. apply mirror_labels in Hm'. destruct Hm' as [Hk Hl].
    unfold remove_node in Hrun. inv_ok.
    destruct (for_each_pop_in _ _ _ _ Ha1) as (_ & _ & _ & Hoki).
    destruct (for_each_pop_in _ _ _ _ Ha2) as (_ & _ & _ & Hoko).
    split; [|split]; simpl.
    - apply index_ok_pop; auto.
    - apply index_ok_pop; auto.
    - apply mirror_labels. split.
      + intros m. unfold nodes in Hn. simpl in *. rewrite Hn, Hk', !In_remove_iff, Hk. tauto.
      + intros x y. rewrite Hlo, Hli, Hl. reflexivity.
  Qed.

Lemma remove_node_unmentioned [g node g'] :
    Graph_ok g -> remove_node g node = Ok g' -> unmentioned node g'.
  Proof.
    intros Hg Hrun. pose proof (remove_node_ok Hg Hrun) as (Hio' & Hii' & _).
    destruct Hg as (_ & _ & Hm).
    destruct (remove_node_spec Hm Hrun) as (Hn & Hk & Ho & Hi).
    unfold nodes in Hn. unfold unmentioned. rewrite Hn, Hk, !In_remove_iff.
    repeat split; try tauto.
    - intros m edges Hin. apply In_dict_get in Hin; [|apply Hio'].
      rewrite Ho in Hin. destruct (eq_dec node m); [discriminate|].
      destruct (dict_get (_out_edges g) m); inversion Hin. rewrite In_keys_pop. tauto.
    - intros m edges Hin. apply In_dict_get in Hin; [|apply Hii'].
      rewrite Hi in Hin. destruct (eq_dec node m); [discriminate|].
      destruct (dict_get (_in_edges g) m); inversion Hin. rewrite In_keys_pop. tauto.
  Qed.
End RemoveNode.

(** *** [update] and [copy] *)

Section Update.
Context {N E : Type} `{EqDec N}.
Implicit Types (g self other : Graph N E) (index : dict N (dict N E)).

Lemma update_node_spec [other self node g'] :
    index_ok (_out_edges other) -> index_ok (_in_edges other) ->
    update_node other self node = Ok g' ->
    (forall x, In x (nodes g') <-> x = node \/ In x (nodes self)) /\
    (forall x, In x (dict_keys (_in_edges g')) <->
               x = node \/ In x (dict_keys (_in_edges self))) /\
    (forall a b, out_label g' a b =
                 if eq_dec node a
                 then merged (out_label other a b) (out_label self a b)
                 else out_label self a b) /\
    (forall a b, in_label g' a b =
                 if eq_dec node b
                 then merged (in_label other a b) (in_label self a b)
                 else in_label self a b) /\
    (index_ok (_out_edges self) -> index_ok (_out_edges g')) /\
    (index_ok (_in_edges self) -> index_ok (_in_edges g')).
  Proof.
    intros Hoo Hoi Hrun. unfold update_node in Hrun. inv_ok.
    rename a into mo, a0 into to, a1 into mi, a2 into ti.
    simpl in Ha, Ha1. rewrite dict_get_setdefault in Ha, Ha1.
    unfold nodes. simpl.
    split; [|split; [|split; [|split; [|split]]]].
    - intros x. rewrite In_keys_set, In_keys_setdefault. tauto.
    - intros x. rewrite In_keys_set, In_keys_setdefault. tauto.
    - intros x y. unfold out_label at 1. simpl. rewrite dict_get_set.
      destruct (eq_dec node x) as [<-|Hne].
      + rewrite dict_get_update by (exact (index_ok_get _ _ _ Hoo Ha0)).
        unfold out_label. rewrite Ha0. unfold merged.
        destruct (dict_get to y); auto.
        destruct (dict_get (_out_edges self) node); [congruence|].
        destruct (eq_dec node node); [|congruence]. inversion Ha. reflexivity.
      + rewrite dict_get_setdefault. unfold out_label.
        destruct (dict_get (_out_edges self) x); auto.
        destruct (eq_dec node x); congruence.
    - intros x y. unfold in_label at 1. simpl. rewrite dict_get_set.
      destruct (eq_dec node y) as [<-|Hne].
      + rewrite dict_get_update by (exact (index_ok_get _ _ _ Hoi Ha2)).
        unfold in_label. rewrite Ha2. unfold merged.
        destruct (dict_get ti x); auto.
        destruct (dict_get (_in_edges self) node); [congruence|].
        destruct (eq_dec node node); [|congruence]. inversion Ha1. reflexivity.
      + rewrite dict_get_setdefault. unfold in_label.
        destruct (dict_get (_in_edges self) y); auto.
        destruct (eq_dec node y); congruence.
    - intros Hs. apply index_ok_set.
      + apply index_ok_setdefault; auto. constructor.
      + apply dict_ok_update.
        destruct (dict_get (_out_edges self) node) eqn:Hg.
        * inversion Ha; subst. exact (index_ok_get _ _ _ Hs Hg).
        * destruct (eq_dec node node); inversion Ha. constructor.
    - intros Hs. apply index_ok_set.
      + apply index_ok_setdefault; auto. constructor.
      + apply dict_ok_update.
        destruct (dict_get (_in_edges self) node) eqn:Hg.
        * inversion Ha1; subst. exact (index_ok_get _ _ _ Hs Hg).
        * destruct (eq_dec node node); inversion Ha1. constructor.
  Qed.

Lemma update_node_Ok other self node :
    In node (nodes other) -> In node (dict_keys (_in_edges other)) ->
    exists g', update_node other self node = Ok g'.
  Proof.
    intros Ho Hi. apply dict_get_In_keys in Ho, Hi. destruct Ho as [to Hto], Hi as [ti Hti].
    unfold update_node. simpl. rewrite !dict_get_setdefault, Hto, Hti.
    destruct (dict_get (_out_edges self) node), (dict_get (_in_edges self) node);
      simpl; destruct (eq_dec node node); try congruence; simpl; eauto.
  Qed.

  (** A node that is new to [self] goes last in both indices. *)
Lemma update_node_new [other self node g'] :
    update_node other self node = Ok g' ->
    ~ In node (nodes self) -> ~ In node (dict_keys (_in_edges self)) ->
    nodes g' = nodes self ++ [node] /\
    dict_keys (_in_edges g') = dict_keys (_in_edges self) ++ [node].
  Proof.
    intros Hrun Ho Hi. unfold update_node in Hrun. inv_ok. unfold nodes in *. simpl.
    rewrite !dict_keys_set_in by (apply In_keys_setdefault; auto).
    rewrite !dict_setdefault_absent by auto.
    unfold dict_keys. rewrite !map_app. auto.
  Qed.

Lemma update_loop_spec other (Hoo : index_ok (_out_edges other))
    (Hoi : index_ok (_in_edges other)) ns : forall self g',
    for_each (update_node other) ns self = Ok g' ->
    (forall x, In x (nodes g') <-> In x ns \/ In x (nodes self)) /\
    (forall x, In x (dict_keys (_in_edges g')) <->
               In x ns \/ In x (dict_keys (_in_edges self))) /\
    (forall a b, out_label g' a b =
                 if mem a ns
                 then merged (out_label other a b) (out_label self a b)
                 else out_label self a b) /\
    (forall a b, in_label g' a b =
                 if mem b ns
                 then merged (in_label other a b) (in_label self a b)
                 else in_label self a b) /\
    (index_ok (_out_edges self) -> index_ok (_out_edges g')) /\
    (index_ok (_in_edges self) -> index_ok (_in_edges g')).
  Proof.
    induction ns as [|n ns IH]; simpl; intros self g' Hrun.
    - inv_ok. split; [|split; [|split; [|split; [|split]]]]; auto; tauto.
    - inv_ok. rename a into g1.
      destruct (update_node_spec Hoo Hoi Ha) as (Hn1 & Hk1 & Ho1 & Hi1 & Hoko1 & Hoki1).
      destruct (IH _ _ Hrun) as (Hn & Hk & Ho & Hi & Hoko & Hoki). clear IH.
      split; [|split; [|split; [|split; [|split]]]]; auto.
      + intros x. rewrite Hn, Hn1. intuition.
      + intros x. rewrite Hk, Hk1. intuition.
      + intros a b. rewrite Ho, Ho1.
        destruct (eq_dec n a) as [<-|Hne].
        * replace (mem n (n :: ns)) with true by (symmetry; apply mem_true; simpl; auto).
          unfold merged. destruct (mem n ns); auto. destruct (out_label other n b); auto.
        * replace (mem a (n :: ns)) with (mem a ns); auto.
          destruct (mem a ns) eqn:Hm.
          -- symmetry. apply mem_true. right. now apply mem_true.
          -- symmetry. apply mem_false. apply mem_false in Hm. simpl. intuition.
      + intros a b. rewrite Hi, Hi1.
        destruct (eq_dec n b) as [<-|Hne].
        * replace (mem n (n :: ns)) with true by (symmetry; apply mem_true; simpl; auto).
          unfold merged. destruct (mem n ns); auto. destruct (in_label other a n); auto.
        * replace (mem b (n :: ns)) with (mem b ns); auto.
          destruct (mem b ns) eqn:Hm.
          -- symmetry. apply mem_true. right. now apply mem_true.
          -- symmetry. apply mem_false. apply mem_false in Hm. simpl. intuition.
  Qed.

Lemma update_loop_Ok other ns : forall self,
    (forall n, In n ns -> In n (nodes other) /\ In n (dict_keys (_in_edges other))) ->
    exists g', for_each (update_node other) ns self = Ok g'.
  Proof.
    induction ns as [|n ns IH]; simpl; intros self Hns; eauto.
    destruct (update_node_Ok other self n) as [g1 Hg1]; try apply Hns; auto.
    rewrite Hg1. simpl. apply IH. auto.
  Qed.

Lemma update_loop_new other ns : forall self g',
    for_each (update_node other) ns self = Ok g' ->
    NoDup (nodes self ++ ns) -> NoDup (dict_keys (_in_edges self) ++ ns) ->
    nodes g' = nodes self ++ ns /\
    dict_keys (_in_edges g') = dict_keys (_in_edges self) ++ ns.
  Proof.
    induction ns as [|n ns IH]; simpl; intros self g' Hrun Ho Hi.
    - inv_ok. now rewrite !app_nil_r.
    - inv_ok. rename a into g1.
      destruct (update_node_new Ha) as [Hn1 Hk1].
      { apply NoDup_remove_2 in Ho. rewrite in_app_iff in Ho. tauto. }
      { apply NoDup_remove_2 in Hi. rewrite in_app_iff in Hi. tauto. }
      destruct (IH _ _ Hrun) as [Hn Hk].
      { rewrite Hn1, <- app_assoc. exact Ho. }
      { rewrite Hk1, <- app_assoc. exact Hi. }
      rewrite Hn, Hk, Hn1, Hk1, <- !app_assoc. auto.
  Qed.

Lemma out_label_absent g a b : ~ In a (nodes g) -> out_label g a b = None.
  Proof. intros Hn. unfold out_label. apply dict_get_None in Hn. now rewrite Hn. Qed.

Lemma in_label_absent g a b : ~ In b (dict_keys (_in_edges g)) -> in_label g a b = None.
  Proof. intros Hn. unfold in_label. apply dict_get_None in Hn. now rewrite Hn. Qed.

Lemma update_spec [self other g'] :
    Graph_ok other -> update self other = Ok g' ->
    (forall x, In x (nodes g') <-> In x (nodes other) \/ In x (nodes self)) /\
    (forall x, In x (dict_keys (_in_edges g')) <->
               In x (nodes other) \/ In x (dict_keys (_in_edges self))) /\
    (forall a b, out_label g' a b = merged (out_label other a b) (out_label self a b)) /\
    (forall a b, in_label g' a b = merged (in_label other a b) (in_label self a b)) /\
    (index_ok (_out_edges self) -> index_ok (_out_edges g')) /\
    (index_ok (_in_edges self) -> index_ok (_in_edges g')).
  Proof.
    intros (Hoo & Hoi & Hm) Hrun. unfold update in Hrun.
    destruct (update_loop_spec other Hoo Hoi _ _ _ Hrun) as (Hn & Hk & Ho & Hi & Hoko & Hoki).
    split; [|split; [|split; [|split; [|split]]]]; auto.
    - intros a b. rewrite Ho. destruct (mem a (nodes other)) eqn:Hmem; auto.
      apply mem_false in Hmem. now rewrite (out_label_absent other a b).
    - intros a b. rewrite Hi. destruct (mem b (nodes other)) eqn:Hmem; auto.
      apply mem_false in Hmem. rewrite (in_label_absent other a b); auto.
      intros Hin. apply Hmem. apply (mirror_nodes_in other b Hm). exact Hin.
  Qed.

Lemma update_Ok self other : mirror other -> exists g', update self other = Ok g'.
  Proof.
    intros Hm. apply update_loop_Ok. intros n Hn. split; auto.
    now apply (mirror_nodes_in other n Hm).
  Qed.

Lemma update_ok [self other g'] :
    Graph_ok self -> Graph_ok other -> update self other = Ok g' -> Graph_ok g'.
  Proof.
    intros (Hso & Hsi & Hsm) Hother Hrun.
    destruct (update_spec Hother Hrun) as (Hn & Hk & Ho & Hi & Hoko & Hoki).
    destruct Hother as (_ & _ & Hom).
    apply mirror_labels in Hsm, Hom. destruct Hsm as [Hsk Hsl], Hom as [Hok Hol].
    split; [|split]; auto.
    apply mirror_labels. split.
    - intros x. unfold nodes in Hn. rewrite Hn, Hk, Hsk. tauto.
    - intros a b. now rewrite Ho, Hi, Hsl, Hol.
  Qed.

  (** The copy has the nodes of the original in the same order, and the
      same labels. *)
Lemma copy_spec [g c] :
    Graph_ok g -> copy g = Ok c ->
    Graph_ok c /\ nodes c = nodes g /\ dict_keys (_in_edges c) = nodes g /\
    (forall a b, out_label c a b = out_label g a b).
  Proof.
    intros Hg Hrun. unfold copy in Hrun.
    assert (Hnd : NoDup (nodes g)) by apply Hg.
    split; [|split; [|split]].
    - exact (update_ok Graph_init_ok Hg Hrun).
    - apply update_loop_new in Hrun; simpl; auto. apply Hrun.
    - apply update_loop_new in Hrun; simpl; auto. apply Hrun.
    - intros a b. destruct (update_spec Hg Hrun) as (_ & _ & Ho & _).
      rewrite Ho. unfold merged. destruct (out_label g a b); auto.
  Qed.

Lemma copy_Ok g : mirror g -> exists c, copy g = Ok c.
  Proof. apply update_Ok. Qed.
End Update.

(** ** The operations and the invariant *)

Lemma one_edge_ok : Graph_ok one_edge.
Proof.
  apply (add_edge_ok (add_node (add_node Graph_init 1) 2) 1 2 true).
  - apply add_node_ok, add_node_ok, Graph_init_ok.
  - reflexivity.
Qed.

Lemma other_edge_ok : Graph_ok other_edge.
Proof.
  apply (add_edge_ok (add_node (add_node Graph_init 2) 3) 2 3 false).
  - apply add_node_ok, add_node_ok, Graph_init_ok.
  - reflexivity.
Qed.

Lemma self_loop_ok : Graph_ok self_loop.
Proof.
  apply (add_edge_ok
           (mkGraph [(1, [(1, true); (2, true)]); (2, [])]
                    [(1, [(1, true)]); (2, [(1, true)])]) 2 1 true); [|reflexivity].
  apply (add_edge_ok
           (mkGraph [(1, [(1, true)]); (2, [])] [(1, [(1, true)]); (2, [])])
           1 2 true); [|reflexivity].
  apply (add_edge_ok (add_node (add_node Graph_init 1) 2) 1 1 true); [|reflexivity].
  apply add_node_ok, add_node_ok, Graph_init_ok.
Qed.

Section Operations.
Context {N E : Type} `{EqDec N}.

  (** C5.  Every operation of the graph keeps the two indices mirrored: when
      the graph (and, for [update], the other graph) has the same keys in
      both indices and the same labelled edges in both, so has the graph
      the operation leaves, for [add_node], [add_edge], [remove_node],
      [remove_edge], [update] and [copy]. *)
Theorem operations_preserve_mirror (g other : Graph N E) :
    Graph_ok g -> Graph_ok other ->
    (forall node, mirror (add_node g node)) /\
    (forall origin destination e g',
        add_edge g origin destination e = Ok g' -> mirror g') /\
    (forall node g', remove_node g node = Ok g' -> mirror g') /\
    (forall origin destination g',
        remove_edge g origin destination = Ok g' -> mirror g') /\
    (forall g', update g other = Ok g' -> mirror g') /\
    (forall c, copy g = Ok c -> mirror c).
  Proof.
    intros Hg Hother. split; [|split; [|split; [|split; [|split]]]].
    - intros node. apply (add_node_ok g node Hg).
    - intros o d e g' Hrun. apply (add_edge_ok _ _ _ _ _ Hg Hrun).
    - intros node g' Hrun. apply (remove_node_ok Hg Hrun).
    - intros o d g' Hrun. apply (remove_edge_ok _ _ _ _ Hg Hrun).
    - intros g' Hrun. apply (update_ok Hg Hother Hrun).
    - intros c Hrun. apply (copy_spec Hg Hrun).
  Qed.

  (** C9.  Removing a node that has an edge to itself does not raise, and
      leaves no entry that mentions the node: it is a key of neither index
      and in no dictionary of successors or predecessors. *)
Theorem remove_node_self_reference (g : Graph N E) (n : N) :
    Graph_ok g -> has_edge g n n = true ->
    exists g', remove_node g n = Ok g' /\ unmentioned n g'.
  Proof.
    intros Hg He.
    destruct (remove_node_Ok g n) as [g' Hrun].
    - apply Hg.
    - apply (edge_nodes g n n); [apply Hg | exact He].
    - exists g'. split; auto. exact (remove_node_unmentioned Hg Hrun).
  Qed.
End Operations.

Lemma operations_preserve_mirror_witness :
  Graph_ok one_edge /\ Graph_ok other_edge /\
  mirror (add_node one_edge 3) /\
  mirror (mkGraph [(1, [(2, true)]); (2, [(1, false)])]
                  [(1, [(2, false)]); (2, [(1, true)])]) /\
  mirror (@mkGraph nat bool [(2, [])] [(2, [])]) /\
  mirror (@mkGraph nat bool [(1, []); (2, [])] [(1, []); (2, [])]) /\
  mirror (mkGraph [(1, [(2, true)]); (2, [(3, false)]); (3, [])]
                  [(1, []); (2, [(1, true)]); (3, [(2, false)])]) /\
  mirror one_edge.
Proof.
  pose proof (operations_preserve_mirror one_edge other_edge one_edge_ok other_edge_ok)
    as (Hadd & Hedge & Hnode & Hrem & Hupd & Hcopy).
  split; [exact one_edge_ok|]. split; [exact other_edge_ok|].
  split; [apply Hadd|].
  split; [apply (Hedge 2 1 false); reflexivity|].
  split; [apply (Hnode 1); reflexivity|].
  split; [apply (Hrem 1 2); reflexivity|].
  split; [apply Hupd; reflexivity|].
  apply Hcopy; reflexivity.
Defined.

Lemma remove_node_self_reference_witness :
  Graph_ok self_loop /\ has_edge self_loop 1 1 = true /\
  exists g', remove_node self_loop 1 = Ok g' /\ unmentioned 1 g'.
Proof.
  split; [exact self_loop_ok|]. split; [reflexivity|].
  apply (remove_node_self_reference self_loop 1 self_loop_ok). reflexivity.
Defined.

(** ** The search for a cycle *)

Section SumFacts.
Context {A : Type}.

Lemma list_sum_map_le (f f' : A -> nat) l :
    (forall x, In x l -> f' x <= f x) ->
    list_sum (map f' l) <= list_sum (map f l).
  Proof.
    induction l as [|x l IH]; simpl; intros Hle; auto.
    pose proof (Hle x (or_introl eq_refl)).
    assert (list_sum (map f' l) <= list_sum (map f l)) by (apply IH; auto).
    lia.
  Qed.

Lemma list_sum_map_gap (f f' : A -> nat) l x0 w :
    (forall x, In x l -> f' x <= f x) ->
    In x0 l -> f' x0 + w <= f x0 ->
    list_sum (map f' l) + w <= list_sum (map f l).
  Proof.
    induction l as [|x l IH]; simpl; intros Hle Hin Hgap; [tauto|].
    pose proof (Hle x (or_introl eq_refl)).
    destruct Hin as [->|Hin].
    - assert (list_sum (map f' l) <= list_sum (map f l))
        by (apply list_sum_map_le; auto).
      lia.
    - assert (list_sum (map f' l) + w <= list_sum (map f l)) by (apply IH; auto).
      lia.
  Qed.
End SumFacts.

Section Search.
Context {N E : Type} `{EqDec N}.
Implicit Types (g : Graph N E) (stack : list (frame (N:=N))).

Lemma set_pop_Ok (pick : list N -> nat) (s : list N) y rest :
    set_pop pick s = Ok (y, rest) ->
    In y s /\ rest = remove eq_dec y s /\ length rest < length s.
  Proof.
    unfold set_pop. destruct s as [|x s]; [discriminate|].
    assert (Hin : In (nth (pick (x :: s) mod length (x :: s)) (x :: s) x) (x :: s)).
    { apply nth_In. apply Nat.mod_upper_bound. simpl. lia. }
    remember (nth (pick (x :: s) mod length (x :: s)) (x :: s) x) as y0.
    remember (x :: s) as l.
    intros Hp. injection Hp as <- <-.
    split; [exact Hin|]. split; [reflexivity|].
    now apply remove_length_lt.
  Qed.

Lemma set_pop_cons (pick : list N -> nat) (x : N) s : exists y rest, set_pop pick (x :: s) = Ok (y, rest).
  Proof. unfold set_pop. eauto. Qed.

Lemma successors_Ok g n deps :
    successors g n = Ok deps <->
    exists edges, dict_get (_out_edges g) n = Some edges /\ deps = dict_keys edges.
  Proof.
    unfold successors. destruct (dict_get (_out_edges g) n); simpl; split.
    - intros Hs. inversion Hs. eauto.
    - intros (e & He & ->). inversion He. reflexivity.
    - discriminate.
    - intros (e & He & _). discriminate.
  Qed.

Lemma successors_node g n : In n (nodes g) -> exists deps, successors g n = Ok deps.
  Proof.
    intros Hn. apply dict_get_In_keys in Hn. destruct Hn as [e He].
    exists (dict_keys e). apply successors_Ok. eauto.
  Qed.

Lemma successors_has_edge g n deps d :
    successors g n = Ok deps -> (In d deps <-> has_edge g n d = true).
  Proof.
    intros Hs. apply successors_Ok in Hs. destruct Hs as (e & He & ->).
    unfold has_edge. rewrite He. symmetry. apply dict_contains_true.
  Qed.

Lemma predecessors_Ok g n preds :
    predecessors g n = Ok preds <->
    exists edges, dict_get (_in_edges g) n = Some edges /\ preds = dict_keys edges.
  Proof.
    unfold predecessors. destruct (dict_get (_in_edges g) n); simpl; split.
    - intros Hs. inversion Hs. eauto.
    - intros (e & He & ->). inversion He. reflexivity.
    - discriminate.
    - intros (e & He & _). discriminate.
  Qed.

Lemma predecessors_has_edge g n preds p :
    mirror g -> predecessors g n = Ok preds -> (In p preds <-> has_edge g p n = true).
  Proof.
    intros Hm Hs. apply predecessors_Ok in Hs. destruct Hs as (e & He & ->).
    apply mirror_labels in Hm. destruct Hm as [_ Hl].
    rewrite has_edge_label, Hl. unfold in_label. rewrite He. apply dict_get_In_keys.
  Qed.

  (** *** The reconstructed cycle *)

Lemma unwind_above dependency : forall stack cycle,
    In dependency (map fst stack) ->
    unwind dependency stack cycle = Ok (cycle ++ above dependency stack).
  Proof.
    induction stack as [|[n deps] stack IH]; simpl; intros cycle Hin; [tauto|].
    destruct (eq_dec n dependency).
    - now rewrite app_nil_r.
    - rewrite IH by (destruct Hin; [congruence|auto]).
      now rewrite <- app_assoc.
  Qed.

Lemma In_above dependency stack x :
    In x (above dependency stack) -> In x (map fst stack) /\ x <> dependency.
  Proof.
    induction stack as [|[n deps] stack IH]; simpl; [tauto|].
    destruct (eq_dec n dependency); simpl; [tauto|].
    intros [<-|Hin]; auto. destruct (IH Hin). auto.
  Qed.

Lemma NoDup_above dependency stack :
    NoDup (map fst stack) -> NoDup (above dependency stack).
  Proof.
    induction stack as [|[n deps] stack IH]; simpl; intros Hnd; [constructor|].
    inversion Hnd; subst. destruct (eq_dec n dependency); constructor; auto.
    intros Hin. apply In_above in Hin. tauto.
  Qed.

  (** The suffix of the stack is the successor followed by the frames above
      it, bottom first. *)
Lemma down_to_above dependency stack :
    In dependency (map fst stack) ->
    down_to dependency stack = above dependency stack ++ [dependency].
  Proof.
    induction stack as [|[n deps] stack IH]; simpl; [tauto|].
    destruct (eq_dec n dependency) as [->|Hne]; auto.
    intros [?|Hin]; [congruence|]. now rewrite IH.
  Qed.

Lemma stack_suffix_above dependency stack :
    In dependency (map fst stack) ->
    stack_suffix dependency stack = dependency :: rev (above dependency stack).
  Proof.
    intros Hin. unfold stack_suffix. rewrite down_to_above by auto.
    now rewrite rev_app_distr.
  Qed.

Lemma above_successors g dependency : forall stack s (M : list N),
    chained g stack -> In dependency (map fst stack) ->
    (forall t deps below, stack = (t, deps) :: below -> has_edge g t s = true) ->
    In s M -> incl (above dependency stack) M ->
    forall x, In x (dependency :: above dependency stack) ->
              exists y, In y M /\ has_edge g x y = true.
  Proof.
    induction stack as [|[t deps] below IH]; simpl; intros s M Hch Hin Htop Hs Hincl x Hx;
      [tauto|].
    destruct (eq_dec t dependency) as [->|Hne].
    - destruct Hx as [<-|[]]. exists s. split; auto. eapply Htop; eauto.
    - destruct Hin as [?|Hin]; [congruence|].
      assert (Ht : In t M) by (apply Hincl; simpl; auto).
      destruct Hx as [<-|[<-|Hx]].
      + apply (IH t M); simpl; auto; try tauto.
        * intros t' deps' below' ->. apply Hch.
        * intros y Hy. apply Hincl. simpl. auto.
      + exists s. split; auto. eapply Htop; eauto.
      + apply (IH t M); simpl; auto; try tauto.
        * intros t' deps' below' ->. apply Hch.
        * intros y Hy. apply Hincl. simpl. auto.
  Qed.

Lemma unwind_closed_cycle g in_stack top rest below dependency :
    dfs_inv g in_stack ((top, rest) :: below) ->
    has_edge g top dependency = true ->
    In dependency in_stack ->
    exists cycle,
      unwind dependency ((top, rest) :: below) [dependency] = Ok cycle /\
      cycle = dependency :: above dependency ((top, rest) :: below) /\
      closed_cycle g cycle.
  Proof.
    intros (Hnd & Hset & Hch & Hfr) He Hin.
    apply Hset in Hin.
    exists (dependency :: above dependency ((top, rest) :: below)).
    split; [now rewrite unwind_above|]. split; [reflexivity|].
    split; [discriminate|]. split; [|split].
    - constructor.
      + intros Hx. apply In_above in Hx. tauto.
      + now apply NoDup_above.
    - intros x [<-|Hx].
      + apply in_map_iff in Hin. destruct Hin as ([n deps] & <- & Hf).
        now apply (Hfr n deps).
      + apply In_above in Hx. destruct Hx as [Hx _].
        apply in_map_iff in Hx. destruct Hx as ([n deps] & <- & Hf).
        now apply (Hfr n deps).
    - apply (above_successors g dependency ((top, rest) :: below) dependency); auto.
      + intros t deps b Heq. inversion Heq; subst. exact He.
      + simpl; auto.
      + intros y Hy. simpl. auto.
  Qed.
End Search.

Section SearchLoop.
Context {N E : Type} `{EqDec N}.
Variable pick : list N -> nat.
Implicit Types (g : Graph N E) (stack : list (frame (N:=N))).

Lemma dfs_leave fuel g processed in_stack top below :
    dfs pick (S fuel) g processed in_stack ((top, []) :: below) =
    if mem top in_stack
    then dfs pick fuel g (set_add top processed) (remove eq_dec top in_stack) below
    else Raise KeyError.
  Proof. reflexivity. Qed.

Lemma dfs_draw fuel g processed in_stack top d ds below dependency rest :
    set_pop pick (d :: ds) = Ok (dependency, rest) ->
    dfs pick (S fuel) g processed in_stack ((top, d :: ds) :: below) =
    if mem dependency in_stack then
      cycle <- unwind dependency ((top, rest) :: below) [dependency] ;;
      Ok (Cycle cycle)
    else if mem dependency processed then
      dfs pick fuel g processed in_stack ((top, rest) :: below)
    else
      dependencies <- successors g dependency ;;
      dfs pick fuel g processed (set_add dependency in_stack)
          ((dependency, dependencies) :: (top, rest) :: below).
  Proof. intros Hp. cbn [dfs]. rewrite Hp. reflexivity. Qed.

Lemma frames_weight_cons top deps stack :
    frames_weight ((top, deps) :: stack) = S (length deps) + frames_weight stack.
  Proof. reflexivity. Qed.

Lemma unpushed_weight_leave g processed in_stack top :
    In top in_stack ->
    unpushed_weight g (set_add top processed) (remove eq_dec top in_stack)
    <= unpushed_weight g processed in_stack.
  Proof.
    intros Htop. apply list_sum_map_le. intros [n e] _. simpl.
    destruct (mem n processed || mem n in_stack) eqn:Hb; [|match goal with |- (if ?b then _ else _) <= _ => destruct b end; lia].
    replace (mem n (set_add top processed) || mem n (remove eq_dec top in_stack))
      with true; auto.
    symmetry. apply orb_true_iff. rewrite !mem_true, In_set_add, In_remove_iff.
    apply orb_true_iff in Hb. rewrite !mem_true in Hb.
    destruct (eq_dec n top); tauto.
  Qed.

Lemma unpushed_weight_push g processed in_stack dependency edges :
    dict_get (_out_edges g) dependency = Some edges ->
    ~ In dependency processed -> ~ In dependency in_stack ->
    unpushed_weight g processed (set_add dependency in_stack) + (2 + length edges)
    <= unpushed_weight g processed in_stack.
  Proof.
    intros Hg Hp Hs. apply list_sum_map_gap with (x0 := (dependency, edges)).
    - intros [n e] _. simpl.
      destruct (mem n processed || mem n in_stack) eqn:Hb; [|match goal with |- (if ?b then _ else _) <= _ => destruct b end; lia].
      replace (mem n processed || mem n (set_add dependency in_stack)) with true; auto.
      symmetry. apply orb_true_iff. rewrite !mem_true, In_set_add.
      apply orb_true_iff in Hb. rewrite !mem_true in Hb. tauto.
    - now apply dict_get_Some_In.
    - simpl. apply mem_false in Hp, Hs. rewrite Hp, Hs. simpl.
      replace (mem dependency (set_add dependency in_stack)) with true; [lia|].
      symmetry. apply mem_true, In_set_add. auto.
  Qed.

Lemma unpushed_weight_root g processed root edges :
    dict_get (_out_edges g) root = Some edges ->
    unpushed_weight g processed [root] + (2 + length edges)
    <= 2 * length (nodes g) + edge_count g.
  Proof.
    intros Hg.
    assert (Htot : list_sum (map (fun entry : N * dict N E => 2 + length (snd entry))
                                 (_out_edges g))
                   = 2 * length (nodes g) + edge_count g).
    { unfold nodes, edge_count, dict_keys. clear Hg.
      generalize (_out_edges g). intros l.
      induction l as [|[n e] l IH]; simpl in *; auto. lia. }
    rewrite <- Htot. apply list_sum_map_gap with (x0 := (root, edges)).
    - intros [n e] _. simpl. destruct (mem n processed || mem n [root]); lia.
    - now apply dict_get_Some_In.
    - simpl. replace (mem root [root]) with true; [|symmetry; apply mem_true; simpl; auto].
      rewrite orb_true_r. lia.
  Qed.

  (** The loop ends within its bound, raises nothing, and what it reports
      is a cycle. *)
Lemma dfs_spec g (Hm : mirror g) : forall fuel processed in_stack stack,
    dfs_inv g in_stack stack ->
    frames_weight stack + unpushed_weight g processed in_stack < fuel ->
    exists r, dfs pick fuel g processed in_stack stack = Ok r /\
              match r with
              | Cycle cycle => closed_cycle g cycle
              | Exhausted _ => True
              end.
  Proof.
    induction fuel as [|fuel IH]; intros processed in_stack stack Hinv Hw; [lia|].
    destruct stack as [|[top deps] below].
    - simpl. eexists; split; [reflexivity|exact I].
    - pose proof Hinv as (Hnd & Hset & Hch & Hfr).
      rewrite frames_weight_cons in Hw.
      destruct deps as [|d ds].
      + rewrite dfs_leave.
        assert (Htop : In top in_stack) by (apply Hset; simpl; auto).
        replace (mem top in_stack) with true by (symmetry; now apply mem_true).
        apply IH.
        * inversion Hnd; subst. split; [|split; [|split]]; auto.
          -- intros x. rewrite In_remove_iff, Hset. simpl. split.
             ++ intros [[?|?] ?]; [congruence|auto].
             ++ intros Hx. split; auto. intros ->. auto.
          -- apply Hch.
          -- intros n deps Hin. apply Hfr. right; auto.
        * pose proof (unpushed_weight_leave g processed in_stack top Htop).
          simpl in Hw. lia.
      + destruct (set_pop_cons pick d ds) as (dep & rest & Hpop).
        destruct (set_pop_Ok pick _ _ _ Hpop) as (Hdep & Hrest & Hlen).
        rewrite (dfs_draw _ _ _ _ _ _ _ _ _ _ Hpop).
        assert (He : has_edge g top dep = true).
        { apply (Hfr top (d :: ds)); simpl; auto. }
        assert (Hinv' : dfs_inv g in_stack ((top, rest) :: below)).
        { split; [|split; [|split]]; auto.
          intros n deps [Heq|Hin].
          - inversion Heq; subst. split.
            + apply (Hfr n (d :: ds)). simpl; auto.
            + intros x Hx. apply In_remove_iff in Hx.
              apply (Hfr n (d :: ds)); simpl; tauto.
          - apply Hfr. right; auto. }
        destruct (mem dep in_stack) eqn:Hin_stack.
        * apply mem_true in Hin_stack.
          destruct (unwind_closed_cycle g in_stack top rest below dep Hinv' He Hin_stack)
            as (cycle & Hun & _ & Hcyc).
          rewrite Hun. simpl. eexists; split; [reflexivity|exact Hcyc].
        * apply mem_false in Hin_stack.
          destruct (mem dep processed) eqn:Hproc.
          -- apply IH; auto. rewrite frames_weight_cons. simpl in Hw, Hlen. lia.
          -- apply mem_false in Hproc.
             destruct (edge_nodes g top dep Hm He) as [_ Hnode].
             destruct (successors_node g dep Hnode) as [deps' Hs].
             rewrite Hs. simpl.
             pose proof Hs as Hs'. apply successors_Ok in Hs'.
             destruct Hs' as (edges & Hedges & ->).
             apply IH.
             ++ split; [|split; [|split]].
                ** simpl. constructor; auto. intros Hx. apply Hin_stack, Hset. exact Hx.
                ** intros x. rewrite In_set_add, Hset. simpl. intuition.
                ** simpl. split; auto.
                ** intros n deps [Heq|Hin].
                   --- inversion Heq; subst. split; auto.
                       intros x Hx. now apply (successors_has_edge g n _ x Hs).
                   --- now apply Hinv'.
             ++ pose proof (unpushed_weight_push g processed in_stack dep edges
                              Hedges Hproc Hin_stack).
                rewrite !frames_weight_cons. unfold dict_keys. rewrite length_map.
                simpl in Hw, Hlen. lia.
  Qed.

Lemma search_from_spec g (Hm : mirror g) : forall roots processed,
    incl roots (nodes g) ->
    exists r, search_from pick (dfs_bound g) g roots processed = Ok r /\
              forall cycle, r = Some cycle -> closed_cycle g cycle.
  Proof.
    induction roots as [|root roots IH]; intros processed Hroots; cbn [search_from].
    - eexists; split; [reflexivity|]. discriminate.
    - assert (Hroot : In root (nodes g)) by (apply Hroots; simpl; auto).
      assert (Hrest : incl roots (nodes g)) by (intros x Hx; apply Hroots; simpl; auto).
      destruct (mem root processed); [apply IH; auto|].
      destruct (successors_node g root Hroot) as [deps Hs]. rewrite Hs. cbn [bind].
      pose proof Hs as Hs'. apply successors_Ok in Hs'.
      destruct Hs' as (edges & Hedges & ->).
      destruct (dfs_spec g Hm (dfs_bound g) processed [root] [(root, dict_keys edges)])
        as (r & Hr & Hprop).
      + split; [|split; [|split]]; simpl.
        * constructor; [tauto|constructor].
        * tauto.
        * tauto.
        * intros n deps [Heq|[]]. inversion Heq; subst. split; auto.
          intros x Hx. now apply (successors_has_edge g n _ x Hs).
      + pose proof (unpushed_weight_root g processed root edges Hedges).
        unfold dfs_bound. rewrite frames_weight_cons.
        unfold frames_weight. cbn [map list_sum fold_right].
        unfold dict_keys at 1. rewrite length_map. lia.
      + rewrite Hr. cbn [bind]. destruct r as [cycle|processed'].
        * eexists; split; [reflexivity|]. intros c Hc. inversion Hc; subst. exact Hprop.
        * apply IH; auto.
  Qed.

Lemma find_cycle_spec g :
    mirror g ->
    exists r, _find_cycle pick g = Ok r /\
              forall cycle, r = Some cycle -> closed_cycle g cycle.
  Proof. intros Hm. apply search_from_spec; auto. apply incl_refl. Qed.
End SearchLoop.

Section ReportedCycle.
Context {N E : Type} `{EqDec N}.
Variable pick : list N -> nat.

  (** C7, as the code has it.  When the search draws a successor that is on
      the stack, it returns the successor followed by the nodes of the frames
      pushed after it, from the top of the stack down.  These are the nodes
      of the suffix of the stack that starts at the frame of the successor;
      after the successor itself they come in the reverse of the order of
      the stack. *)
Theorem find_cycle_reports_from_top (fuel : nat) (g : Graph N E)
    (processed in_stack : list N) (top d : N) (ds : list N)
    (below : list (frame (N:=N))) (dependency : N) (rest : list N) :
    set_pop pick (d :: ds) = Ok (dependency, rest) ->
    In dependency in_stack ->
    In dependency (map fst ((top, rest) :: below)) ->
    dfs pick (S fuel) g processed in_stack ((top, d :: ds) :: below) =
      Ok (Cycle (dependency :: above dependency ((top, rest) :: below))) /\
    stack_suffix dependency ((top, rest) :: below) =
      dependency :: rev (above dependency ((top, rest) :: below)).
  Proof.
    intros Hpop Hset Hstack. split.
    - rewrite (dfs_draw pick _ _ _ _ _ _ _ _ _ _ Hpop).
      replace (mem dependency in_stack) with true by (symmetry; now apply mem_true).
      now rewrite unwind_above.
    - now apply stack_suffix_above.
  Qed.
End ReportedCycle.

Lemma find_cycle_reports_from_top_witness :
  set_pop (fun _ => 0) [1] = Ok (1, []) /\
  In 1 [1; 2; 3] /\
  In 1 (map fst [(3, @nil nat); (2, []); (1, [])]) /\
  dfs (fun _ => 0) 1 three_cycle [] [1; 2; 3] three_frames = Ok (Cycle [1; 3; 2]) /\
  stack_suffix 1 [(3, @nil nat); (2, []); (1, [])] = [1; 2; 3].
Proof.
  split; [reflexivity|]. split; [simpl; tauto|]. split; [simpl; tauto|].
  exact (find_cycle_reports_from_top (fun _ => 0) 0 three_cycle [] [1; 2; 3]
           3 1 [] [(2, []); (1, [])] 1 [] eq_refl
           (or_introl eq_refl) (or_intror (or_intror (or_introl eq_refl)))).
Defined.

(** C7, as the claim has it, fails on the cycle [1 -> 2 -> 3 -> 1]: the
    search has pushed 1, 2 and 3 and draws 1; the suffix of the stack in the
    order of the stack is [1; 2; 3], and the search returns [1; 3; 2]. *)
Lemma find_cycle_stack_order_counterexample :
  _find_cycle (fun _ => 0) three_cycle = Ok (Some [1; 3; 2]) /\
  dfs (fun _ => 0) 1 three_cycle [] [1; 2; 3] three_frames = Ok (Cycle [1; 3; 2]) /\
  stack_suffix 1 three_frames = [1; 2; 3] /\
  [1; 3; 2] <> stack_suffix 1 three_frames.
Proof.
  split; [reflexivity|]. split; [reflexivity|]. split; [reflexivity|].
  simpl. discriminate.
Qed.

(** ** Reading the graph *)

Section Before.
Context {N E : Type} `{EqDec N}.
Implicit Types (l : list N).

Lemma before_app (b a : N) l l' : before b a l -> before b a (l ++ l').
  Proof.
    intros (l1 & l2 & l3 & ->). exists l1, l2, (l3 ++ l').
    now rewrite <- !app_assoc, <- !app_comm_cons, <- app_assoc.
  Qed.

Lemma before_last (b a : N) l : In b l -> before b a (l ++ [a]).
  Proof.
    intros Hin. apply in_split in Hin. destruct Hin as (l1 & l2 & ->).
    exists l1, l2, []. now rewrite <- app_assoc.
  Qed.

Lemma before_rev (b a : N) l : before b a l -> before a b (rev l).
  Proof.
    intros (l1 & l2 & l3 & ->). exists (rev l3), (rev l2), (rev l1).
    rewrite rev_app_distr. simpl. rewrite rev_app_distr. simpl.
    now rewrite <- !app_assoc.
  Qed.

Lemma before_In (b a : N) l : before b a l -> In b l /\ In a l.
  Proof.
    intros (l1 & l2 & l3 & ->). rewrite !in_app_iff. simpl.
    rewrite !in_app_iff. simpl. tauto.
  Qed.

Lemma before_split (y x : N) : forall l1 l2,
    NoDup (l1 ++ x :: l2) -> before y x (l1 ++ x :: l2) -> In y l1.
  Proof.
    induction l1 as [|z l1 IH]; simpl; intros l2 Hnd (a & b & c & Heq).
    - exfalso. inversion Hnd; subst. apply H2. destruct a as [|a0 a].
      + simpl in Heq. inversion Heq; subst. rewrite in_app_iff. simpl. auto.
      + simpl in Heq. inversion Heq; subst. rewrite !in_app_iff. simpl.
        rewrite !in_app_iff. simpl. auto.
    - destruct a as [|a0 a]; simpl in Heq; inversion Heq; subst; auto.
      right. inversion Hnd; subst. apply (IH l2); auto. rewrite H2. now exists a, b, c.
  Qed.
End Before.

Section Reading.
Context {N E : Type} `{EqDec N}.
Implicit Types (g : Graph N E).

Lemma has_edge_false_iff g a b : has_edge g a b = false <-> ~ has_edge g a b = true.
  Proof. destruct (has_edge g a b); split; congruence. Qed.

Lemma no_predecessors_spec g n b :
    mirror g -> no_predecessors g n = Ok b ->
    In n (nodes g) /\ (b = true <-> forall p, has_edge g p n = false).
  Proof.
    intros Hm Hrun. unfold no_predecessors in Hrun. inv_ok. rename a into preds.
    pose proof (fun p => predecessors_has_edge g n preds p Hm Ha) as Hp.
    apply predecessors_Ok in Ha. destruct Ha as (edges & Hedges & ->).
    split.
    - apply (mirror_nodes_in g n Hm). apply dict_get_In_keys. eauto.
    - destruct (dict_keys edges) as [|p ps]; split; auto.
      + intros _ p. apply has_edge_false_iff. rewrite <- Hp. simpl. tauto.
      + discriminate.
      + intros Hall. specialize (Hall p). apply has_edge_false_iff in Hall.
        exfalso. apply Hall, Hp. simpl. auto.
  Qed.

Lemma no_predecessors_Ok g n :
    mirror g -> In n (nodes g) -> exists b, no_predecessors g n = Ok b.
  Proof.
    intros Hm Hn. apply (mirror_nodes_in g n Hm) in Hn.
    apply dict_get_In_keys in Hn. destruct Hn as [edges Hedges].
    unfold no_predecessors, predecessors. rewrite Hedges. simpl. eauto.
  Qed.

Lemma enqueue_spec g (Hm : mirror g) : forall deps pending,
    incl deps (nodes g) ->
    exists pending',
      enqueue g deps pending = Ok pending' /\
      (forall x, In x pending' <->
                 In x pending \/ (In x deps /\ forall p, has_edge g p x = false)) /\
      (NoDup pending -> NoDup pending').
  Proof.
    induction deps as [|d deps IH]; simpl; intros pending Hdeps.
    - exists pending. split; [reflexivity|]. split; [|auto]. intros x. tauto.
    - destruct (no_predecessors_Ok g d Hm) as [b Hb]; [apply Hdeps; simpl; auto|].
      rewrite Hb. simpl.
      destruct (no_predecessors_spec g d b Hm Hb) as [_ Hfree].
      destruct (IH (if b && negb (mem d pending) then pending ++ [d] else pending))
        as (pending' & Hrun & Hin & Hnd).
      { intros x Hx. apply Hdeps. simpl; auto. }
      exists pending'. split; [exact Hrun|]. split.
      + intros x. rewrite Hin. destruct b; simpl.
        * destruct (mem d pending) eqn:Hmem; simpl.
          -- apply mem_true in Hmem. split; [tauto|].
             intros [?|[[<-|?] ?]]; auto.
          -- rewrite in_app_iff. simpl. split.
             ++ intros [[?|[<-|[]]]|[? ?]]; auto.
                right. split; auto. now apply Hfree.
             ++ intros [?|[[<-|?] ?]]; auto.
        * split; [tauto|]. intros [?|[[<-|?] Hs]]; auto.
          assert (false = true) by (apply Hfree; exact Hs). discriminate.
      + intros Hp. apply Hnd. destruct (b && negb (mem d pending)) eqn:Hc; auto.
        apply andb_true_iff in Hc. destruct Hc as [_ Hc].
        apply negb_true_iff, mem_false in Hc.
        apply NoDup_rev in Hp. rewrite <- (rev_involutive (pending ++ [d])).
        apply NoDup_rev. rewrite rev_app_distr. simpl. constructor; auto.
        now rewrite <- in_rev.
  Qed.

Lemma ready_spec g (Hm : mirror g) : forall ns,
    incl ns (nodes g) ->
    exists l,
      ready g ns = Ok l /\
      (forall x, In x l <-> In x ns /\ forall p, has_edge g p x = false) /\
      (NoDup ns -> NoDup l).
  Proof.
    induction ns as [|n ns IH]; simpl; intros Hns.
    - exists []. split; [reflexivity|]. split; [|auto]. intros x. simpl. tauto.
    - destruct (no_predecessors_Ok g n Hm) as [b Hb]; [apply Hns; simpl; auto|].
      rewrite Hb. simpl.
      destruct (no_predecessors_spec g n b Hm Hb) as [_ Hfree].
      destruct IH as (l & Hrun & Hin & Hnd).
      { intros x Hx. apply Hns. simpl; auto. }
      rewrite Hrun. simpl. eexists. split; [reflexivity|]. split.
      + intros x. destruct b; simpl; rewrite Hin.
        * split; [intros [<-|?]; [|tauto]|intros [[<-|?] ?]; auto].
          split; auto. now apply Hfree.
        * split; [tauto|]. intros [[<-|?] Hs]; auto.
          assert (false = true) by (apply Hfree; exact Hs). discriminate.
      + intros Hnd'. inversion Hnd'; subst. destruct b; auto.
        constructor; auto. rewrite Hin. tauto.
  Qed.

Lemma sorted_from_true g : forall l visited,
    incl l (nodes g) ->
    (forall l1 x l2 y, l = l1 ++ x :: l2 -> has_edge g x y = true ->
                       In y visited \/ In y l1) ->
    sorted_from g visited l = Ok true.
  Proof.
    induction l as [|n l IH]; simpl; intros visited Hl Hdeps; auto.
    destruct (successors_node g n) as [deps Hs]; [apply Hl; simpl; auto|].
    rewrite Hs. simpl.
    replace (forallb (fun d => mem d (set_add n visited)) deps) with true.
    - apply IH.
      + intros x Hx. apply Hl. simpl; auto.
      + intros l1 x l2 y -> He.
        destruct (Hdeps (n :: l1) x l2 y eq_refl He) as [?|[<-|?]];
          rewrite In_set_add; auto.
    - symmetry. apply forallb_forall. intros d Hd. apply mem_true, In_set_add.
      apply (successors_has_edge g n deps d Hs) in Hd.
      destruct (Hdeps [] n l d eq_refl Hd) as [?|[]]. auto.
  Qed.
End Reading.

(** ** Paths and cycles *)

Section Paths.
Context {N E : Type} `{EqDec N}.
Implicit Types (g : Graph N E).

Lemma path_snoc g a b c : path g a b -> has_edge g b c = true -> path g a c.
  Proof.
    induction 1 as [a b He|a b c' He Hp IH]; intros Hc.
    - eapply path_step; eauto. now apply path_edge.
    - eapply path_step; eauto.
  Qed.

Lemma path_last g a b : path g a b -> exists p, has_edge g p b = true /\ (p = a \/ path g a p).
  Proof.
    induction 1 as [a b He|a b c He Hp IH].
    - exists a. auto.
    - destruct IH as (p & Hpe & [->|Hpp]).
      + exists b. split; auto. right. now apply path_edge.
      + exists p. split; auto. right. eapply path_step; eauto.
  Qed.

Lemma path_subgraph g g' a b :
    (forall x y, has_edge g' x y = true -> has_edge g x y = true) ->
    path g' a b -> path g a b.
  Proof.
    intros Hsub. induction 1 as [a b He|a b c He Hp IH].
    - apply path_edge. auto.
    - eapply path_step; eauto.
  Qed.

Lemma ranked_acyclic g (rank : N -> nat) :
    (forall a b, has_edge g a b = true -> rank b < rank a) -> acyclic g.
  Proof.
    intros Hrank.
    assert (Hpath : forall a b, path g a b -> rank b < rank a).
    { intros a b Hp. induction Hp as [a b He|a b c He Hp IH].
      - auto.
      - apply Hrank in He. lia. }
    intros n Hp. apply Hpath in Hp. lia.
  Qed.

Lemma forwards_app_r g l1 l2 : forwards g (l1 ++ l2) -> forwards g l2.
  Proof.
    induction l1 as [|a l1 IH]; simpl; auto. intros [_ Hb]. auto.
  Qed.

Lemma forwards_path g : forall m a b rest,
    forwards g (a :: m ++ b :: rest) -> path g a b.
  Proof.
    induction m as [|c m IH]; intros a b rest; simpl.
    - intros [He _]. now apply path_edge.
    - intros [He Hb]. eapply path_step; [exact He|]. apply (IH c b rest). exact Hb.
  Qed.

Lemma backwards_app_r g l1 l2 : backwards g (l1 ++ l2) -> backwards g l2.
  Proof.
    induction l1 as [|a l1 IH]; simpl; auto. intros [_ Hb]. auto.
  Qed.

Lemma backwards_path g : forall m a b rest,
    backwards g (a :: m ++ b :: rest) -> path g b a.
  Proof.
    induction m as [|c m IH]; intros a b rest; simpl.
    - intros [He _]. now apply path_edge.
    - intros [He Hb]. eapply path_snoc; [|exact He]. apply (IH c b rest). exact Hb.
  Qed.

Lemma dup_split (l : list N) :
    ~ NoDup l -> exists x l1 l2 l3, l = l1 ++ x :: l2 ++ x :: l3.
  Proof.
    induction l as [|a l IH]; intros Hnd.
    - exfalso. apply Hnd. constructor.
    - destruct (in_dec eq_dec a l) as [Hin|Hnin].
      + apply in_split in Hin. destruct Hin as (m1 & m2 & ->).
        exists a, [], m1, m2. reflexivity.
      + destruct IH as (x & l1 & l2 & l3 & ->).
        { intros Hl. apply Hnd. constructor; auto. }
        exists x, (a :: l1), l2, l3. reflexivity.
  Qed.

Lemma source_or_predecessor g n :
    mirror g -> In n (nodes g) ->
    (forall p, has_edge g p n = false) \/ (exists p, has_edge g p n = true).
  Proof.
    intros Hm Hn. destruct (no_predecessors_Ok g n Hm Hn) as [b Hb].
    destruct (no_predecessors_spec g n b Hm Hb) as [_ Hfree].
    destruct b; [left; now apply Hfree|right].
    unfold no_predecessors in Hb. inv_ok. rename a into preds.
    destruct preds as [|p preds]; [discriminate|].
    exists p. apply (predecessors_has_edge g n (p :: preds) p Hm Ha). simpl; auto.
  Qed.

Lemma back_walk g (Hm : mirror g)
    (Hpred : forall n, In n (nodes g) -> exists p, has_edge g p n = true) :
    forall k n, In n (nodes g) ->
    exists w, length w = k /\ backwards g (n :: w) /\ incl (n :: w) (nodes g).
  Proof.
    induction k as [|k IH]; intros n Hn.
    - exists []. split; [reflexivity|]. split; [simpl; auto|].
      intros x [<-|[]]. exact Hn.
    - destruct (Hpred n Hn) as [p Hp].
      destruct (edge_nodes g p n Hm Hp) as [Hpn _].
      destruct (IH p Hpn) as (w & Hlen & Hb & Hincl).
      exists (p :: w). split; [simpl; congruence|]. split.
      + split; auto.
      + intros x [<-|Hx]; auto.
  Qed.

  (** A graph with a node, in which every node has a predecessor, has a
      cycle. *)
Lemma no_source_cycle g :
    mirror g -> nodes g <> [] ->
    (forall n, In n (nodes g) -> exists p, has_edge g p n = true) ->
    exists n, path g n n.
  Proof.
    intros Hm Hne Hpred.
    assert (Hn0 : exists n0, In n0 (nodes g)).
    { destruct (nodes g) as [|n0 ns]; [congruence|]. exists n0. simpl; auto. }
    destruct Hn0 as [n0 Hn0].
    destruct (back_walk g Hm Hpred (length (nodes g)) n0 Hn0) as (w & Hlen & Hb & Hincl).
    assert (Hdup : ~ NoDup (n0 :: w)).
    { intros Hnd. apply (NoDup_incl_length Hnd) in Hincl. simpl in Hincl. lia. }
    apply dup_split in Hdup. destruct Hdup as (x & l1 & l2 & l3 & Heq).
    rewrite Heq in Hb. apply backwards_app_r in Hb.
    exists x. exact (backwards_path g l2 x x l3 Hb).
  Qed.

Lemma index_from_app (x : N) : forall l1 l2 i,
    ~ In x l1 -> index_from i x (l1 ++ x :: l2) = i + length l1.
  Proof.
    induction l1 as [|y l1 IH]; simpl; intros l2 i Hn.
    - destruct (eq_dec x x); [lia|congruence].
    - destruct (eq_dec x y); [exfalso; auto|].
      rewrite IH by tauto. lia.
  Qed.

Lemma before_index (a b : N) l :
    NoDup l -> before a b l -> index_from 0 a l < index_from 0 b l.
  Proof.
    intros Hnd (l1 & l2 & l3 & ->).
    assert (Ha : ~ In a l1).
    { apply NoDup_remove_2 in Hnd. rewrite in_app_iff in Hnd. tauto. }
    rewrite (index_from_app a l1 _ 0 Ha).
    replace (l1 ++ a :: l2 ++ b :: l3) with ((l1 ++ a :: l2) ++ b :: l3) in *
      by (now rewrite <- app_assoc).
    assert (Hb : ~ In b (l1 ++ a :: l2)).
    { apply NoDup_remove_2 in Hnd. rewrite in_app_iff in Hnd. tauto. }
    rewrite (index_from_app b _ _ 0 Hb). rewrite length_app. simpl. lia.
  Qed.
End Paths.

(** ** The search reports no cycle only when there is none *)

Section SearchComplete.
Context {N E : Type} `{EqDec N}.
Variable pick : list N -> nat.
Implicit Types (g : Graph N E) (stack : list (frame (N:=N))).

Lemma index_from_keep (x : N) : forall l l' i,
    In x l -> index_from i x (l ++ l') = index_from i x l.
  Proof.
    induction l as [|y l IH]; simpl; intros l' i Hin; [tauto|].
    destruct (eq_dec x y); auto. apply IH. destruct Hin; [congruence|auto].
  Qed.

Lemma index_from_bound (x : N) : forall l i, In x l -> index_from i x l < i + length l.
  Proof.
    induction l as [|y l IH]; simpl; intros i Hin; [tauto|].
    destruct (eq_dec x y); [lia|].
    destruct Hin as [?|Hin]; [congruence|]. specialize (IH (S i) Hin). lia.
  Qed.

Lemma explored_mono g processed processed' : forall stack child,
    incl processed processed' ->
    explored g processed stack child -> explored g processed' stack child.
  Proof.
    induction stack as [|[n deps] below IH]; simpl; intros child Hincl; auto.
    intros [Hn Hbelow]. split; [|apply IH; auto].
    intros y Hy. destruct (Hn y Hy) as [?|[?|?]]; auto.
  Qed.

Lemma explored_done g processed stack c :
    explored g processed stack (Some c) -> In c processed ->
    explored g processed stack None.
  Proof.
    destruct stack as [|[n deps] below]; simpl; auto.
    intros [Hn Hbelow] Hc. split; auto.
    intros y Hy. destruct (Hn y Hy) as [?|[?|Heq]]; auto.
    inversion Heq; subst. auto.
  Qed.

Lemma ordered_add g processed top :
    ordered g processed -> ~ In top processed ->
    (forall y, has_edge g top y = true -> In y processed) ->
    ordered g (processed ++ [top]).
  Proof.
    intros Hord Hnew Hsucc x y Hx He. apply in_app_iff in Hx.
    destruct Hx as [Hx|[<-|[]]].
    - destruct (Hord x y Hx He) as [Hy Hlt]. split; [apply in_app_iff; auto|].
      now rewrite !index_from_keep.
    - pose proof (Hsucc y He) as Hy. split; [apply in_app_iff; auto|].
      rewrite index_from_keep by auto. rewrite (index_from_app top processed [] 0 Hnew).
      apply (index_from_bound y processed 0 Hy).
  Qed.

Lemma dfs_inv_leave g in_stack top below :
    dfs_inv g in_stack ((top, []) :: below) ->
    In top in_stack /\ dfs_inv g (remove eq_dec top in_stack) below.
  Proof.
    intros (Hnd & Hset & Hch & Hfr).
    split; [apply Hset; simpl; auto|].
    inversion Hnd; subst. split; [|split; [|split]]; auto.
    - intros x. rewrite In_remove_iff, Hset. simpl. split.
      + intros [[?|?] ?]; [congruence|auto].
      + intros Hx. split; auto. intros ->. auto.
    - apply Hch.
    - intros n deps Hin. apply Hfr. right; auto.
  Qed.

Lemma dfs_inv_draw g in_stack top deps below dependency :
    dfs_inv g in_stack ((top, deps) :: below) -> In dependency deps ->
    has_edge g top dependency = true /\
    dfs_inv g in_stack ((top, remove eq_dec dependency deps) :: below).
  Proof.
    intros (Hnd & Hset & Hch & Hfr) Hdep.
    split; [apply (Hfr top deps); simpl; auto|].
    split; [|split; [|split]]; auto.
    intros n ds [Heq|Hin].
    - inversion Heq; subst. split.
      + apply (Hfr n deps). simpl; auto.
      + intros x Hx. apply In_remove_iff in Hx. apply (Hfr n deps); simpl; tauto.
    - apply Hfr. right; auto.
  Qed.

Lemma dfs_inv_push g in_stack top rest below dependency deps :
    dfs_inv g in_stack ((top, rest) :: below) ->
    has_edge g top dependency = true -> ~ In dependency in_stack ->
    successors g dependency = Ok deps ->
    dfs_inv g (set_add dependency in_stack) ((dependency, deps) :: (top, rest) :: below).
  Proof.
    intros (Hnd & Hset & Hch & Hfr) He Hnew Hs.
    split; [|split; [|split]].
    - simpl. constructor; auto. intros Hx. apply Hnew, Hset. exact Hx.
    - intros x. rewrite In_set_add, Hset. simpl. intuition.
    - simpl. split; auto.
    - intros n ds [Heq|Hin].
      + inversion Heq; subst. split.
        * apply successors_Ok in Hs. destruct Hs as (edges & Hedges & _).
          apply dict_get_In_keys. eauto.
        * intros x Hx. now apply (successors_has_edge g n _ x Hs).
      + now apply Hfr.
  Qed.

  (** When the loop ends without a cycle, the nodes it had on the stack
      are processed and the processed nodes are still in order. *)
Lemma dfs_exhausted g : forall fuel processed in_stack stack processed',
    dfs_inv g in_stack stack -> search_inv g processed in_stack stack ->
    dfs pick fuel g processed in_stack stack = Ok (Exhausted processed') ->
    ordered g processed' /\ incl processed processed' /\
    incl (map fst stack) processed'.
  Proof.
    induction fuel as [|fuel IH]; intros processed in_stack stack processed' Hinv Hs Hrun;
      [discriminate|].
    destruct Hs as (Hord & Hexp & Hdisj).
    destruct stack as [|[top deps] below].
    - simpl in Hrun. inversion Hrun; subst. split; [auto|]. split; [apply incl_refl|].
      intros x [].
    - destruct deps as [|d ds].
      + apply (eq_trans (eq_sym (dfs_leave pick fuel g processed in_stack top below)))
          in Hrun.
        destruct (dfs_inv_leave g in_stack top below Hinv) as [Htop Hinv'].
        replace (mem top in_stack) with true in Hrun by (symmetry; now apply mem_true).
        assert (Hnew : ~ In top processed) by (intros Hc; exact (Hdisj top Hc Htop)).
        assert (Hadd : set_add top processed = processed ++ [top]).
        { unfold set_add. apply mem_false in Hnew. now rewrite Hnew. }
        rewrite Hadd in Hrun. simpl in Hexp. destruct Hexp as [Htopsucc Hexp].
        assert (Hs' : search_inv g (processed ++ [top]) (remove eq_dec top in_stack) below).
        { split; [|split].
          - apply ordered_add; auto. intros y Hy.
            destruct (Htopsucc y Hy) as [[]|[?|?]]; [auto|discriminate].
          - apply (explored_done g _ below top).
            + apply (explored_mono g processed); auto.
              intros x Hx. apply in_app_iff. auto.
            + apply in_app_iff. simpl. auto.
          - intros x Hx Hc. apply In_remove_iff in Hc. destruct Hc as [Hc Hne].
            apply in_app_iff in Hx. destruct Hx as [Hx|[Hx|[]]]; [|congruence].
            exact (Hdisj x Hx Hc). }
        destruct (IH _ _ _ _ Hinv' Hs' Hrun)
          as (Hord' & Hincl & Hstack).
        split; [exact Hord'|]. split.
        * intros x Hx. apply Hincl, in_app_iff. auto.
        * intros x [<-|Hx]; [apply Hincl, in_app_iff; simpl; auto|now apply Hstack].
      + destruct (set_pop_cons pick d ds) as (dep & rest & Hpop).
        destruct (set_pop_Ok pick _ _ _ Hpop) as (Hdep & Hrest & _).
        apply (eq_trans (eq_sym (dfs_draw pick fuel g processed in_stack top d ds below
                                   dep rest Hpop))) in Hrun.
        destruct (dfs_inv_draw g in_stack top (d :: ds) below dep Hinv Hdep)
          as [He Hinv'].
        rewrite <- Hrest in Hinv'.
        simpl in Hexp. destruct Hexp as [Htopsucc Hexp].
        destruct (mem dep in_stack) eqn:Hin_stack.
        * destruct (unwind dep ((top, rest) :: below) [dep]); discriminate.
        * apply mem_false in Hin_stack.
          destruct (mem dep processed) eqn:Hproc.
          -- apply mem_true in Hproc.
             apply (IH _ _ _ _ Hinv'); auto.
             split; [exact Hord|]. split; [|exact Hdisj].
             simpl. split; [|exact Hexp].
             intros y Hy. destruct (Htopsucc y Hy) as [Hc|[?|?]]; auto.
             destruct (eq_dec y dep) as [->|Hne]; auto.
             left. rewrite Hrest. apply In_remove_iff. auto.
          -- apply mem_false in Hproc.
             destruct (successors g dep) as [deps'| |] eqn:Hsucc; try discriminate.
             simpl in Hrun.
             pose proof (dfs_inv_push g in_stack top rest below dep deps'
                           Hinv' He Hin_stack Hsucc) as Hinv2.
             assert (Hs2 : search_inv g processed (set_add dep in_stack)
                             ((dep, deps') :: (top, rest) :: below)).
             { split; [exact Hord|]. split.
               - simpl. split; [|split; [|exact Hexp]].
                 + intros y Hy. left. now apply (successors_has_edge g dep _ y Hsucc).
                 + intros y Hy. destruct (Htopsucc y Hy) as [Hc|[?|?]]; auto;
                     [|discriminate].
                   destruct (eq_dec y dep) as [->|Hne]; auto.
                   left. rewrite Hrest. apply In_remove_iff. auto.
               - intros x Hx Hc. apply In_set_add in Hc. destruct Hc as [->|Hc]; auto.
                 exact (Hdisj x Hx Hc). }
             destruct (IH _ _ _ _ Hinv2 Hs2 Hrun) as (Hord' & Hincl & Hstack).
             split; [exact Hord'|]. split; [exact Hincl|].
             intros x Hx. apply Hstack. simpl. simpl in Hx. tauto.
  Qed.

  (** The same for the loop over the nodes: without a cycle reported,
      every root ends processed. *)
Lemma search_from_none g : forall fuel roots processed,
    ordered g processed ->
    search_from pick fuel g roots processed = Ok None ->
    exists processed',
      ordered g processed' /\ incl processed processed' /\ incl roots processed'.
  Proof.
    intros fuel. induction roots as [|root roots IH]; intros processed Hord Hrun.
    - exists processed. split; [auto|]. split; [apply incl_refl|intros x []].
    - cbn [search_from] in Hrun. destruct (mem root processed) eqn:Hmem.
      + apply mem_true in Hmem.
        destruct (IH processed Hord Hrun) as (p' & Hord' & Hincl & Hroots).
        exists p'. split; [auto|]. split; [auto|].
        intros x [<-|Hx]; auto.
      + apply mem_false in Hmem.
        destruct (successors g root) as [deps| |] eqn:Hsucc; try discriminate.
        cbn [bind] in Hrun.
        destruct (dfs pick fuel g processed [root] [(root, deps)])
          as [[cycle|p1]| |] eqn:Hdfs; try discriminate.
        cbn [bind] in Hrun.
        assert (Hroot : In root (nodes g)).
        { pose proof Hsucc as Hs. apply successors_Ok in Hs.
          destruct Hs as (edges & Hedges & _). apply dict_get_In_keys. eauto. }
        destruct (dfs_exhausted g fuel processed [root] [(root, deps)] p1)
          as (Hord1 & Hincl1 & Hstack1); auto.
        * split; [|split; [|split]]; simpl.
          -- constructor; [tauto|constructor].
          -- tauto.
          -- tauto.
          -- intros n ds [Heq|[]]. inversion Heq; subst. split; auto.
             intros x Hx. now apply (successors_has_edge g n _ x Hsucc).
        * split; [exact Hord|]. split.
          -- simpl. split; auto. intros y Hy. left.
             now apply (successors_has_edge g root _ y Hsucc).
          -- intros x Hx [<-|[]]. auto.
        * destruct (IH p1 Hord1 Hrun) as (p' & Hord' & Hincl & Hroots).
          exists p'. split; [auto|]. split.
          -- intros x Hx. auto.
          -- intros x [<-|Hx]; auto. apply Hincl, Hstack1. simpl; auto.
  Qed.

  (** When [_find_cycle] returns [None] the graph has no cycle: the order
      in which the nodes were processed ranks every node above its
      successors. *)
Lemma find_cycle_none_acyclic g :
    _find_cycle pick g = Ok None -> acyclic g.
  Proof.
    intros Hrun. unfold _find_cycle in Hrun.
    destruct (search_from_none g _ _ [] (fun x y (Hx : In x []) => match Hx with end) Hrun)
      as (p' & Hord & _ & Hnodes).
    apply (ranked_acyclic g (fun n => index_from 0 n p')).
    intros a b He.
    assert (Ha : In a (nodes g)).
    { pose proof He as Hl. apply has_edge_label in Hl. destruct Hl as [l Hl].
      eapply out_label_node; eauto. }
    apply (Hord a b); auto.
  Qed.

  (** A walk of any length along the edges inside a reported cycle. *)
Lemma cycle_walk g cycle :
    closed_cycle g cycle ->
    forall k n, In n cycle ->
    exists w, length w = k /\ forwards g (n :: w) /\ incl (n :: w) cycle.
  Proof.
    intros (_ & _ & _ & Hsucc).
    induction k as [|k IH]; intros n Hn.
    - exists []. split; [reflexivity|]. split; [simpl; auto|].
      intros x [<-|[]]. exact Hn.
    - destruct (Hsucc n Hn) as (y & Hy & He).
      destruct (IH y Hy) as (w & Hlen & Hwalk & Hincl).
      exists (y :: w). split; [simpl; congruence|]. split.
      + split; auto.
      + intros x [<-|Hx]; auto.
  Qed.

  (** What [_find_cycle] reports is a cycle of the graph. *)
Lemma closed_cycle_path g cycle :
    closed_cycle g cycle -> exists n, path g n n.
  Proof.
    intros Hc. pose proof Hc as (Hne & _ & _ & _).
    destruct cycle as [|c cs]; [congruence|].
    destruct (cycle_walk g (c :: cs) Hc (length (c :: cs)) c) as (w & Hlen & Hwalk & Hincl);
      [simpl; auto|].
    assert (Hdup : ~ NoDup (c :: w)).
    { intros Hnd. pose proof (NoDup_incl_length Hnd Hincl) as Hle.
      simpl in Hle, Hlen. lia. }
    apply dup_split in Hdup. destruct Hdup as (x & l1 & l2 & l3 & Heq).
    rewrite Heq in Hwalk. apply forwards_app_r in Hwalk.
    exists x. exact (forwards_path g l2 x x l3 Hwalk).
  Qed.
End SearchComplete.

Section SearchSound.
Context {N E : Type} `{EqDec N}.

  (** On a graph without a cycle the search finds none, whatever the
      order in which its sets give their elements. *)
Lemma find_cycle_acyclic_none (g : Graph N E) :
    mirror g -> acyclic g ->
    forall pick, _find_cycle pick g = Ok None.
  Proof.
    intros Hm Hac pick.
    destruct (find_cycle_spec pick g Hm) as (r & Hr & Hcyc).
    destruct r as [cycle|]; [|exact Hr].
    destruct (closed_cycle_path g cycle (Hcyc cycle eq_refl)) as [n Hn].
    destruct (Hac n Hn).
  Qed.
End SearchSound.

(** ** Cycle replacement *)

Section EdgeCount.
Context {N E : Type} `{EqDec N}.
Implicit Types (g : Graph N E) (index : dict N (dict N E)).

Lemma sum_dict_set index k (old new : dict N E) :
    dict_get index k = Some old ->
    list_sum (map (fun entry => length (snd entry)) (dict_set index k new)) + length old =
    list_sum (map (fun entry => length (snd entry)) index) + length new.
  Proof.
    induction index as [|[k' v'] index IH]; simpl; [discriminate|].
    destruct (eq_dec k k'); simpl; intros Hg.
    - inversion Hg; subst. lia.
    - apply IH in Hg. lia.
  Qed.

Lemma edge_count_remove_edge [g o d g'] :
    remove_edge g o d = Ok g' ->
    edge_count g' <= edge_count g /\
    (has_edge g o d = true -> S (edge_count g') <= edge_count g).
  Proof.
    intros Hrun. unfold has_edge. unfold remove_edge in Hrun. inv_ok.
    unfold edge_count. simpl. rewrite Ha.
    pose proof (sum_dict_set (_out_edges g) o a (dict_pop a d) Ha) as Hsum.
    pose proof (length_dict_pop_le a d). split; [lia|].
    intros Hc. apply dict_contains_true in Hc.
    pose proof (length_dict_pop_lt a d Hc). lia.
  Qed.

Lemma length_dict_set_le (edges : dict N E) k v :
    length (dict_set edges k v) <= S (length edges).
  Proof.
    induction edges as [|[k' v'] edges IH]; simpl; auto.
    destruct (eq_dec k k'); simpl; lia.
  Qed.

Lemma edge_count_add_edge [g o d e g'] :
    add_edge g o d e = Ok g' -> edge_count g' <= S (edge_count g).
  Proof.
    intros Hrun. unfold add_edge in Hrun. inv_ok. unfold edge_count. simpl.
    pose proof (sum_dict_set (_out_edges g) o a (dict_set a d e) Ha) as Hsum.
    pose proof (length_dict_set_le a d e). lia.
  Qed.

  (** *** [for dependency in cycle: graph.remove_edge(node, dependency)] *)

Lemma remove_edges_from_spec node : forall ds g g',
    Graph_ok g ->
    for_each (fun g dependency => remove_edge g node dependency) ds g = Ok g' ->
    Graph_ok g' /\ nodes g' = nodes g /\
    (forall a b, out_label g' a b =
                 if eq_dec node a
                 then if mem b ds then None else out_label g a b
                 else out_label g a b) /\
    edge_count g' <= edge_count g /\
    ((exists y, In y ds /\ has_edge g node y = true) ->
     S (edge_count g') <= edge_count g).
  Proof.
    induction ds as [|d ds IH]; simpl; intros g g' Hg Hrun.
    - inv_ok. split; [|split; [|split; [|split]]]; auto.
      + intros a b. destruct (eq_dec node a); auto.
      + intros (y & [] & _).
    - inv_ok. rename a into g1.
      pose proof (remove_edge_ok _ _ _ _ Hg Ha) as Hg1.
      pose proof (nodes_remove_edge Ha) as Hn1.
      pose proof (out_label_remove_edge Ha) as Hl1.
      destruct (edge_count_remove_edge Ha) as [Hc1 Hc1'].
      destruct (IH _ _ Hg1 Hrun) as (Hg' & Hn & Hl & Hc & Hc').
      split; [|split; [|split; [|split]]]; auto.
      + congruence.
      + intros a b. rewrite Hl, Hl1. destruct (eq_dec node a); auto.
        destruct (eq_dec d b) as [<-|Hne].
        * replace (mem d (d :: ds)) with true by (symmetry; apply mem_true; simpl; auto).
          destruct (mem d ds); auto.
        * replace (mem b (d :: ds)) with (mem b ds); auto.
          destruct (mem b ds) eqn:Hmem.
          -- symmetry. apply mem_true. right. now apply mem_true.
          -- symmetry. apply mem_false. apply mem_false in Hmem. simpl. intuition.
      + lia.
      + intros (y & [<-|Hy] & He).
        * apply Hc1' in He. lia.
        * destruct (has_edge g node d) eqn:Hd.
          -- specialize (Hc1' eq_refl). lia.
          -- assert (S (edge_count g') <= edge_count g1); [|lia].
             apply Hc'. exists y. split; auto.
             apply has_edge_label. apply has_edge_label in He. destruct He as [l Hl0].
             exists l. rewrite Hl1. destruct (eq_dec node node); [|congruence].
             destruct (eq_dec d y) as [<-|]; auto.
             assert (has_edge g node d = true) by (apply has_edge_label; eauto).
             congruence.
  Qed.

Lemma remove_edges_from_Ok node : forall ds g,
    Graph_ok g -> In node (nodes g) -> incl ds (nodes g) ->
    exists g', for_each (fun g dependency => remove_edge g node dependency) ds g = Ok g'.
  Proof.
    induction ds as [|d ds IH]; simpl; intros g Hg Hn Hds; eauto.
    destruct (remove_edge_Ok g node d) as [g1 Hg1]; auto.
    { apply (mirror_nodes_in g d); [apply Hg|]. apply Hds. simpl; auto. }
    rewrite Hg1. simpl. apply IH.
    - exact (remove_edge_ok _ _ _ _ Hg Hg1).
    - now rewrite (nodes_remove_edge Hg1).
    - rewrite (nodes_remove_edge Hg1). intros x Hx. apply Hds. simpl; auto.
  Qed.

Lemma has_edge_other_label g g' x :
    (forall b, out_label g' x b = out_label g x b) ->
    forall y, has_edge g' x y = has_edge g x y.
  Proof.
    intros Hl y. destruct (has_edge g x y) eqn:He.
    - apply has_edge_label. apply has_edge_label in He. now rewrite Hl.
    - destruct (has_edge g' x y) eqn:He'; auto.
      apply has_edge_label in He'. rewrite Hl in He'. apply has_edge_label in He'. congruence.
  Qed.

  (** *** [for node in cycle: for dependency in cycle: ...] *)

Lemma remove_all_edges_spec (cycle : list N) : forall xs g g',
    Graph_ok g -> NoDup xs ->
    (forall x, In x xs -> exists y, In y cycle /\ has_edge g x y = true) ->
    for_each
      (fun g node =>
         for_each (fun g dependency => remove_edge g node dependency) cycle g) xs g
    = Ok g' ->
    Graph_ok g' /\ nodes g' = nodes g /\ edge_count g' + length xs <= edge_count g.
  Proof.
    induction xs as [|x xs IH]; simpl; intros g g' Hg Hnd Hsucc Hrun.
    - inv_ok. split; [|split]; auto. lia.
    - inv_ok. rename a into g1. inversion Hnd; subst.
      destruct (remove_edges_from_spec x cycle g g1 Hg Ha) as (Hg1 & Hn1 & Hl1 & _ & Hc1).
      specialize (Hc1 (Hsucc x (or_introl eq_refl))).
      destruct (IH g1 g' Hg1 H3) as (Hg' & Hn & Hc); auto.
      + intros z Hz. destruct (Hsucc z (or_intror Hz)) as (y & Hy & He).
        exists y. split; auto. rewrite <- He.
        apply has_edge_other_label. intros b. rewrite Hl1.
        destruct (eq_dec x z); [subst; tauto|reflexivity].
      + split; [|split]; auto; [congruence|lia].
  Qed.

Lemma remove_all_edges_Ok (cycle : list N) : forall xs g,
    Graph_ok g -> incl xs (nodes g) -> incl cycle (nodes g) ->
    exists g',
      for_each
        (fun g node =>
           for_each (fun g dependency => remove_edge g node dependency) cycle g) xs g
      = Ok g'.
  Proof.
    induction xs as [|x xs IH]; simpl; intros g Hg Hxs Hc; eauto.
    destruct (remove_edges_from_Ok x cycle g) as [g1 Hg1]; auto.
    { apply Hxs. simpl; auto. }
    rewrite Hg1. simpl.
    destruct (remove_edges_from_spec x cycle g g1 Hg Hg1) as (Hg1' & Hn1 & _).
    apply IH; auto; rewrite Hn1; auto.
    intros z Hz. apply Hxs. simpl; auto.
  Qed.
End EdgeCount.

Section ReplaceLoop.
Context {N : Type} `{EqDec N}.
Variable pick : list N -> nat.
Variable key : N -> Z.
Implicit Types (g : Graph N bool).

Lemma link_chain_spec : forall rest g prev,
    Graph_ok g -> In prev (nodes g) -> incl rest (nodes g) ->
    exists g', link_chain g prev rest = Ok g' /\
               Graph_ok g' /\ nodes g' = nodes g /\
               edge_count g' <= edge_count g + length rest.
  Proof.
    induction rest as [|node rest IH]; simpl; intros g prev Hg Hp Hr.
    - exists g. split; [|split; [|split]]; auto. lia.
    - destruct (add_edge_Ok g node prev true) as [g1 Hg1].
      { apply Hr. simpl; auto. }
      { apply (mirror_nodes_in g prev); [apply Hg|auto]. }
      rewrite Hg1. simpl.
      pose proof (add_edge_ok _ _ _ _ _ Hg Hg1) as Hok1.
      pose proof (nodes_add_edge Hg1) as Hn1.
      pose proof (edge_count_add_edge Hg1) as Hc1.
      destruct (IH g1 node Hok1) as (g' & Hrun & Hok & Hn & Hc).
      + rewrite Hn1. apply Hr. simpl; auto.
      + rewrite Hn1. intros x Hx. apply Hr. simpl; auto.
      + exists g'. split; [|split; [|split]]; auto; [congruence|lia].
  Qed.

Lemma relink_spec g cycle :
    Graph_ok g -> cycle <> [] -> incl cycle (nodes g) ->
    exists g', relink key g cycle = Ok g' /\
               Graph_ok g' /\ nodes g' = nodes g /\
               S (edge_count g') <= edge_count g + length cycle.
  Proof.
    intros Hg Hne Hc. unfold relink.
    pose proof (length_sorted key cycle) as Hlen.
    assert (Hin : forall x, In x (sorted key cycle) -> In x (nodes g)).
    { intros x Hx. apply Hc. now apply In_sorted in Hx. }
    destruct (sorted key cycle) as [|prev rest].
    - destruct cycle; [congruence|discriminate].
    - destruct (link_chain_spec rest g prev Hg) as (g' & Hrun & Hok & Hn & Hcount).
      + apply Hin. simpl; auto.
      + intros x Hx. apply Hin. simpl; auto.
      + exists g'. split; [|split; [|split]]; auto. simpl in Hlen. lia.
  Qed.

Lemma remove_self_references_spec g :
    Graph_ok g ->
    exists g', _remove_self_references g = Ok g' /\ Graph_ok g' /\ nodes g' = nodes g.
  Proof.
    intros Hg. unfold _remove_self_references.
    assert (Hgen : forall xs g0, Graph_ok g0 -> incl xs (nodes g0) ->
              exists g', for_each (fun g1 node => remove_edge g1 node node) xs g0 = Ok g' /\
                         Graph_ok g' /\ nodes g' = nodes g0).
    { induction xs as [|x xs IH]; simpl; intros g0 Hg0 Hxs; eauto.
      destruct (remove_edge_Ok g0 x x) as [g1 Hg1].
      - apply Hxs. simpl; auto.
      - apply (mirror_nodes_in g0 x); [apply Hg0|]. apply Hxs. simpl; auto.
      - rewrite Hg1. simpl.
        pose proof (remove_edge_ok _ _ _ _ Hg0 Hg1) as Hok1.
        pose proof (nodes_remove_edge Hg1) as Hn1.
        destruct (IH g1 Hok1) as (g' & Hrun & Hok & Hn).
        + rewrite Hn1. intros z Hz. apply Hxs. simpl; auto.
        + exists g'. split; [|split]; auto. congruence. }
    apply Hgen; auto. apply incl_refl.
  Qed.

Lemma replace_loop_spec : forall fuel g,
    Graph_ok g -> edge_count g < fuel ->
    exists g', replace_loop pick key fuel g = Ok g' /\
               Graph_ok g' /\ nodes g' = nodes g /\
               _find_cycle pick g' = Ok None.
  Proof.
    induction fuel as [|fuel IH]; intros g Hg Hfuel; [lia|].
    cbn [replace_loop].
    destruct (find_cycle_spec pick g) as (r & Hr & Hcyc); [apply Hg|].
    rewrite Hr. cbn [bind].
    destruct r as [cycle|]; [|exists g; auto].
    destruct (Hcyc cycle eq_refl) as (Hne & Hnd & Hincl & Hsucc).
    destruct cycle as [|c cs]; [congruence|].
    set (cycle := c :: cs) in *.
    destruct (remove_all_edges_Ok cycle cycle g Hg Hincl Hincl) as [g1 Hg1].
    unfold remove_cycle_edges. rewrite Hg1. cbn [bind].
    destruct (remove_all_edges_spec cycle cycle g g1 Hg Hnd Hsucc Hg1) as (Hok1 & Hn1 & Hc1).
    destruct (relink_spec g1 cycle Hok1 Hne) as (g2 & Hg2 & Hok2 & Hn2 & Hc2).
    { now rewrite Hn1. }
    rewrite Hg2. cbn [bind].
    destruct (IH g2 Hok2) as (g' & Hrun & Hok & Hn & Hnone); [lia|].
    exists g'. split; [|split; [|split]]; auto. congruence.
  Qed.

  (** C3.  [replace_cycles] ends, for every graph, every rank function and
      every order in which the sets of the search give their elements; it
      raises nothing; the graph it leaves has the same nodes and contains
      no cycle, and a subsequent call to [_find_cycle] on it returns
      [None], whatever the order in which the sets of that call give their
      elements. *)
Theorem replace_cycles_terminates (g : Graph N bool) :
    Graph_ok g ->
    exists g', replace_cycles pick key g = Ok g' /\
               Graph_ok g' /\ nodes g' = nodes g /\ acyclic g' /\
               forall pick', _find_cycle pick' g' = Ok None.
  Proof.
    intros Hg. unfold replace_cycles.
    destruct (remove_self_references_spec g Hg) as (g0 & Hg0 & Hok0 & Hn0).
    rewrite Hg0. cbn [bind].
    destruct (replace_loop_spec (S (edge_count g0)) g0 Hok0)
      as (g' & Hrun & Hok & Hn & Hnone); [lia|].
    pose proof (find_cycle_none_acyclic pick g' Hnone) as Hac.
    exists g'. split; [exact Hrun|]. split; [exact Hok|].
    split; [congruence|]. split; [exact Hac|].
    apply find_cycle_acyclic_none; [apply Hok|exact Hac].
  Qed.
End ReplaceLoop.

Lemma three_cycle_ok : Graph_ok three_cycle.
Proof.
  apply (add_edge_ok
           (mkGraph [(1, [(2, true)]); (2, [(3, true)]); (3, [])]
                    [(1, []); (2, [(1, true)]); (3, [(2, true)])]) 3 1 true);
    [|reflexivity].
  apply (add_edge_ok
           (mkGraph [(1, [(2, true)]); (2, []); (3, [])]
                    [(1, []); (2, [(1, true)]); (3, [])]) 2 3 true); [|reflexivity].
  apply (add_edge_ok (add_node (add_node (add_node Graph_init 1) 2) 3) 1 2 true);
    [|reflexivity].
  apply add_node_ok, add_node_ok, add_node_ok, Graph_init_ok.
Qed.

Lemma replace_cycles_terminates_witness :
  Graph_ok three_cycle /\
  exists g', replace_cycles (fun _ => 0) Z.of_nat three_cycle = Ok g' /\
             Graph_ok g' /\ nodes g' = nodes three_cycle /\ acyclic g' /\
             forall pick', _find_cycle pick' g' = Ok None.
Proof.
  split; [exact three_cycle_ok|].
  exact (replace_cycles_terminates (fun _ => 0) Z.of_nat three_cycle three_cycle_ok).
Defined.

(** ** The sort: the invariant of its loop *)

Section SortInvariant.
Context {N E : Type} `{EqDec N}.
Implicit Types (g R : Graph N E).

Lemma has_edge_remove_node [R node R'] :
    mirror R -> remove_node R node = Ok R' -> forall a b,
    has_edge R' a b = true <-> has_edge R a b = true /\ a <> node /\ b <> node.
  Proof.
    intros Hm Hrun a b. rewrite !has_edge_label.
    rewrite (out_label_remove_node Hm Hrun).
    destruct (eq_dec node a) as [<-|Ha].
    - split; [intros [? ?]; discriminate|tauto].
    - destruct (eq_dec node b) as [<-|Hb].
      + split; [intros [? ?]; discriminate|tauto].
      + split; [intros ?; repeat split; auto|tauto].
  Qed.

Lemma has_edge_copy [g c] :
    Graph_ok g -> copy g = Ok c -> forall a b, has_edge c a b = has_edge g a b.
  Proof.
    intros Hg Hc. destruct (copy_spec Hg Hc) as (_ & _ & _ & Hl).
    intros a b. apply has_edge_other_label. intros y. apply Hl.
  Qed.

Lemma sort_inv_init g c pending :
    Graph_ok g -> copy g = Ok c -> ready g (nodes g) = Ok pending ->
    sort_inv g c pending [].
  Proof.
    intros Hg Hc Hr. destruct (copy_spec Hg Hc) as (Hok & Hn & _ & _).
    pose proof (has_edge_copy Hg Hc) as He.
    destruct (ready_spec g (proj2 (proj2 Hg)) (nodes g) (incl_refl _))
      as (l & Hl & Hin & Hnd).
    rewrite Hr in Hl. inversion Hl; subst l. clear Hl.
    split; [exact Hok|]. split; [|split; [|split; [|split; [|split; [|split]]]]].
    - intros n. rewrite Hn. simpl. tauto.
    - intros a b. rewrite He. simpl. tauto.
    - apply Hnd. apply Hg.
    - intros n. rewrite Hin, Hn. split; intros [? Hs]; split; auto;
        intros p; specialize (Hs p); now rewrite He in *.
    - constructor.
    - intros x [].
    - intros a b _ [].
  Qed.

Lemma sort_step g R pending result node pending1 R' deps pending' :
    sort_inv g R pending result ->
    In node pending ->
    NoDup pending1 -> (forall x, In x pending1 <-> In x pending /\ x <> node) ->
    successors R node = Ok deps ->
    remove_node R node = Ok R' ->
    enqueue R' deps pending1 = Ok pending' ->
    sort_inv g R' pending' (result ++ [node]).
  Proof.
    intros (Hok & Hnodes & Hedges & Hndp & Hpend & Hndr & Hincl0 & Hbefore)
           Hnode Hnd1 Hp1 Hdeps Hrem Henq.
    pose proof (proj2 (proj2 Hok)) as Hm.
    pose proof (remove_node_ok Hok Hrem) as Hok'.
    pose proof (proj2 (proj2 Hok')) as Hm'.
    destruct (remove_node_spec Hm Hrem) as (Hn' & _).
    pose proof (has_edge_remove_node Hm Hrem) as He'.
    destruct (proj1 (Hpend node) Hnode) as [HnodeR Hsource].
    assert (Hfresh : ~ In node result) by (apply Hnodes; exact HnodeR).
    assert (Hin' : forall n, In n (nodes R') <-> In n (nodes R) /\ n <> node).
    { intros n. rewrite Hn'. apply In_remove_iff. }
    assert (Hdeps' : forall d, In d deps <-> has_edge R node d = true).
    { intros d. apply (successors_has_edge R node deps d Hdeps). }
    assert (Hincl : incl deps (nodes R')).
    { intros d Hd. apply Hdeps' in Hd. apply Hin'. split.
      - apply (edge_nodes R node d Hm Hd).
      - intros ->. rewrite Hsource in Hd. discriminate. }
    destruct (enqueue_spec R' Hm' deps pending1 Hincl) as (q & Hq & Hqin & Hqnd).
    rewrite Henq in Hq. inversion Hq; subst q. clear Hq.
    split; [exact Hok'|]. split; [|split; [|split; [|split; [|split; [|split]]]]].
    - intros n. rewrite Hin', Hnodes, in_app_iff. simpl. intuition.
    - intros a b. rewrite He', Hedges, !in_app_iff. simpl. intuition.
    - auto.
    - intros n. rewrite Hqin, Hp1, Hpend. split.
      + intros [[[HnR Hs] Hne]|[Hd Hs]].
        * split; [apply Hin'; auto|].
          intros p. apply has_edge_false_iff. intros Hc. apply He' in Hc.
          destruct Hc as [Hc _]. rewrite Hs in Hc. discriminate.
        * split; auto.
      + intros [HnR' Hs]. apply Hin' in HnR'. destruct HnR' as [HnR Hne].
        destruct (in_dec eq_dec n deps) as [Hd|Hd]; [right; auto|left].
        split; [split; auto|auto].
        intros p. apply has_edge_false_iff. intros Hc.
        destruct (eq_dec p node) as [->|Hpn].
        * apply Hd, Hdeps', Hc.
        * assert (Hc' : has_edge R' p n = true) by (apply He'; auto).
          rewrite Hs in Hc'. discriminate.
    - apply NoDup_rev in Hndr. rewrite <- (rev_involutive (result ++ [node])).
      apply NoDup_rev. rewrite rev_app_distr. simpl. constructor; auto.
      now rewrite <- in_rev.
    - intros x Hx. apply in_app_iff in Hx. destruct Hx as [Hx|[<-|[]]]; auto.
      now apply Hnodes.
    - intros a b He Hb. apply in_app_iff in Hb. destruct Hb as [Hb|[<-|[]]].
      + apply before_app. auto.
      + apply before_last.
        destruct (in_dec eq_dec a result) as [Ha|Ha]; auto. exfalso.
        assert (Hc : has_edge R a node = true) by (apply Hedges; auto).
        rewrite Hsource in Hc. discriminate.
  Qed.

  (** A node on a cycle is never removed. *)
Lemma sort_inv_path g R pending result :
    sort_inv g R pending result ->
    forall a b, path g a b -> In b result ->
    In a result /\ index_from 0 a result < index_from 0 b result.
  Proof.
    intros (_ & _ & _ & _ & _ & Hndr & _ & Hbefore) a b Hp.
    induction Hp as [a b He|a b c He Hp IH]; intros Hb.
    - pose proof (Hbefore a b He Hb) as Hba. split.
      + apply (before_In a b result Hba).
      + now apply before_index.
    - destruct (IH Hb) as [Hb' Hlt].
      pose proof (Hbefore a b He Hb') as Hba. split.
      + apply (before_In a b result Hba).
      + pose proof (before_index a b result Hndr Hba). lia.
  Qed.

Lemma sort_inv_cyclic g R pending result n :
    sort_inv g R pending result -> path g n n -> ~ In n result.
  Proof.
    intros Hinv Hp Hn. destruct (sort_inv_path g R pending result Hinv n n Hp Hn). lia.
  Qed.

  (** When nothing is pending, an acyclic graph has been removed whole. *)
Lemma sort_inv_done g R result :
    acyclic g -> sort_inv g R [] result -> nodes R = [].
  Proof.
    intros Hacyc (Hok & Hnodes & Hedges & _ & Hpend & _).
    destruct (nodes R) as [|n0 ns] eqn:HR; auto. exfalso.
    pose proof (proj2 (proj2 Hok)) as Hm.
    destruct (no_source_cycle R Hm) as [n Hp].
    - rewrite HR. discriminate.
    - intros n Hn. destruct (source_or_predecessor R n Hm Hn) as [Hs|Hp]; auto.
      exfalso. apply (proj2 (Hpend n)). split; auto. now rewrite <- HR.
    - apply (Hacyc n). apply (path_subgraph g R n n); auto.
      intros x y Hxy. now apply Hedges in Hxy.
  Qed.

Lemma sort_inv_all g R result :
    sort_inv g R [] result -> nodes R = [] ->
    forall n, In n result <-> In n (nodes g).
  Proof.
    intros (Hok & Hnodes & Hedges & _ & _ & Hndr & Hincl & Hbefore) HR n. split.
    - intros Hn. now apply Hincl.
    - intros Hn. destruct (in_dec eq_dec n result) as [|Hnr]; auto.
      exfalso. assert (Hc : In n (nodes R)) by (apply Hnodes; auto).
      rewrite HR in Hc. exact Hc.
  Qed.

Lemma sort_inv_sorted g R result :
    Graph_ok g -> sort_inv g R [] result -> nodes R = [] ->
    is_topologically_sorted (rev result) g = Ok true.
  Proof.
    intros Hg Hinv HR. pose proof (sort_inv_all g R result Hinv HR) as Hall.
    destruct Hinv as (Hok & Hnodes & Hedges & _ & _ & Hndr & Hincl & Hbefore).
    apply sorted_from_true.
    - intros x Hx. apply Hincl. now apply in_rev.
    - intros l1 x l2 y Heq He. right.
      apply (before_split y x l1 l2).
      + rewrite <- Heq. now apply NoDup_rev.
      + rewrite <- Heq. apply before_rev. apply Hbefore; auto.
        apply Hall. apply (edge_nodes g x y); [apply Hg|exact He].
  Qed.
End SortInvariant.

(** ** The store: reading a graph object *)

Section StoreReading.
Context {N E : Type} `{EqDec N}.
Implicit Types (h : Store.store (N:=N) (E:=E)) (g : Store.GraphRef).

Lemma mbind_Ok {A B} (m : Store.M A) (f : A -> Store.M B) h h' a :
    m h = (h', Ok a) -> Store.mbind m f h = f a h'.
  Proof. intros Hm. unfold Store.mbind. now rewrite Hm. Qed.

Lemma mbind_Raise {A B} (m : Store.M A) (f : A -> Store.M B) h h' e :
    m h = (h', Raise e) -> Store.mbind m f h = (h', Raise e).
  Proof. intros Hm. unfold Store.mbind. now rewrite Hm. Qed.

Lemma mbind_read {A B} (m : Store.M A) (f : A -> Store.M B) h (r : result A) :
    m h = (h, r) ->
    Store.mbind m f h =
    match r with
    | Ok a => f a h
    | Raise e => (h, Raise e)
    | OutOfFuel => (h, OutOfFuel)
    end.
  Proof. intros Hm. unfold Store.mbind. rewrite Hm. destruct r; reflexivity. Qed.

Lemma dict_get_index_value h index n :
    dict_get (Store.index_value h index) n =
    option_map (Store.edges_at h) (dict_get (Store.index_at h index) n).
  Proof.
    unfold Store.index_value.
    induction (Store.index_at h index) as [|[k a] l IH]; simpl; auto.
    destruct (eq_dec n k); auto.
  Qed.

Lemma dict_keys_index_value h index :
    dict_keys (Store.index_value h index) = dict_keys (Store.index_at h index).
  Proof.
    unfold Store.index_value, dict_keys. rewrite map_map. reflexivity.
  Qed.

Lemma nodes_graph_at h g :
    nodes (Store.graph_at h g) = dict_keys (Store.index_at h (Store.out_edges_ref g)).
  Proof. unfold nodes. simpl. apply dict_keys_index_value. Qed.

Lemma nodes_read g h : Store.nodes g h = (h, Ok (nodes (Store.graph_at h g))).
  Proof. rewrite nodes_graph_at. reflexivity. Qed.

Lemma edges_of_read index n h :
    Store.edges_of index n h = (h, lookup (dict_get (Store.index_at h index) n)).
  Proof. reflexivity. Qed.

Lemma successors_read g n h :
    Store.mbind (Store.successors g n) Store.view_keys h =
    (h, successors (Store.graph_at h g) n).
  Proof.
    unfold Store.successors, successors. simpl.
    rewrite (mbind_read _ _ h _ (edges_of_read _ n h)).
    rewrite dict_get_index_value.
    destruct (dict_get (Store.index_at h (Store.out_edges_ref g)) n); reflexivity.
  Qed.

Lemma no_predecessors_read g n h :
    Store.no_predecessors g n h = (h, no_predecessors (Store.graph_at h g) n).
  Proof.
    unfold Store.no_predecessors, no_predecessors, Store.predecessors, predecessors.
    simpl. rewrite (mbind_read _ _ h _ (edges_of_read _ n h)).
    rewrite dict_get_index_value.
    destruct (dict_get (Store.index_at h (Store.in_edges_ref g)) n); reflexivity.
  Qed.

Lemma enqueue_read g h : forall deps pending,
    Store.enqueue g deps pending h = (h, enqueue (Store.graph_at h g) deps pending).
  Proof.
    induction deps as [|d deps IH]; intros pending; [reflexivity|].
    cbn [Store.enqueue enqueue].
    rewrite (mbind_read _ _ h _ (no_predecessors_read g d h)).
    destruct (no_predecessors (Store.graph_at h g) d); simpl; auto.
  Qed.

Lemma ready_read g h : forall ns,
    Store.mfilter (Store.no_predecessors g) ns h = (h, ready (Store.graph_at h g) ns).
  Proof.
    induction ns as [|n ns IH]; [reflexivity|].
    cbn [Store.mfilter ready].
    rewrite (mbind_read _ _ h _ (no_predecessors_read g n h)).
    destruct (no_predecessors (Store.graph_at h g) n); simpl; auto.
    rewrite (mbind_read _ _ h _ IH).
    destruct (ready (Store.graph_at h g) ns); reflexivity.
  Qed.

Lemma sorted_from_read g h : forall ns visited,
    Store.sorted_from g visited ns h = (h, sorted_from (Store.graph_at h g) visited ns).
  Proof.
    induction ns as [|n ns IH]; intros visited; [reflexivity|].
    cbn [Store.sorted_from sorted_from].
    unfold Store.successors, successors.
    rewrite (mbind_read _ _ h _ (edges_of_read _ n h)).
    simpl. rewrite dict_get_index_value.
    destruct (dict_get (Store.index_at h (Store.out_edges_ref g)) n) as [a|]; simpl; auto.
    unfold Store.mbind, Store.view_keys, Store.read_edges, Store.ret. simpl.
    destruct (forallb _ _); auto.
  Qed.

Lemma is_topologically_sorted_read g h ns :
    Store.is_topologically_sorted ns g h =
    (h, is_topologically_sorted ns (Store.graph_at h g)).
  Proof. apply sorted_from_read. Qed.
End StoreReading.

(** ** The store: writing to a graph object *)

Section StoreWriting.
Context {N E : Type} `{EqDec N}.
Implicit Types (h : Store.store (N:=N) (E:=E)) (g : Store.GraphRef).

Lemma dict_get_ref_In (index : dict N nat) k a :
    dict_get index k = Some a -> In a (map snd index).
  Proof.
    intros Hg. apply dict_get_Some_In in Hg. change a with (snd (k, a)). now apply in_map.
  Qed.

  (** Writing the dictionary that an index holds for [k] is an assignment
      to [k] in the value of the index, when no dictionary is held twice. *)
Lemma map_override_set (f : nat -> dict N E) (index : dict N nat) k a v :
    NoDup (map snd index) -> dict_get index k = Some a ->
    map (fun entry => (fst entry, Store.override f a v (snd entry))) index =
    dict_set (map (fun entry => (fst entry, f (snd entry))) index) k v.
  Proof.
    unfold Store.override.
    induction index as [|[k' r] index IH]; simpl; [discriminate|].
    intros Hnd Hg. inversion Hnd; subst.
    destruct (eq_dec k k') as [->|Hne].
    - inversion Hg; subst. destruct (Nat.eq_dec a a); [|congruence]. f_equal.
      apply map_ext_in. intros [k r] Hin. simpl.
      destruct (Nat.eq_dec r a); auto. subst. exfalso. apply H2.
      change a with (snd (k, a)). now apply in_map.
    - destruct (Nat.eq_dec r a) as [->|Hra].
      + exfalso. apply H2. eapply dict_get_ref_In; eauto.
      + f_equal. auto.
  Qed.

Lemma map_override_other (f : nat -> dict N E) (index : dict N nat) a v :
    ~ In a (map snd index) ->
    map (fun entry => (fst entry, Store.override f a v (snd entry))) index =
    map (fun entry => (fst entry, f (snd entry))) index.
  Proof.
    intros Hn. apply map_ext_in. intros [k r] Hin. simpl. unfold Store.override.
    destruct (Nat.eq_dec r a); auto. subst. exfalso. apply Hn.
    change a with (snd (k, a)). now apply in_map.
  Qed.

Lemma index_value_ext h h' index :
    Store.index_at h' index = Store.index_at h index ->
    (forall a, In a (map snd (Store.index_at h index)) ->
               Store.edges_at h' a = Store.edges_at h a) ->
    Store.index_value h' index = Store.index_value h index.
  Proof.
    intros Hi He. unfold Store.index_value. rewrite Hi.
    apply map_ext_in. intros [k r] Hin. simpl. f_equal. apply He.
    change r with (snd (k, r)). now apply in_map.
  Qed.

  (** *** [index[other].pop(node, None)] *)

Lemma pop_in_store node index other h v :
    NoDup (map snd (Store.index_at h index)) ->
    pop_in node (Store.index_value h index) other = Ok v ->
    exists h',
      Store.pop_in node index other h = (h', Ok tt) /\
      Store.index_value h' index = v /\
      (forall a, Store.index_at h' a = Store.index_at h a) /\
      Store.next_index h' = Store.next_index h /\
      Store.next_edges h' = Store.next_edges h /\
      (forall a, ~ In a (map snd (Store.index_at h index)) ->
                 Store.edges_at h' a = Store.edges_at h a).
  Proof.
    intros Hnd Hrun. unfold pop_in in Hrun. inv_ok.
    rewrite dict_get_index_value in Ha.
    destruct (dict_get (Store.index_at h index) other) as [r|] eqn:Hr; [|discriminate].
    simpl in Ha. inversion Ha; subst a. clear Ha.
    unfold Store.pop_in.
    rewrite (mbind_read _ _ h _ (edges_of_read index other h)). rewrite Hr. simpl.
    unfold Store.mbind, Store.read_edges, Store.write_edges. simpl.
    eexists. split; [reflexivity|]. simpl.
    split; [|split; [|split; [|split]]]; auto.
    - unfold Store.index_value. simpl. now apply map_override_set.
    - intros a Ha. unfold Store.override. destruct (Nat.eq_dec a r); auto.
      subst. exfalso. apply Ha. eapply dict_get_ref_In; eauto.
  Qed.

Lemma mfor_pop_in_store node index : forall ks h v,
    NoDup (map snd (Store.index_at h index)) ->
    for_each (pop_in node) ks (Store.index_value h index) = Ok v ->
    exists h',
      Store.mfor (Store.pop_in node index) ks h = (h', Ok tt) /\
      Store.index_value h' index = v /\
      (forall a, Store.index_at h' a = Store.index_at h a) /\
      Store.next_index h' = Store.next_index h /\
      Store.next_edges h' = Store.next_edges h /\
      (forall a, ~ In a (map snd (Store.index_at h index)) ->
                 Store.edges_at h' a = Store.edges_at h a).
  Proof.
    induction ks as [|k ks IH]; simpl; intros h v Hnd Hrun.
    - inv_ok. exists h. unfold Store.ret. repeat split; auto.
    - inv_ok. rename a into v1.
      destruct (pop_in_store node index k h v1 Hnd Ha)
        as (h1 & Hs1 & Hv1 & Hi1 & Hni1 & Hne1 & Hf1).
      rewrite <- Hv1 in Hrun.
      destruct (IH h1 v) as (h' & Hs & Hv & Hi & Hni & Hne & Hf); auto.
      { now rewrite Hi1. }
      exists h'. rewrite (mbind_Ok _ _ h h1 tt Hs1).
      split; [exact Hs|]. split; [exact Hv|].
      split; [|split; [|split]].
      + intros a. now rewrite Hi, Hi1.
      + congruence.
      + congruence.
      + intros a Ha'. rewrite Hf by (rewrite Hi1; exact Ha'). now apply Hf1.
  Qed.

  (** *** [index.pop(node)] *)

Lemma dict_pop_map (f : nat -> dict N E) (index : dict N nat) n :
    map (fun entry => (fst entry, f (snd entry))) (dict_pop index n) =
    dict_pop (map (fun entry => (fst entry, f (snd entry))) index) n.
  Proof.
    induction index as [|[k r] index IH]; simpl; auto.
    destruct (eq_dec n k); simpl; congruence.
  Qed.

Lemma index_pop_store index n h x :
    dict_get (Store.index_value h index) n = Some x ->
    exists h',
      Store.index_pop index n h = (h', Ok tt) /\
      Store.index_value h' index = dict_pop (Store.index_value h index) n /\
      Store.index_at h' index = dict_pop (Store.index_at h index) n /\
      (forall a, a <> index -> Store.index_at h' a = Store.index_at h a) /\
      (forall a, Store.edges_at h' a = Store.edges_at h a) /\
      Store.next_index h' = Store.next_index h /\
      Store.next_edges h' = Store.next_edges h.
  Proof.
    intros Hg. rewrite dict_get_index_value in Hg.
    destruct (dict_get (Store.index_at h index) n) as [r|] eqn:Hr; [|discriminate].
    unfold Store.index_pop, Store.mbind, Store.read_index, Store.lift, Store.write_index.
    simpl. rewrite Hr. simpl. eexists. split; [reflexivity|]. simpl.
    assert (Hov : Store.override (Store.index_at h) index
                    (dict_pop (Store.index_at h index) n) index
                  = dict_pop (Store.index_at h index) n).
    { unfold Store.override. destruct (Nat.eq_dec index index); congruence. }
    split; [|split; [|split; [|split; [|split]]]]; auto.
    - unfold Store.index_value. simpl. rewrite Hov. apply dict_pop_map.
    - intros a Ha. unfold Store.override. destruct (Nat.eq_dec a index); congruence.
  Qed.
End StoreWriting.

(** ** The store: [remove_node] *)

Section StoreRemoveNode.
Context {N E : Type} `{EqDec N}.
Implicit Types (h : Store.store (N:=N) (E:=E)) (g r : Store.GraphRef).

Lemma NoDup_app_disjoint {A} (l l' : list A) a :
    NoDup (l ++ l') -> In a l -> ~ In a l'.
  Proof.
    induction l as [|x l IH]; simpl; [tauto|].
    intros Hnd [<-|Hin] Hin'.
    - inversion Hnd; subst. apply H2. apply in_app_iff. auto.
    - inversion Hnd; subst. now apply IH.
  Qed.

Lemma In_refs_pop (index : dict N nat) n a :
    In a (map snd (dict_pop index n)) -> In a (map snd index).
  Proof.
    induction index as [|[k r] index IH]; simpl; auto.
    destruct (eq_dec n k); simpl; tauto.
  Qed.

Lemma NoDup_refs_pop (index : dict N nat) n :
    NoDup (map snd index) -> NoDup (map snd (dict_pop index n)).
  Proof.
    induction index as [|[k r] index IH]; simpl; auto.
    intros Hnd. inversion Hnd; subst. destruct (eq_dec n k); simpl; auto.
    constructor; auto. intros Hin. apply H2. eapply In_refs_pop; eauto.
  Qed.

Lemma predecessors_read g n h :
    Store.mbind (Store.predecessors g n) Store.view_keys h =
    (h, predecessors (Store.graph_at h g) n).
  Proof.
    unfold Store.predecessors, predecessors. simpl.
    rewrite (mbind_read _ _ h _ (edges_of_read _ n h)).
    rewrite dict_get_index_value.
    destruct (dict_get (Store.index_at h (Store.in_edges_ref g)) n); reflexivity.
  Qed.

Lemma remove_node_store r n h R' :
    Store.separate h r -> remove_node (Store.graph_at h r) n = Ok R' ->
    exists h',
      Store.remove_node r n h = (h', Ok tt) /\
      Store.graph_at h' r = R' /\
      Store.separate h' r /\
      incl (Store.edges_refs h' r) (Store.edges_refs h r) /\
      (forall a, ~ In a (Store.edges_refs h r) ->
                 Store.edges_at h' a = Store.edges_at h a) /\
      (forall a, a <> Store.out_edges_ref r -> a <> Store.in_edges_ref r ->
                 Store.index_at h' a = Store.index_at h a) /\
      Store.next_index h' = Store.next_index h /\
      Store.next_edges h' = Store.next_edges h /\
      (forall a, dict_get (Store.index_at h (Store.out_edges_ref r)) n = Some a ->
                 predecessors (Store.graph_at h r) n = Ok [] ->
                 Store.edges_at h' a = Store.edges_at h a).
  Proof.
    intros (Hne & Hob & Hib & Hnd & Hbound) Hrun.
    pose proof (successors_read r n h) as Hsucc.
    pose proof (predecessors_read r n h) as Hpred.
    unfold successors in Hsucc. unfold predecessors in Hpred.
    unfold remove_node in Hrun. inv_ok.
    rename a into oe, a0 into ie, a1 into ins, a2 into outs, a3 into x, a4 into y.
    rewrite Ha in Hsucc. rewrite Ha0 in Hpred. simpl in Hsucc, Hpred.
    simpl in Ha, Ha0, Ha1, Ha2.
    set (o := Store.out_edges_ref r) in *. set (i := Store.in_edges_ref r) in *.
    unfold Store.edges_refs in *. fold o i in Hnd, Hbound |- *.
    pose proof (NoDup_app_remove_r _ _ Hnd) as Hndo.
    pose proof (NoDup_app_remove_l _ _ Hnd) as Hndi.
    (* the predecessor dictionaries of the successors *)
    destruct (mfor_pop_in_store n i (dict_keys oe) h ins Hndi Ha1)
      as (h1 & Hs1 & Hv1 & Hi1 & Hni1 & Hne1 & Hf1).
    assert (Hvo1 : Store.index_value h1 o = Store.index_value h o).
    { apply index_value_ext; auto. intros a Hin. apply Hf1.
      now apply (NoDup_app_disjoint _ _ a Hnd). }
    (* the successor dictionaries of the predecessors *)
    rewrite <- Hvo1 in Ha2.
    assert (Hndo1 : NoDup (map snd (Store.index_at h1 o))) by (now rewrite Hi1).
    destruct (mfor_pop_in_store n o (dict_keys ie) h1 outs Hndo1 Ha2)
      as (h2 & Hs2 & Hv2 & Hi2 & Hni2 & Hne2 & Hf2).
    assert (Hvi2 : Store.index_value h2 i = ins).
    { rewrite <- Hv1. apply index_value_ext; auto. intros a Hin. apply Hf2.
      rewrite Hi1. rewrite Hi1 in Hin. intros Hin'.
      now apply (NoDup_app_disjoint _ _ a Hnd Hin'). }
    (* the two indices *)
    rewrite <- Hv2 in Ha3.
    destruct (index_pop_store o n h2 x Ha3)
      as (h3 & Hs3 & Hv3 & Hx3 & Hi3 & He3 & Hni3 & Hne3).
    assert (Hvi3 : Store.index_value h3 i = ins).
    { rewrite <- Hvi2. apply index_value_ext; auto. }
    rewrite <- Hvi3 in Ha4.
    destruct (index_pop_store i n h3 y Ha4)
      as (h4 & Hs4 & Hv4 & Hx4 & Hi4 & He4 & Hni4 & Hne4).
    assert (Hio4 : Store.index_at h4 o = dict_pop (Store.index_at h o) n).
    { rewrite Hi4 by auto. rewrite Hx3, Hi2, Hi1. reflexivity. }
    assert (Hii4 : Store.index_at h4 i = dict_pop (Store.index_at h i) n).
    { rewrite Hx4, Hi3 by auto. rewrite Hi2, Hi1. reflexivity. }
    exists h4. split; [|split; [|split; [|split; [|split; [|split; [|split; [|split]]]]]]].
    - unfold Store.remove_node. fold o i.
      rewrite (mbind_read _ _ h _ Hsucc). rewrite (mbind_read _ _ h _ Hpred).
      rewrite (mbind_Ok _ _ h h1 tt Hs1). rewrite (mbind_Ok _ _ h1 h2 tt Hs2).
      rewrite (mbind_Ok _ _ h2 h3 tt Hs3). exact Hs4.
    - unfold Store.graph_at. fold o i. f_equal.
      + rewrite <- Hv2, <- Hv3. apply index_value_ext; auto.
      + rewrite Hv4. now rewrite Hvi3.
    - split; [exact Hne|]. split; [|split; [|split]].
      + fold o. congruence.
      + fold i. congruence.
      + unfold Store.edges_refs. fold o i. rewrite Hio4, Hii4.
        apply NoDup_app; auto using NoDup_refs_pop.
        intros a Ha' Hb'. apply In_refs_pop in Ha', Hb'.
        now apply (NoDup_app_disjoint _ _ a Hnd Ha').
      + intros a Ha'. unfold Store.edges_refs in Ha'. fold o i in Ha'.
        rewrite Hio4, Hii4 in Ha'. rewrite Hne4, Hne3, Hne2, Hne1. apply Hbound.
        apply in_app_iff in Ha'. apply in_app_iff.
        destruct Ha' as [Ha'|Ha']; apply In_refs_pop in Ha'; auto.
    - unfold Store.edges_refs. fold o i. rewrite Hio4, Hii4.
      intros a Ha'. apply in_app_iff in Ha'. apply in_app_iff.
      destruct Ha' as [Ha'|Ha']; apply In_refs_pop in Ha'; auto.
    - intros a Ha'. rewrite in_app_iff in Ha'.
      rewrite He4, He3, Hf2, Hf1; auto.
      rewrite Hi1. tauto.
    - intros a Hao Hai. rewrite Hi4, Hi3, Hi2, Hi1; auto.
    - congruence.
    - congruence.
    - intros a Hga Hnone. rewrite He4, He3.
      unfold predecessors in Hnone. simpl in Hnone. fold i in Hnone.
      rewrite Ha0 in Hnone. simpl in Hnone. inversion Hnone as [Hkeys].
      rewrite Hkeys in Hs2. simpl in Hs2. unfold Store.ret in Hs2.
      inversion Hs2; subst h2. apply Hf1.
      apply (NoDup_app_disjoint _ _ a Hnd). eapply dict_get_ref_In; eauto.
  Qed.
End StoreRemoveNode.

(** ** The store: [copy] *)

Section StoreCopy.
Context {N E : Type} `{EqDec N}.
Implicit Types (h : Store.store (N:=N) (E:=E)) (g c : Store.GraphRef).

Lemma unchanged_refl h : Store.unchanged h h.
  Proof. split; auto. Qed.

Lemma unchanged_graph_at h0 h g :
    Store.separate h0 g -> Store.unchanged h0 h ->
    Store.graph_at h g = Store.graph_at h0 g /\
    Store.index_at h (Store.out_edges_ref g) = Store.index_at h0 (Store.out_edges_ref g) /\
    Store.index_at h (Store.in_edges_ref g) = Store.index_at h0 (Store.in_edges_ref g).
  Proof.
    intros (_ & Ho & Hi & _ & Hb) (Hui & Hue).
    assert (Hio := Hui _ Ho). assert (Hii := Hui _ Hi).
    split; [|auto]. unfold Store.graph_at. f_equal.
    - apply index_value_ext; auto. intros a Ha. apply Hue, Hb.
      unfold Store.edges_refs. apply in_app_iff. auto.
    - apply index_value_ext; auto. intros a Ha. apply Hue, Hb.
      unfold Store.edges_refs. apply in_app_iff. auto.
  Qed.

  (** *** [index.setdefault(node, {})] *)

Lemma index_setdefault_store index node h :
    (forall r, In r (map snd (Store.index_at h index)) -> r < Store.next_edges h) ->
    exists h',
      Store.index_setdefault index node h = (h', Ok tt) /\
      Store.index_value h' index = dict_setdefault (Store.index_value h index) node [] /\
      Store.index_at h' index =
        dict_setdefault (Store.index_at h index) node (Store.next_edges h) /\
      (forall b, b <> index -> Store.index_at h' b = Store.index_at h b) /\
      (forall b, b <> Store.next_edges h -> Store.edges_at h' b = Store.edges_at h b) /\
      Store.edges_at h' (Store.next_edges h) = [] /\
      Store.next_index h' = Store.next_index h /\
      Store.next_edges h' = S (Store.next_edges h).
  Proof.
    intros Hb. eexists. split; [reflexivity|]. simpl.
    assert (Hov : forall d, Store.override (Store.index_at h) index d index = d).
    { intros d. unfold Store.override. destruct (Nat.eq_dec index index); congruence. }
    assert (Hnew : Store.override (Store.edges_at h) (Store.next_edges h) []
                     (Store.next_edges h) = []).
    { unfold Store.override. destruct (Nat.eq_dec _ _); congruence. }
    split; [|split; [|split; [|split; [|split]]]]; auto.
    - unfold Store.index_value at 1. simpl. rewrite Hov.
      unfold dict_setdefault, dict_contains. rewrite dict_get_index_value.
      assert (Hold : map (fun entry => (fst entry,
                            Store.override (Store.edges_at h) (Store.next_edges h) []
                              (snd entry))) (Store.index_at h index)
                     = Store.index_value h index).
      { apply map_override_other. intros Hin. apply Hb in Hin. lia. }
      destruct (dict_get (Store.index_at h index) node); simpl; auto.
      rewrite map_app. simpl. rewrite Hnew. f_equal. exact Hold.
    - intros b Hne. unfold Store.override. destruct (Nat.eq_dec b index); congruence.
    - intros b Hne. unfold Store.override. destruct (Nat.eq_dec _ _); congruence.
  Qed.

  (** *** [self_index[node].update(other_index[node])] *)

Lemma update_edges_store self_index other_index node h m t :
    NoDup (map snd (Store.index_at h self_index)) ->
    dict_get (Store.index_at h self_index) node = Some m ->
    dict_get (Store.index_at h other_index) node = Some t ->
    exists h',
      Store.update_edges self_index other_index node h = (h', Ok tt) /\
      Store.index_value h' self_index =
        dict_set (Store.index_value h self_index) node
                 (dict_update (Store.edges_at h m) (Store.edges_at h t)) /\
      (forall b, Store.index_at h' b = Store.index_at h b) /\
      (forall b, b <> m -> Store.edges_at h' b = Store.edges_at h b) /\
      Store.next_index h' = Store.next_index h /\
      Store.next_edges h' = Store.next_edges h.
  Proof.
    intros Hnd Hm Ht. unfold Store.update_edges.
    rewrite (mbind_read _ _ h _ (edges_of_read self_index node h)). rewrite Hm. simpl.
    rewrite (mbind_read _ _ h _ (edges_of_read other_index node h)). rewrite Ht. simpl.
    eexists. split; [reflexivity|]. simpl.
    split; [|split; [|split]]; auto.
    - unfold Store.index_value. simpl. now apply map_override_set.
    - intros b Hne. unfold Store.override. destruct (Nat.eq_dec b m); congruence.
  Qed.
End StoreCopy.

Section StoreUpdate.
Context {N E : Type} `{EqDec N}.
Implicit Types (h : Store.store (N:=N) (E:=E)) (g c : Store.GraphRef).

Lemma refs_setdefault (d : dict N nat) node a x :
    In x (map snd (dict_setdefault d node a)) -> In x (map snd d) \/ x = a.
  Proof.
    unfold dict_setdefault. destruct (dict_contains d node); auto.
    rewrite map_app, in_app_iff. simpl. intuition.
  Qed.

Lemma NoDup_refs_setdefault (d : dict N nat) node a :
    NoDup (map snd d) -> ~ In a (map snd d) ->
    NoDup (map snd (dict_setdefault d node a)).
  Proof.
    intros Hnd Ha. unfold dict_setdefault. destruct (dict_contains d node); auto.
    rewrite map_app. simpl. apply NoDup_app; auto.
    - constructor; [simpl; tauto|constructor].
    - intros x Hx [<-|[]]. auto.
  Qed.

Lemma dict_get_ref h index node (edges : dict N E) :
    dict_get (Store.index_value h index) node = Some edges ->
    exists r, dict_get (Store.index_at h index) node = Some r /\
              Store.edges_at h r = edges.
  Proof.
    rewrite dict_get_index_value.
    destruct (dict_get (Store.index_at h index) node) as [r|]; [|discriminate].
    simpl. intros Heq. inversion Heq. eauto.
  Qed.

  (** The body of the loop of [update], when [self] is a graph made after
      [h0] and [other] is a graph of [h0]. *)
Lemma update_node_store h0 g c node h self' :
    Store.separate h0 g -> Store.unchanged h0 h ->
    Store.made_after h0 h c -> Store.separate h c ->
    Store.next_edges h0 <= Store.next_edges h ->
    update_node (Store.graph_at h0 g) (Store.graph_at h c) node = Ok self' ->
    exists h',
      Store.mbind (Store.add_node c node)
        (fun _ => Store.mbind
           (Store.update_edges (Store.out_edges_ref c) (Store.out_edges_ref g) node)
           (fun _ => Store.update_edges (Store.in_edges_ref c) (Store.in_edges_ref g) node))
        h = (h', Ok tt) /\
      Store.graph_at h' c = self' /\
      Store.unchanged h0 h' /\ Store.made_after h0 h' c /\ Store.separate h' c /\
      Store.next_edges h0 <= Store.next_edges h'.
  Proof.
    intros Hsg (Hui & Hue) (Hmo & Hmi & Hmr) (Hne & Hob & Hib & Hnd & Hbound) Hnext Hrun.
    pose proof Hsg as (_ & Hgo & Hgi & _ & Hgb).
    set (co := Store.out_edges_ref c) in *. set (ci := Store.in_edges_ref c) in *.
    set (go := Store.out_edges_ref g) in *. set (gi := Store.in_edges_ref g) in *.
    unfold Store.edges_refs in *. fold co ci in Hnd, Hbound, Hmr. fold go gi in Hgb.
    assert (Hbo : forall r, In r (map snd (Store.index_at h co)) -> r < Store.next_edges h).
    { intros r Hr. apply Hbound, in_app_iff. auto. }
    assert (Hbi : forall r, In r (map snd (Store.index_at h ci)) -> r < Store.next_edges h).
    { intros r Hr. apply Hbound, in_app_iff. auto. }
    unfold update_node in Hrun. inv_ok.
    rename a into mine_o, a0 into theirs_o, a1 into mine_i, a2 into theirs_i.
    simpl in Ha, Ha0, Ha1, Ha2. fold co in Ha. fold ci in Ha1. fold go in Ha0. fold gi in Ha2.
    (* add_node *)
    destruct (index_setdefault_store co node h Hbo)
      as (h1 & Hs1 & Hv1 & Hx1 & Hi1 & He1 & Hnew1 & Hni1 & Hne1).
    assert (Hbi1 : forall r, In r (map snd (Store.index_at h1 ci)) -> r < Store.next_edges h1).
    { intros r Hr. rewrite Hi1 in Hr by auto. apply Hbi in Hr. lia. }
    destruct (index_setdefault_store ci node h1 Hbi1)
      as (h2 & Hs2 & Hv2 & Hx2 & Hi2 & He2 & Hnew2 & Hni2 & Hne2).
    set (a1 := Store.next_edges h) in *. set (a2 := Store.next_edges h1) in *.
    assert (Ha12 : a2 = S a1) by exact Hne1.
    assert (Hio2 : Store.index_at h2 co = dict_setdefault (Store.index_at h co) node a1).
    { rewrite Hi2 by auto. exact Hx1. }
    assert (Hii2 : Store.index_at h2 ci = dict_setdefault (Store.index_at h ci) node a2).
    { rewrite Hx2, Hi1 by auto. reflexivity. }
    assert (Hro : forall r, In r (map snd (Store.index_at h2 co)) ->
                            Store.next_edges h0 <= r <= a1).
    { intros r Hr. rewrite Hio2 in Hr. apply refs_setdefault in Hr. destruct Hr as [Hr| ->].
      - split; [apply Hmr, in_app_iff; auto|]. apply Hbo in Hr. lia.
      - lia. }
    assert (Hri : forall r, In r (map snd (Store.index_at h2 ci)) ->
                            Store.next_edges h0 <= r <= a2 /\ r <> a1).
    { intros r Hr. rewrite Hii2 in Hr. apply refs_setdefault in Hr. destruct Hr as [Hr| ->].
      - split; [split; [apply Hmr, in_app_iff; auto|]|]; apply Hbi in Hr; lia.
      - lia. }
    assert (Hnd2 : NoDup (map snd (Store.index_at h2 co) ++ map snd (Store.index_at h2 ci))).
    { apply NoDup_app.
      - rewrite Hio2. apply NoDup_refs_setdefault.
        + exact (NoDup_app_remove_r _ _ Hnd).
        + intros Hin. apply Hbo in Hin. lia.
      - rewrite Hii2. apply NoDup_refs_setdefault.
        + exact (NoDup_app_remove_l _ _ Hnd).
        + intros Hin. apply Hbi in Hin. lia.
      - intros r Hr Hr'. pose proof (Hri r Hr') as [_ Hr1].
        rewrite Hio2 in Hr. rewrite Hii2 in Hr'.
        apply refs_setdefault in Hr, Hr'.
        destruct Hr as [Hr|Hr]; [|congruence].
        destruct Hr' as [Hr'| ->].
        + exact (NoDup_app_disjoint _ _ r Hnd Hr Hr').
        + apply Hbo in Hr. lia. }
    assert (Hvo2 : Store.index_value h2 co =
                   dict_setdefault (Store.index_value h co) node []).
    { rewrite <- Hv1. apply index_value_ext; [now apply Hi2|].
      intros r Hr. apply He2. rewrite <- (Hi2 co) in Hr by auto.
      apply Hro in Hr. lia. }
    assert (Hvi2 : Store.index_value h2 ci =
                   dict_setdefault (Store.index_value h ci) node []).
    { rewrite Hv2. f_equal. apply index_value_ext; [now apply Hi1|].
      intros r Hr. apply He1. apply Hbi in Hr. lia. }
    (* the graph of [h0] is as it was *)
    assert (Hgne : go <> co /\ go <> ci /\ gi <> co /\ gi <> ci) by lia.
    assert (Hg2o : Store.index_at h2 go = Store.index_at h0 go).
    { rewrite Hi2, Hi1 by tauto. now apply Hui. }
    assert (Hg2i : Store.index_at h2 gi = Store.index_at h0 gi).
    { rewrite Hi2, Hi1 by tauto. now apply Hui. }
    assert (Hold2 : forall r, r < Store.next_edges h0 ->
                              Store.edges_at h2 r = Store.edges_at h0 r).
    { intros r Hr. rewrite He2, He1 by lia. now apply Hue. }
    (* the successors *)
    rewrite <- Hvo2 in Ha. apply dict_get_ref in Ha. destruct Ha as (mo & Hmo' & Hmo_v).
    apply dict_get_ref in Ha0. destruct Ha0 as (to & Hto & Hto_v).
    assert (Hto_b : to < Store.next_edges h0).
    { apply Hgb, in_app_iff. left. eapply dict_get_ref_In; eauto. }
    rewrite <- Hg2o in Hto.
    destruct (update_edges_store co go node h2 mo to
                (NoDup_app_remove_r _ _ Hnd2) Hmo' Hto)
      as (h3 & Hs3 & Hv3 & Hi3 & He3 & Hni3 & Hne3).
    assert (Hmo_r : In mo (map snd (Store.index_at h2 co))).
    { eapply dict_get_ref_In; eauto. }
    assert (Hvi3 : Store.index_value h3 ci = Store.index_value h2 ci).
    { apply index_value_ext; auto. intros r Hr. apply He3. intros ->.
      exact (NoDup_app_disjoint _ _ mo Hnd2 Hmo_r Hr). }
    (* the predecessors *)
    rewrite <- Hvi2, <- Hvi3 in Ha1. apply dict_get_ref in Ha1.
    destruct Ha1 as (mi & Hmi' & Hmi_v).
    apply dict_get_ref in Ha2. destruct Ha2 as (ti & Hti & Hti_v).
    assert (Hti_b : ti < Store.next_edges h0).
    { apply Hgb, in_app_iff. right. eapply dict_get_ref_In; eauto. }
    rewrite <- Hg2i, <- Hi3 in Hti.
    assert (Hnd3 : NoDup (map snd (Store.index_at h3 ci))).
    { rewrite Hi3. exact (NoDup_app_remove_l _ _ Hnd2). }
    destruct (update_edges_store ci gi node h3 mi ti Hnd3 Hmi' Hti)
      as (h4 & Hs4 & Hv4 & Hi4 & He4 & Hni4 & Hne4).
    assert (Hmi_r : In mi (map snd (Store.index_at h2 ci))).
    { rewrite <- Hi3. eapply dict_get_ref_In; eauto. }
    assert (Hvo4 : Store.index_value h4 co = Store.index_value h3 co).
    { apply index_value_ext; auto. intros r Hr. apply He4. intros ->.
      rewrite Hi3 in Hr. exact (NoDup_app_disjoint _ _ mi Hnd2 Hr Hmi_r). }
    assert (Hmo_b := Hro mo Hmo_r). assert (Hmi_b := Hri mi Hmi_r).
    exists h4. split; [|split; [|split; [|split; [|split]]]].
    - unfold Store.add_node. fold co ci.
      unfold Store.mbind at 1. unfold Store.mbind at 1.
      rewrite Hs1, Hs2.
      rewrite (mbind_Ok _ _ h2 h3 tt Hs3). exact Hs4.
    - unfold Store.graph_at. fold co ci. rewrite Hvo4, Hv3, Hv4, Hvi3.
      rewrite Hvo2, Hvi2, Hmo_v, Hmi_v.
      rewrite (Hold2 to) by lia. rewrite (He3 ti) by lia. rewrite (Hold2 ti) by lia.
      rewrite Hto_v, Hti_v. reflexivity.
    - split.
      + intros a Hlt. rewrite Hi4, Hi3, Hi2, Hi1 by lia. now apply Hui.
      + intros a Hlt. rewrite He4, He3 by lia. now apply Hold2.
    - split; [exact Hmo|]. split; [exact Hmi|].
      unfold Store.edges_refs. fold co ci. intros a Hin.
      rewrite !Hi4, !Hi3 in Hin. apply in_app_iff in Hin.
      destruct Hin as [Hin|Hin]; [apply Hro in Hin|apply Hri in Hin]; lia.
    - split; [exact Hne|]. split; [|split; [|split]].
      + fold co. lia.
      + fold ci. lia.
      + unfold Store.edges_refs. fold co ci. rewrite !Hi4, !Hi3. exact Hnd2.
      + unfold Store.edges_refs. fold co ci. intros a Hin.
        rewrite !Hi4, !Hi3 in Hin. apply in_app_iff in Hin.
        destruct Hin as [Hin|Hin]; [apply Hro in Hin|apply Hri in Hin]; lia.
    - lia.
  Qed.
End StoreUpdate.

Section StoreCopyLoop.
Context {N E : Type} `{EqDec N}.
Implicit Types (h : Store.store (N:=N) (E:=E)) (g c : Store.GraphRef).

Lemma update_loop_store h0 g c : forall ns h self',
    Store.separate h0 g -> Store.unchanged h0 h ->
    Store.made_after h0 h c -> Store.separate h c ->
    Store.next_edges h0 <= Store.next_edges h ->
    for_each (update_node (Store.graph_at h0 g)) ns (Store.graph_at h c) = Ok self' ->
    exists h',
      Store.mfor
        (fun node =>
           Store.mbind (Store.add_node c node)
             (fun _ => Store.mbind
                (Store.update_edges (Store.out_edges_ref c) (Store.out_edges_ref g) node)
                (fun _ => Store.update_edges (Store.in_edges_ref c)
                                             (Store.in_edges_ref g) node)))
        ns h = (h', Ok tt) /\
      Store.graph_at h' c = self' /\
      Store.unchanged h0 h' /\ Store.made_after h0 h' c /\ Store.separate h' c /\
      Store.next_edges h0 <= Store.next_edges h'.
  Proof.
    induction ns as [|n ns IH]; simpl; intros h self' Hsg Hun Hma Hsc Hnext Hrun.
    - inv_ok. exists h. unfold Store.ret. repeat split; auto; apply Hun || apply Hma || apply Hsc.
    - inv_ok. rename a into self1.
      destruct (update_node_store h0 g c n h self1 Hsg Hun Hma Hsc Hnext Ha)
        as (h1 & Hs1 & Hv1 & Hun1 & Hma1 & Hsc1 & Hnext1).
      rewrite <- Hv1 in Hrun.
      destruct (IH h1 self' Hsg Hun1 Hma1 Hsc1 Hnext1 Hrun)
        as (h' & Hs & Hv & Hun' & Hma' & Hsc' & Hnext').
      exists h'. split; [|auto].
      rewrite (mbind_Ok _ _ h h1 tt Hs1). exact Hs.
  Qed.

  (** [copy] makes a graph object of new dictionaries with the value that
      [copy] has on the value of the graph, and leaves every object there
      was as it is. *)
Lemma copy_store h0 g C :
    Store.separate h0 g -> copy (Store.graph_at h0 g) = Ok C ->
    exists h' c,
      Store.copy g h0 = (h', Ok c) /\
      Store.graph_at h' c = C /\
      Store.unchanged h0 h' /\ Store.made_after h0 h' c /\ Store.separate h' c.
  Proof.
    intros Hsg Hrun. unfold copy, update in Hrun.
    set (n := Store.next_index h0).
    set (c := Store.mkRef n (S n)).
    set (hA := Store.mkStore
                 (Store.override (Store.override (Store.index_at h0) n []) (S n) [])
                 (Store.edges_at h0) (S (S n)) (Store.next_edges h0)).
    assert (Hinit : Store.Graph_init h0 = (hA, Ok c)) by reflexivity.
    assert (Hco : Store.index_at hA n = []).
    { simpl. unfold Store.override.
      destruct (Nat.eq_dec n (S n)); [lia|]. destruct (Nat.eq_dec n n); congruence. }
    assert (Hci : Store.index_at hA (S n) = []).
    { simpl. unfold Store.override. destruct (Nat.eq_dec (S n) (S n)); congruence. }
    assert (Hun : Store.unchanged h0 hA).
    { split; auto. intros a Ha. simpl. unfold Store.override. fold n in Ha.
      destruct (Nat.eq_dec a (S n)); [lia|]. destruct (Nat.eq_dec a n); [lia|]. reflexivity. }
    assert (Hrefs : Store.edges_refs hA c = []).
    { unfold Store.edges_refs. simpl Store.out_edges_ref. simpl Store.in_edges_ref.
      now rewrite Hco, Hci. }
    assert (Hma : Store.made_after h0 hA c).
    { split; [simpl; lia|]. split; [simpl; fold n; lia|].
      intros a Ha. rewrite Hrefs in Ha. destruct Ha. }
    assert (Hsc : Store.separate hA c).
    { split; [simpl; lia|]. split; [simpl; lia|]. split; [simpl; lia|].
      rewrite Hrefs. split; [constructor|]. intros a []. }
    assert (Hval : Store.graph_at hA c = Graph_init).
    { unfold Store.graph_at, Store.index_value. simpl Store.out_edges_ref.
      simpl Store.in_edges_ref. now rewrite Hco, Hci. }
    destruct (unchanged_graph_at h0 hA g Hsg Hun) as (HgA & _ & _).
    rewrite <- Hval in Hrun.
    destruct (update_loop_store h0 g c (nodes (Store.graph_at h0 g)) hA C
                Hsg Hun Hma Hsc (Nat.le_refl _) Hrun)
      as (h' & Hs & Hv & Hun' & Hma' & Hsc' & _).
    exists h', c. split; [|auto].
    assert (Hupd : Store.update c g hA = (h', Ok tt)).
    { unfold Store.update.
      rewrite (mbind_read _ _ hA _ (nodes_read g hA)). rewrite HgA. exact Hs. }
    unfold Store.copy. rewrite (mbind_Ok _ _ h0 hA c Hinit).
    rewrite (mbind_Ok _ _ hA h' tt Hupd). reflexivity.
  Qed.
End StoreCopyLoop.

(** ** The loop of the sort *)

Section SortLoop.
Context {N E : Type} `{EqDec N}.
Implicit Types (h : Store.store (N:=N) (E:=E)) (g r : Store.GraphRef).
Implicit Types (G R : Graph N E).

Lemma source_predecessors R n :
    mirror R -> In n (nodes R) -> (forall p, has_edge R p n = false) ->
    predecessors R n = Ok [].
  Proof.
    intros Hm Hn Hs. apply (mirror_nodes_in R n Hm) in Hn.
    apply dict_get_In_keys in Hn. destruct Hn as [edges Hedges].
    assert (Hp : predecessors R n = Ok (dict_keys edges)).
    { apply predecessors_Ok. eauto. }
    destruct (dict_keys edges) as [|p ps]; [exact Hp|]. exfalso.
    assert (Hc : has_edge R p n = true).
    { apply (predecessors_has_edge R n (p :: ps) p Hm Hp). simpl; auto. }
    rewrite Hs in Hc. discriminate.
  Qed.

Lemma sorted_last key (pending : list N) :
    pending <> [] -> NoDup pending ->
    exists node pending1,
      pop_last (sorted key pending) = Some (node, pending1) /\
      sorted key pending = pending1 ++ [node] /\
      In node pending /\ NoDup pending1 /\
      (forall x, In x pending1 <-> In x pending /\ x <> node).
  Proof.
    intros Hne Hnd.
    destruct (pop_last (sorted key pending)) as [[node pending1]|] eqn:Hpop.
    - pose proof (pop_last_Some _ _ _ Hpop) as Heq.
      pose proof (NoDup_sorted key pending Hnd) as Hnds. rewrite Heq in Hnds.
      assert (Hn1 : ~ In node pending1).
      { apply NoDup_remove_2 in Hnds. now rewrite app_nil_r in Hnds. }
      exists node, pending1. split; [reflexivity|]. split; [exact Heq|].
      split; [|split].
      + apply (In_sorted key). rewrite Heq. apply in_app_iff. simpl; auto.
      + exact (NoDup_app_remove_r _ _ Hnds).
      + intros x. rewrite <- (In_sorted key x pending), Heq, in_app_iff. simpl.
        split; [intros Hx; split; auto; congruence|]. intros [[?|[?|[]]] ?]; congruence.
    - apply pop_last_None in Hpop. exfalso.
      pose proof (length_sorted key pending) as Hlen. rewrite Hpop in Hlen.
      destruct pending; [congruence|discriminate].
  Qed.

  (** One turn of the loop. *)
Lemma sort_iteration key h0 h r G pending result :
    Store.separate h r -> Store.made_after h0 h r -> Store.unchanged h0 h ->
    sort_inv G (Store.graph_at h r) pending result ->
    pending <> [] ->
    exists node pending1 deps pending' h1,
      sorted key pending = pending1 ++ [node] /\
      successors (Store.graph_at h r) node = Ok deps /\
      enqueue (Store.graph_at h1 r) deps pending1 = Ok pending' /\
      Store.separate h1 r /\ Store.made_after h0 h1 r /\ Store.unchanged h0 h1 /\
      sort_inv G (Store.graph_at h1 r) pending' (result ++ [node]) /\
      length (nodes (Store.graph_at h1 r)) < length (nodes (Store.graph_at h r)) /\
      forall fuel,
        Store.sort_loop (S fuel) key r pending result h =
        Store.sort_loop fuel key r pending' (result ++ [node]) h1.
  Proof.
    intros Hsep Hma Hun Hinv Hne.
    set (R := Store.graph_at h r) in *.
    pose proof Hinv as (Hok & Hnodes & Hedges & Hndp & Hpend & Hndr & Hincl & Hbefore).
    pose proof (proj2 (proj2 Hok)) as Hm.
    destruct (sorted_last key pending Hne Hndp)
      as (node & pending1 & Hpop & Hsorted & Hnode & Hnd1 & Hp1).
    destruct (proj1 (Hpend node) Hnode) as [HnodeR Hsource].
    destruct (remove_node_Ok R node Hm HnodeR) as [R' Hrem].
    destruct (successors_node R node HnodeR) as [deps Hdeps].
    pose proof (source_predecessors R node Hm HnodeR Hsource) as Hnone.
    destruct (remove_node_store r node h R' Hsep Hrem)
      as (h1 & Hs1 & Hv1 & Hsep1 & Hrefs1 & Hf1 & Hi1 & Hni1 & Hne1 & Hview).
    (* the view of the successors *)
    pose proof Hdeps as Hd. apply successors_Ok in Hd. destruct Hd as (oe & Hoe & ->).
    unfold R in Hoe. simpl in Hoe. apply dict_get_ref in Hoe. destruct Hoe as (a & Hga & Hoe).
    specialize (Hview a Hga Hnone).
    (* what is pending then *)
    pose proof (remove_node_ok Hok Hrem) as Hok'.
    assert (Hincl' : incl (dict_keys oe) (nodes R')).
    { destruct (remove_node_spec Hm Hrem) as (Hn' & _).
      intros d Hd. rewrite Hn'. apply In_remove_iff.
      apply (successors_has_edge R node _ d Hdeps) in Hd. split.
      - apply (edge_nodes R node d Hm Hd).
      - intros ->. rewrite Hsource in Hd. discriminate. }
    destruct (enqueue_spec R' (proj2 (proj2 Hok')) (dict_keys oe) pending1 Hincl')
      as (pending' & Henq & _).
    exists node, pending1, (dict_keys oe), pending', h1.
    rewrite Hv1.
    split; [exact Hsorted|]. split; [exact Hdeps|]. split; [exact Henq|].
    split; [exact Hsep1|]. split; [|split; [|split; [|split]]].
    - destruct Hma as (Hmo & Hmi & Hmr). split; [exact Hmo|]. split; [exact Hmi|].
      intros x Hx. apply Hmr, Hrefs1, Hx.
    - destruct Hma as (Hmo & Hmi & Hmr). destruct Hun as (Hui & Hue). split.
      + intros x Hx. rewrite Hi1 by lia. now apply Hui.
      + intros x Hx. rewrite Hf1; [now apply Hue|].
        intros Hin. apply Hmr in Hin. lia.
    - exact (sort_step G R pending result node pending1 R' (dict_keys oe) pending'
               Hinv Hnode Hnd1 Hp1 Hdeps Hrem Henq).
    - destruct (remove_node_spec Hm Hrem) as (Hn' & _). rewrite Hn'.
      now apply remove_length_lt.
    - intros fuel. destruct pending as [|p ps]; [congruence|].
      cbn [Store.sort_loop]. rewrite Hpop.
      assert (Hsucc : Store.successors r node h = (h, Ok a)).
      { unfold Store.successors. rewrite edges_of_read, Hga. reflexivity. }
      rewrite (mbind_Ok _ _ h h a Hsucc).
      rewrite (mbind_Ok _ _ h h1 tt Hs1).
      assert (Hkeys : Store.view_keys a h1 = (h1, Ok (dict_keys oe))).
      { unfold Store.view_keys, Store.mbind, Store.read_edges, Store.ret.
        now rewrite Hview, Hoe. }
      rewrite (mbind_Ok _ _ h1 h1 _ Hkeys).
      rewrite (mbind_read _ _ h1 _ (enqueue_read r h1 (dict_keys oe) pending1)).
      rewrite Hv1, Henq. reflexivity.
  Qed.

  (** The loop ends within its bound, raises nothing, and keeps its
      invariant. *)
Lemma sort_loop_spec key h0 r G : forall fuel h pending result,
    Store.separate h r -> Store.made_after h0 h r -> Store.unchanged h0 h ->
    sort_inv G (Store.graph_at h r) pending result ->
    length (nodes (Store.graph_at h r)) < fuel ->
    exists h' result',
      Store.sort_loop fuel key r pending result h = (h', Ok result') /\
      Store.separate h' r /\ Store.made_after h0 h' r /\ Store.unchanged h0 h' /\
      sort_inv G (Store.graph_at h' r) [] result'.
  Proof.
    induction fuel as [|fuel IH]; intros h pending result Hsep Hma Hun Hinv Hfuel; [lia|].
    destruct pending as [|p ps].
    - exists h, result. split; [reflexivity|]. auto.
    - destruct (sort_iteration key h0 h r G (p :: ps) result Hsep Hma Hun Hinv)
        as (node & pending1 & deps & pending' & h1 & _ & _ & _
            & Hsep1 & Hma1 & Hun1 & Hinv1 & Hlen & Hloop); [discriminate|].
      rewrite Hloop. apply IH; auto. lia.
  Qed.
End SortLoop.

(** ** The sort *)

Section ListOrder.
Context {N : Type} `{EqDec N}.

Lemma before_filter (f : N -> bool) (b a : N) l :
    before b a l -> f b = true -> f a = true -> before b a (filter f l).
  Proof.
    intros (l1 & l2 & l3 & ->) Hb Ha.
    exists (filter f l1), (filter f l2), (filter f l3).
    rewrite filter_app. simpl. rewrite Hb. rewrite filter_app. simpl. now rewrite Ha.
  Qed.

Lemma filter_all (f : N -> bool) l : (forall x, In x l -> f x = true) -> filter f l = l.
  Proof.
    induction l as [|x l IH]; simpl; intros Hall; auto.
    rewrite (Hall x (or_introl eq_refl)). f_equal. auto.
  Qed.

Lemma StronglySorted_app_l (R : N -> N -> Prop) l1 l2 :
    StronglySorted R (l1 ++ l2) -> StronglySorted R l1.
  Proof.
    induction l1 as [|x l1 IH]; simpl; intros Hs; [constructor|].
    inversion Hs; subst. constructor; auto.
    rewrite Forall_forall in *. intros y Hy. apply H3, in_app_iff. auto.
  Qed.

  (** Ranks that are the positions in a list ascend along the list. *)
Lemma positions_ascend (key : N -> Z) : forall l k,
    (forall i n, nth_error l i = Some n -> key n = Z.of_nat (k + i)) ->
    StronglySorted (fun x y => (key x <= key y)%Z) l.
  Proof.
    induction l as [|x l IH]; intros k Hkey; constructor.
    - apply (IH (S k)). intros i n Hn. rewrite (Hkey (S i) n Hn). f_equal. lia.
    - rewrite Forall_forall. intros y Hy. apply In_nth_error in Hy. destruct Hy as [j Hj].
      rewrite (Hkey 0 x eq_refl), (Hkey (S j) y Hj). lia.
  Qed.
  (** [sorted] looks at the ranks only to compare the elements of the
      list. *)
Lemma insert_by_ext (key1 key2 : N -> Z) x l :
    (forall y, In y l -> (key1 x <=? key1 y)%Z = (key2 x <=? key2 y)%Z) ->
    insert_by key1 x l = insert_by key2 x l.
  Proof.
    induction l as [|y l IH]; simpl; intros Hcmp; [reflexivity|].
    rewrite (Hcmp y (or_introl eq_refl)).
    destruct (key2 x <=? key2 y)%Z; [reflexivity|].
    f_equal. apply IH. intros z Hz. apply Hcmp. now right.
  Qed.

Lemma sorted_ext (key1 key2 : N -> Z) l :
    (forall a b, In a l -> In b l -> (key1 a <= key1 b)%Z <-> (key2 a <= key2 b)%Z) ->
    sorted key1 l = sorted key2 l.
  Proof.
    induction l as [|x l IH]; simpl; intros Hcmp; [reflexivity|].
    fold (sorted key1 l). fold (sorted key2 l).
    rewrite IH by (intros a b Ha Hb; apply Hcmp; now right).
    apply insert_by_ext. intros y Hy. apply (proj1 (In_sorted key2 y l)) in Hy.
    pose proof (Hcmp x y (or_introl eq_refl) (or_intror Hy)) as Hxy.
    destruct (key1 x <=? key1 y)%Z eqn:H1; destruct (key2 x <=? key2 y)%Z eqn:H2;
      try reflexivity.
    - apply Z.leb_le in H1. apply Z.leb_gt in H2. apply Hxy in H1. lia.
    - apply Z.leb_gt in H1. apply Z.leb_le in H2. apply Hxy in H2. lia.
  Qed.

Lemma index_from_ge (x : N) : forall l i, i <= index_from i x l.
  Proof.
    induction l as [|y l IH]; simpl; intros i; [lia|].
    destruct (eq_dec x y); [lia|]. specialize (IH (S i)). lia.
  Qed.

  (** Leaving elements out of a list does not change which of two elements
      that stay comes first. *)
Lemma index_from_filter_order (f : N -> bool) (a b : N) :
    f a = true -> f b = true ->
    forall l i j,
      index_from i a l <= index_from i b l <->
      index_from j a (filter f l) <= index_from j b (filter f l).
  Proof.
    intros Hfa Hfb. induction l as [|x l IH]; intros i j; simpl; [lia|].
    destruct (eq_dec a x) as [<-|Hax].
    - rewrite Hfa. simpl. destruct (eq_dec a a); [|congruence].
      destruct (eq_dec b a) as [->|Hba]; [lia|].
      pose proof (index_from_ge b l (S i)). pose proof (index_from_ge b (filter f l) (S j)).
      lia.
    - destruct (eq_dec b x) as [<-|Hbx].
      + rewrite Hfb. simpl. destruct (eq_dec b b); [|congruence].
        destruct (eq_dec a b); [congruence|].
        pose proof (index_from_ge a l (S i)).
        pose proof (index_from_ge a (filter f l) (S j)). lia.
      + destruct (f x); simpl.
        * destruct (eq_dec a x); [congruence|]. destruct (eq_dec b x); [congruence|].
          apply IH.
        * apply IH.
  Qed.
  (** So for the rank that is the position in the list: leaving nodes out
      of the list does not change how it compares the nodes that stay. *)
Lemma sort_key_spec_order (f : N -> bool) (l : list N) (a b : N) :
    f a = true -> f b = true ->
    (sort_key_from_iter_spec l a <= sort_key_from_iter_spec l b)%Z <->
    (sort_key_from_iter_spec (filter f l) a <= sort_key_from_iter_spec (filter f l) b)%Z.
  Proof.
    intros Hfa Hfb. unfold sort_key_from_iter_spec. rewrite <- !Nat2Z.inj_le.
    now apply index_from_filter_order.
  Qed.
End ListOrder.

Section SortWith.
Context {N E : Type} `{EqDec N}.
Variable sort_key_from_iter : list N -> N -> Z.
Implicit Types (h : Store.store (N:=N) (E:=E)) (g r : Store.GraphRef).

  (** The whole run, up to the two assertions. *)
Lemma sort_with_run requested h0 g :
    Store.graph_ok h0 g ->
    exists h1 r pending h2 result',
      ready (Store.graph_at h0 g) (nodes (Store.graph_at h0 g)) = Ok pending /\
      Store.separate h1 r /\ Store.made_after h0 h1 r /\ Store.unchanged h0 h1 /\
      sort_inv (Store.graph_at h0 g) (Store.graph_at h1 r) pending [] /\
      Store.sort_loop (S (length (nodes (Store.graph_at h1 r))))
        (sort_key_from_iter requested) r pending [] h1 = (h2, Ok result') /\
      Store.unchanged h0 h2 /\
      sort_inv (Store.graph_at h0 g) (Store.graph_at h2 r) [] result' /\
      Store.sort_with sort_key_from_iter requested g h0 =
      (h2,
       match nodes (Store.graph_at h2 r) with
       | _ :: _ => Raise AssertionError
       | [] =>
           match is_topologically_sorted (rev result') (Store.graph_at h0 g) with
           | Ok true => Ok (filter (fun node => mem node requested) (rev result'))
           | Ok false => Raise AssertionError
           | Raise e => Raise e
           | OutOfFuel => OutOfFuel
           end
       end).
  Proof.
    intros [Hsep Hok]. set (G := Store.graph_at h0 g) in *.
    pose proof (proj2 (proj2 Hok)) as Hm.
    destruct (copy_Ok G Hm) as [C HC].
    destruct (copy_store h0 g C Hsep HC) as (h1 & r & Hcopy & Hv1 & Hun1 & Hma1 & Hsep1).
    destruct (ready_spec G Hm (nodes G) (incl_refl _)) as (pending & Hready & _).
    pose proof (sort_inv_init G C pending Hok HC Hready) as Hinv. rewrite <- Hv1 in Hinv.
    destruct (sort_loop_spec (sort_key_from_iter requested) h0 r G
                (S (length (nodes (Store.graph_at h1 r)))) h1 pending []
                Hsep1 Hma1 Hun1 Hinv (Nat.lt_succ_diag_r _))
      as (h2 & result' & Hloop & Hsep2 & Hma2 & Hun2 & Hinv2).
    destruct (unchanged_graph_at h0 h1 g Hsep Hun1) as (Hg1 & _ & _).
    destruct (unchanged_graph_at h0 h2 g Hsep Hun2) as (Hg2 & _ & _).
    exists h1, r, pending, h2, result'.
    repeat (split; [assumption|]).
    unfold Store.sort_with.
    rewrite (mbind_Ok _ _ h0 h1 r Hcopy).
    rewrite (mbind_read _ _ h1 _ (nodes_read g h1)). rewrite Hg1.
    rewrite (mbind_read _ _ h1 _ (ready_read g h1 (nodes G))). rewrite Hg1. fold G.
    rewrite Hready.
    rewrite (mbind_read _ _ h1 _ (nodes_read r h1)).
    rewrite (mbind_Ok _ _ h1 h2 result' Hloop).
    rewrite (mbind_read _ _ h2 _ (nodes_read r h2)).
    destruct (nodes (Store.graph_at h2 r)); [|reflexivity].
    rewrite (mbind_read _ _ h2 _ (is_topologically_sorted_read g h2 (rev result'))).
    rewrite Hg2. fold G.
    destruct (is_topologically_sorted (rev result') G) as [[|]| |]; reflexivity.
  Qed.

Lemma sort_with_acyclic requested h0 g :
    Store.graph_ok h0 g -> acyclic (Store.graph_at h0 g) ->
    exists h' order,
      Store.sort_with sort_key_from_iter requested g h0 =
        (h', Ok (filter (fun node => mem node requested) order)) /\
      Store.unchanged h0 h' /\
      NoDup order /\
      (forall n, In n order <-> In n (nodes (Store.graph_at h0 g))) /\
      (forall a b, has_edge (Store.graph_at h0 g) a b = true -> before b a order).
  Proof.
    intros Hg Hacyc.
    destruct (sort_with_run requested h0 g Hg)
      as (h1 & r & pending & h2 & result' & _ & _ & _ & _ & _ & _ & Hun2 & Hinv2 & Hrun).
    set (G := Store.graph_at h0 g) in *.
    pose proof (sort_inv_done G _ result' Hacyc Hinv2) as Hdone.
    pose proof (sort_inv_all G _ result' Hinv2 Hdone) as Hall.
    pose proof (sort_inv_sorted G _ result' (proj2 Hg) Hinv2 Hdone) as Hsorted.
    rewrite Hdone, Hsorted in Hrun.
    destruct Hinv2 as (_ & _ & _ & _ & _ & Hndr & _ & Hbefore).
    exists h2, (rev result'). split; [exact Hrun|]. split; [exact Hun2|].
    split; [now apply NoDup_rev|]. split.
    - intros n. rewrite <- in_rev. apply Hall.
    - intros a b He. apply before_rev. apply Hbefore; auto.
      apply Hall. apply (edge_nodes G a b); [apply Hg|exact He].
  Qed.

Lemma path_node (G : Graph N E) a b : path G a b -> In a (nodes G).
  Proof.
    intros Hp. destruct Hp as [a b He|a b c He _];
      apply has_edge_label in He; destruct He as [l Hl]; eapply out_label_node; eauto.
  Qed.

Lemma sort_with_cyclic requested h0 g n :
    Store.graph_ok h0 g -> path (Store.graph_at h0 g) n n ->
    exists h',
      Store.sort_with sort_key_from_iter requested g h0 = (h', Raise AssertionError) /\
      Store.unchanged h0 h'.
  Proof.
    intros Hg Hp.
    destruct (sort_with_run requested h0 g Hg)
      as (h1 & r & pending & h2 & result' & _ & _ & _ & _ & _ & _ & Hun2 & Hinv2 & Hrun).
    set (G := Store.graph_at h0 g) in *.
    pose proof (sort_inv_cyclic G _ [] result' n Hinv2 Hp) as Hn.
    destruct Hinv2 as (_ & Hnodes & _).
    assert (Hleft : In n (nodes (Store.graph_at h2 r))).
    { apply Hnodes. split; auto. eapply path_node; eauto. }
    exists h2. split; [|exact Hun2]. rewrite Hrun.
    destruct (nodes (Store.graph_at h2 r)); [destruct Hleft|reflexivity].
  Qed.

Lemma sort_with_frame requested h0 g h' out :
    Store.graph_ok h0 g ->
    Store.sort_with sort_key_from_iter requested g h0 = (h', out) ->
    Store.unchanged h0 h' /\ Store.graph_at h' g = Store.graph_at h0 g.
  Proof.
    intros Hg Hout.
    destruct (sort_with_run requested h0 g Hg)
      as (h1 & r & pending & h2 & result' & _ & _ & _ & _ & _ & _ & Hun2 & _ & Hrun).
    rewrite Hrun in Hout. inversion Hout; subst h'. split; [exact Hun2|].
    apply (unchanged_graph_at h0 h2 g (proj1 Hg) Hun2).
  Qed.

  (** *** Without edges *)

Lemma ready_all (G : Graph N E) : forall ns,
    (forall n, In n ns -> no_predecessors G n = Ok true) -> ready G ns = Ok ns.
  Proof.
    induction ns as [|n ns IH]; simpl; intros Hall; auto.
    rewrite (Hall n (or_introl eq_refl)). simpl. rewrite IH by auto. reflexivity.
  Qed.

Lemma sort_loop_edge_free key h0 r (G : Graph N E)
    (Hfree : forall a b, has_edge G a b = false) : forall fuel h pending result,
    Store.separate h r -> Store.made_after h0 h r -> Store.unchanged h0 h ->
    sort_inv G (Store.graph_at h r) pending result ->
    StronglySorted (fun x y => (key x <= key y)%Z) pending ->
    length (nodes (Store.graph_at h r)) < fuel ->
    exists h',
      Store.sort_loop fuel key r pending result h = (h', Ok (result ++ rev pending)).
  Proof.
    induction fuel as [|fuel IH]; intros h pending result Hsep Hma Hun Hinv Hasc Hfuel; [lia|].
    destruct pending as [|p ps].
    - exists h. simpl. now rewrite app_nil_r.
    - destruct (sort_iteration key h0 h r G (p :: ps) result Hsep Hma Hun Hinv)
        as (node & pending1 & deps & pending' & h1 & Hsorted & Hdeps & Henq
            & Hsep1 & Hma1 & Hun1 & Hinv1 & Hlen & Hloop); [discriminate|].
      rewrite (sorted_ascending key _ Hasc) in Hsorted.
      assert (Hnone : deps = []).
      { destruct deps as [|d deps]; auto. exfalso.
        assert (Hc : has_edge (Store.graph_at h r) node d = true).
        { apply (successors_has_edge _ node _ d Hdeps). simpl; auto. }
        destruct Hinv as (_ & _ & Hedges & _). apply Hedges in Hc.
        destruct Hc as [Hc _]. rewrite Hfree in Hc. discriminate. }
      subst deps. simpl in Henq. inversion Henq; subst pending'.
      rewrite Hloop.
      destruct (IH h1 pending1 (result ++ [node]) Hsep1 Hma1 Hun1 Hinv1) as [h' Hh'].
      + rewrite Hsorted in Hasc. eapply StronglySorted_app_l; eauto.
      + lia.
      + exists h'. rewrite Hh', Hsorted, rev_app_distr, <- app_assoc. reflexivity.
  Qed.
End SortWith.

(** ** The ranks are used only to compare the nodes of the graph *)

Section KeyOrder.
Context {N E : Type} `{EqDec N}.
Implicit Types (h : Store.store (N:=N) (E:=E)) (g r : Store.GraphRef).

Lemma sort_loop_key_ext (key1 key2 : N -> Z) h0 r (G : Graph N E)
    (Hcmp : forall a b, In a (nodes G) -> In b (nodes G) ->
                        (key1 a <= key1 b)%Z <-> (key2 a <= key2 b)%Z) :
    forall fuel h pending result,
      Store.separate h r -> Store.made_after h0 h r -> Store.unchanged h0 h ->
      sort_inv G (Store.graph_at h r) pending result ->
      Store.sort_loop fuel key1 r pending result h =
      Store.sort_loop fuel key2 r pending result h.
  Proof.
    induction fuel as [|fuel IH]; intros h pending result Hsep Hma Hun Hinv;
      [reflexivity|].
    destruct pending as [|p ps]; [reflexivity|].
    assert (Hsorted : sorted key1 (p :: ps) = sorted key2 (p :: ps)).
    { apply sorted_ext. destruct Hinv as (_ & Hnodes & _ & _ & Hpend & _).
      intros a b Ha Hb. apply Hcmp.
      - apply Hnodes, Hpend, Ha.
      - apply Hnodes, Hpend, Hb. }
    destruct (sort_iteration key1 h0 h r G (p :: ps) result Hsep Hma Hun Hinv)
      as (node1 & pending1 & deps1 & pending1' & h1 & Hs1 & Hd1 & He1
          & Hsep1 & Hma1 & Hun1 & Hinv1 & _ & Hloop1); [discriminate|].
    destruct (sort_iteration key2 h0 h r G (p :: ps) result Hsep Hma Hun Hinv)
      as (node2 & pending2 & deps2 & pending2' & h2 & Hs2 & Hd2 & He2
          & _ & _ & _ & _ & _ & Hloop2); [discriminate|].
    rewrite Hsorted, Hs2 in Hs1. apply app_inj_tail in Hs1.
    destruct Hs1 as [Hp Hn]. subst pending2 node2.
    assert (deps2 = deps1) by congruence. subst deps2.
    assert (Hone : Store.sort_loop 1 key1 r (p :: ps) result h =
                   Store.sort_loop 1 key2 r (p :: ps) result h).
    { cbn [Store.sort_loop]. now rewrite Hsorted. }
    rewrite (Hloop1 0), (Hloop2 0) in Hone. cbn [Store.sort_loop] in Hone.
    unfold Store.lift in Hone.
    assert (h2 = h1) by congruence. subst h2.
    assert (pending2' = pending1') by congruence. subst pending2'.
    rewrite (Hloop1 fuel), (Hloop2 fuel). now apply IH.
  Qed.
End KeyOrder.

Section SortWithKeys.
Context {N E : Type} `{EqDec N}.
Variable sort_key_from_iter : list N -> N -> Z.
Implicit Types (h : Store.store (N:=N) (E:=E)) (g r : Store.GraphRef).

  (** Two lists that rank the nodes of the graph in the same order and name
      the same nodes of the graph give the same run. *)
Lemma sort_with_key_ext requested1 requested2 h0 g :
    Store.graph_ok h0 g ->
    (forall a b,
        In a (nodes (Store.graph_at h0 g)) -> In b (nodes (Store.graph_at h0 g)) ->
        (sort_key_from_iter requested1 a <= sort_key_from_iter requested1 b)%Z <->
        (sort_key_from_iter requested2 a <= sort_key_from_iter requested2 b)%Z) ->
    (forall n, In n (nodes (Store.graph_at h0 g)) ->
               mem n requested1 = mem n requested2) ->
    Store.sort_with sort_key_from_iter requested1 g h0 =
    Store.sort_with sort_key_from_iter requested2 g h0.
  Proof.
    intros Hg Hcmp Hmem.
    destruct Hg as [Hsep Hok]. set (G := Store.graph_at h0 g) in *.
    pose proof (proj2 (proj2 Hok)) as Hm.
    destruct (copy_Ok G Hm) as [C HC].
    destruct (copy_store h0 g C Hsep HC) as (hc & rc & Hcopy & Hvc & Hunc & Hmac & Hsepc).
    destruct (ready_spec G Hm (nodes G) (incl_refl _)) as (pc & Hready & _).
    pose proof (sort_inv_init G C pc Hok HC Hready) as Hinvc. rewrite <- Hvc in Hinvc.
    destruct (unchanged_graph_at h0 hc g Hsep Hunc) as (Hgc & _ & _).
    assert (Hunfold : forall requested,
               Store.sort_with sort_key_from_iter requested g h0 =
               Store.mbind
                 (Store.sort_loop (S (length (nodes (Store.graph_at hc rc))))
                    (sort_key_from_iter requested) rc pc [])
                 (fun result =>
                    Store.mbind (Store.nodes rc)
                      (fun left =>
                         match left with
                         | _ :: _ => Store.raise AssertionError
                         | [] =>
                             Store.mbind (Store.is_topologically_sorted (rev result) g)
                               (fun good =>
                                  if good
                                  then Store.ret
                                         (filter (fun node => mem node requested)
                                                 (rev result))
                                  else Store.raise AssertionError)
                         end)) hc).
    { intros requested. unfold Store.sort_with.
      rewrite (mbind_Ok _ _ h0 hc rc Hcopy).
      rewrite (mbind_read _ _ hc _ (nodes_read g hc)). rewrite Hgc.
      rewrite (mbind_read _ _ hc _ (ready_read g hc (nodes G))). rewrite Hgc. fold G.
      rewrite Hready.
      rewrite (mbind_read _ _ hc _ (nodes_read rc hc)). reflexivity. }
    rewrite !Hunfold.
    destruct (sort_loop_spec (sort_key_from_iter requested1) h0 rc G
                (S (length (nodes (Store.graph_at hc rc)))) hc pc []
                Hsepc Hmac Hunc Hinvc (Nat.lt_succ_diag_r _))
      as (hd & res & Hloop & _ & _ & Hund & Hinvd).
    pose proof Hloop as Hloop'.
    rewrite (sort_loop_key_ext (sort_key_from_iter requested1)
               (sort_key_from_iter requested2) h0 rc G Hcmp _ hc pc []
               Hsepc Hmac Hunc Hinvc) in Hloop'.
    rewrite (mbind_Ok _ _ hc hd res Hloop), (mbind_Ok _ _ hc hd res Hloop').
    rewrite !(mbind_read _ _ hd _ (nodes_read rc hd)).
    destruct (nodes (Store.graph_at hd rc)); [|reflexivity].
    rewrite !(mbind_read _ _ hd _ (is_topologically_sorted_read g hd (rev res))).
    destruct (is_topologically_sorted (rev res) (Store.graph_at hd g)) as [[|]| |];
      try reflexivity.
    unfold Store.ret. f_equal. f_equal. apply filter_ext_in.
    intros n Hn. apply Hmem.
    destruct Hinvd as (_ & _ & _ & _ & _ & _ & Hincl & _).
    apply Hincl. now apply in_rev.
  Qed.
End SortWithKeys.

(** ** [topological_sort] *)

Section TopologicalSort.
Context {N E : Type} `{EqDec N}.
Variable sort_key_from_iter : list N -> N -> Z.
Implicit Types (h : Store.store (N:=N) (E:=E)) (g : Store.GraphRef).

Lemma topological_sort_graph g h :
    Store.topological_sort sort_key_from_iter (inl g) None h =
    Store.sort_with sort_key_from_iter (nodes (Store.graph_at h g)) g h.
  Proof.
    unfold Store.topological_sort. now rewrite (mbind_read _ _ h _ (nodes_read g h)).
  Qed.

Lemma topological_sort_list requested g h :
    Store.topological_sort sort_key_from_iter (inr requested) (Some g) h =
    Store.sort_with sort_key_from_iter requested g h.
  Proof. reflexivity. Qed.

Lemma edge_free_acyclic (G : Graph N E) :
    (forall a b, has_edge G a b = false) -> acyclic G.
  Proof.
    intros Hfree n Hp. destruct Hp as [a b He|a b c He _]; rewrite Hfree in He; discriminate.
  Qed.

  (** C1.  On an acyclic graph the sort returns a list without duplicates
      in which, for every edge [a -> b] between two requested nodes, [b]
      stands before [a]: for every edge when the graph alone is given, for
      the edges between nodes of the list when a list is given. *)
Theorem topological_sort_respects_edges h g :
    Store.graph_ok h g -> acyclic (Store.graph_at h g) ->
    (exists h' res,
        Store.topological_sort sort_key_from_iter (inl g) None h = (h', Ok res) /\
        NoDup res /\
        forall a b, has_edge (Store.graph_at h g) a b = true -> before b a res) /\
    (forall requested, exists h' res,
        Store.topological_sort sort_key_from_iter (inr requested) (Some g) h
        = (h', Ok res) /\
        NoDup res /\
        forall a b, has_edge (Store.graph_at h g) a b = true ->
                    In a requested -> In b requested -> before b a res).
  Proof.
    intros Hg Hacyc. split.
    - rewrite topological_sort_graph.
      destruct (sort_with_acyclic sort_key_from_iter (nodes (Store.graph_at h g)) h g
                  Hg Hacyc) as (h2 & order & Hrun & _ & Hnd & Hall & Hbefore).
      exists h2, (filter (fun node => mem node (nodes (Store.graph_at h g))) order).
      split; [exact Hrun|]. split; [now apply NoDup_filter|].
      intros a b He.
      destruct (edge_nodes _ a b (proj2 (proj2 (proj2 Hg))) He) as [Ha Hb].
      apply before_filter; auto; now apply mem_true.
    - intros requested. rewrite topological_sort_list.
      destruct (sort_with_acyclic sort_key_from_iter requested h g Hg Hacyc)
        as (h2 & order & Hrun & _ & Hnd & Hall & Hbefore).
      exists h2, (filter (fun node => mem node requested) order).
      split; [exact Hrun|]. split; [now apply NoDup_filter|].
      intros a b He Ha Hb. apply before_filter; auto; now apply mem_true.
  Qed.

  (** C2, as the code has it.  On an acyclic graph the sort returns a list
      that has no duplicates and holds exactly the requested nodes that are
      nodes of the graph: it is a permutation of the nodes of the graph when
      the graph alone is given, and of the nodes of the list that the graph
      has when a list is given. *)
Theorem topological_sort_permutation h g :
    Store.graph_ok h g -> acyclic (Store.graph_at h g) ->
    (exists h' res,
        Store.topological_sort sort_key_from_iter (inl g) None h = (h', Ok res) /\
        NoDup res /\ Permutation res (nodes (Store.graph_at h g))) /\
    (forall requested, exists h' res,
        Store.topological_sort sort_key_from_iter (inr requested) (Some g) h
        = (h', Ok res) /\
        NoDup res /\
        forall n, In n res <-> In n requested /\ In n (nodes (Store.graph_at h g))).
  Proof.
    intros Hg Hacyc. split.
    - rewrite topological_sort_graph.
      destruct (sort_with_acyclic sort_key_from_iter (nodes (Store.graph_at h g)) h g
                  Hg Hacyc) as (h2 & order & Hrun & _ & Hnd & Hall & _).
      rewrite filter_all in Hrun by (intros x Hx; apply mem_true, Hall, Hx).
      exists h2, order. split; [exact Hrun|]. split; auto.
      apply NoDup_Permutation; auto. apply Hg.
    - intros requested. rewrite topological_sort_list.
      destruct (sort_with_acyclic sort_key_from_iter requested h g Hg Hacyc)
        as (h2 & order & Hrun & _ & Hnd & Hall & _).
      exists h2, (filter (fun node => mem node requested) order).
      split; [exact Hrun|]. split.
      + now apply NoDup_filter.
      + intros n. rewrite filter_In, mem_true, Hall. tauto.
  Qed.

  (** C4.  On a graph without edges, given alone, the sort returns the
      nodes in the order in which the graph has them, when the rank of a
      node is its position in the reference sequence. *)
Theorem topological_sort_edge_free h g :
    Store.graph_ok h g ->
    (forall a b, has_edge (Store.graph_at h g) a b = false) ->
    (forall i n, nth_error (nodes (Store.graph_at h g)) i = Some n ->
                 sort_key_from_iter (nodes (Store.graph_at h g)) n = Z.of_nat i) ->
    exists h',
      Store.topological_sort sort_key_from_iter (inl g) None h =
      (h', Ok (nodes (Store.graph_at h g))).
  Proof.
    intros Hg Hfree Hkey. rewrite topological_sort_graph.
    set (G := Store.graph_at h g) in *.
    pose proof (edge_free_acyclic G Hfree) as Hacyc.
    pose proof (proj2 (proj2 (proj2 Hg))) as Hm.
    destruct (sort_with_run sort_key_from_iter (nodes G) h g Hg)
      as (h1 & r & pending & h2 & result' & Hready & Hsep1 & Hma1 & Hun1 & Hinv1
          & Hloop & Hun2 & Hinv2 & Hrun).
    fold G in Hready, Hinv1, Hinv2, Hrun.
    assert (Hpending : pending = nodes G).
    { rewrite ready_all in Hready; [now inversion Hready|].
      intros n Hn. destruct (no_predecessors_Ok G n Hm Hn) as [b Hb].
      destruct (no_predecessors_spec G n b Hm Hb) as [_ Hb'].
      rewrite Hb. f_equal. apply Hb'. intros p. apply Hfree. }
    subst pending.
    destruct (sort_loop_edge_free (sort_key_from_iter (nodes G)) h r G Hfree
                (S (length (nodes (Store.graph_at h1 r)))) h1 (nodes G) []
                Hsep1 Hma1 Hun1 Hinv1) as [h2' Hloop'].
    { apply (positions_ascend _ _ 0). exact Hkey. }
    { lia. }
    rewrite Hloop' in Hloop. inversion Hloop; subst h2' result'.
    pose proof (sort_inv_done G _ _ Hacyc Hinv2) as Hdone.
    pose proof (sort_inv_sorted G _ _ (proj2 Hg) Hinv2 Hdone) as Hsorted.
    rewrite Hdone, Hsorted in Hrun. simpl in Hrun. rewrite rev_involutive in Hrun.
    rewrite filter_all in Hrun by (intros x Hx; now apply mem_true).
    exists h2. exact Hrun.
  Qed.

  (** C6.  If the graph has a cycle, the sort ends in the failure of its
      assertion that nothing remains, whether the graph or a list is given;
      if the graph is acyclic, no assertion fails and the sort returns. *)
Theorem topological_sort_assertion h g :
    Store.graph_ok h g ->
    ((exists n, path (Store.graph_at h g) n n) ->
     (exists h',
         Store.topological_sort sort_key_from_iter (inl g) None h
         = (h', Raise AssertionError)) /\
     (forall requested, exists h',
         Store.topological_sort sort_key_from_iter (inr requested) (Some g) h
         = (h', Raise AssertionError))) /\
    (acyclic (Store.graph_at h g) ->
     (exists h' res,
         Store.topological_sort sort_key_from_iter (inl g) None h = (h', Ok res)) /\
     (forall requested, exists h' res,
         Store.topological_sort sort_key_from_iter (inr requested) (Some g) h
         = (h', Ok res))).
  Proof.
    intros Hg. split.
    - intros [n Hp]. split.
      + rewrite topological_sort_graph.
        destruct (sort_with_cyclic sort_key_from_iter (nodes (Store.graph_at h g)) h g n
                    Hg Hp) as (h' & Hrun & _).
        eauto.
      + intros requested. rewrite topological_sort_list.
        destruct (sort_with_cyclic sort_key_from_iter requested h g n Hg Hp)
          as (h' & Hrun & _).
        eauto.
    - intros Hacyc. split.
      + rewrite topological_sort_graph.
        destruct (sort_with_acyclic sort_key_from_iter (nodes (Store.graph_at h g)) h g
                    Hg Hacyc) as (h' & order & Hrun & _).
        eauto.
      + intros requested. rewrite topological_sort_list.
        destruct (sort_with_acyclic sort_key_from_iter requested h g Hg Hacyc)
          as (h' & order & Hrun & _).
        eauto.
  Qed.

  (** C8.  When the sort returns, every dictionary that there was before the
      call is as it was, and so the graph of the caller has the nodes, the
      edges and the labels it had: what the sort removes, it removes from
      dictionaries that the copy made. *)
Theorem topological_sort_leaves_graph h g :
    Store.graph_ok h g ->
    (forall h' res,
        Store.topological_sort sort_key_from_iter (inl g) None h = (h', Ok res) ->
        Store.unchanged h h' /\ Store.graph_at h' g = Store.graph_at h g) /\
    (forall requested h' res,
        Store.topological_sort sort_key_from_iter (inr requested) (Some g) h
        = (h', Ok res) ->
        Store.unchanged h h' /\ Store.graph_at h' g = Store.graph_at h g).
  Proof.
    intros Hg. split.
    - intros h' res Hrun. rewrite topological_sort_graph in Hrun.
      exact (sort_with_frame sort_key_from_iter _ h g h' _ Hg Hrun).
    - intros requested h' res Hrun. rewrite topological_sort_list in Hrun.
      exact (sort_with_frame sort_key_from_iter _ h g h' _ Hg Hrun).
  Qed.

  (** C10.  Given a list and an acyclic graph, the sort returns; a node of
      the list that is not a node of the graph is not in the list returned,
      and no exception is raised for it; the nodes of the list that the
      graph has are all returned, once each, every one after the nodes of
      the list it has an edge to.  They are returned in the usual order:
      when the ranks compare the nodes of the graph in the same way
      whether or not the absent nodes are named, as they do when the rank
      of a node is its position in the list, the call returns the list that
      it returns, from the same store, for the list without the absent
      nodes. *)
Theorem topological_sort_omits_absent h g requested :
    Store.graph_ok h g -> acyclic (Store.graph_at h g) ->
    exists h' res,
      Store.topological_sort sort_key_from_iter (inr requested) (Some g) h
      = (h', Ok res) /\
      (forall n, In n requested -> ~ In n (nodes (Store.graph_at h g)) -> ~ In n res) /\
      (forall n, In n requested -> In n (nodes (Store.graph_at h g)) -> In n res) /\
      NoDup res /\
      (forall a b, has_edge (Store.graph_at h g) a b = true ->
                   In a requested -> In b requested -> before b a res) /\
      ((forall a b,
           In a (nodes (Store.graph_at h g)) -> In b (nodes (Store.graph_at h g)) ->
           (sort_key_from_iter requested a <= sort_key_from_iter requested b)%Z <->
           (sort_key_from_iter
              (filter (fun n => mem n (nodes (Store.graph_at h g))) requested) a
            <= sort_key_from_iter
                 (filter (fun n => mem n (nodes (Store.graph_at h g))) requested) b)%Z) ->
       Store.topological_sort sort_key_from_iter
         (inr (filter (fun n => mem n (nodes (Store.graph_at h g))) requested))
         (Some g) h
       = (h', Ok res)).
  Proof.
    intros Hg Hacyc. rewrite topological_sort_list.
    destruct (sort_with_acyclic sort_key_from_iter requested h g Hg Hacyc)
      as (h' & order & Hrun & _ & Hnd & Hall & Hbefore).
    exists h', (filter (fun node => mem node requested) order).
    split; [exact Hrun|]. split; [|split; [|split; [|split]]].
    - intros n _ Hn Hin. apply filter_In in Hin. apply Hn, Hall, Hin.
    - intros n Hr Hn. apply filter_In. split; [now apply Hall|now apply mem_true].
    - now apply NoDup_filter.
    - intros a b He Ha Hb. apply before_filter; auto; now apply mem_true.
    - intros Hcmp. rewrite topological_sort_list, <- Hrun. symmetry.
      apply sort_with_key_ext; [exact Hg|exact Hcmp|].
      intros n Hn. destruct (mem n requested) eqn:Hr.
      + symmetry. apply mem_true, filter_In. split; [now apply mem_true|].
        now apply mem_true.
      + symmetry. apply mem_false. intros Hc. apply filter_In in Hc.
        apply mem_false in Hr. tauto.
  Qed.
End TopologicalSort.

(** ** The sort on concrete stores *)

Lemma run_result {S A : Type} (p : S * result A) (r : result A) :
  snd p = r -> p = (fst p, r).
Proof. intros <-. apply surjective_pairing. Qed.

Ltac separate_store :=
  split; [vm_compute; lia|]; split; [vm_compute; lia|]; split; [vm_compute; lia|];
  split; [vm_compute; repeat constructor; simpl; intuition lia
         |vm_compute; intuition lia].

Lemma edge_store_ok : Store.graph_ok edge_store first_graph.
Proof.
  split.
  - separate_store.
  - apply (add_edge_ok (add_node (add_node Graph_init 1) 2) 2 1 true).
    + apply add_node_ok, add_node_ok, Graph_init_ok.
    + vm_compute. reflexivity.
Qed.

Lemma edge_store_acyclic : acyclic (Store.graph_at edge_store first_graph).
Proof.
  assert (Heq : Store.graph_at edge_store first_graph =
                @mkGraph nat bool [(1, []); (2, [(1, true)])] [(1, [(2, true)]); (2, [])])
    by (vm_compute; reflexivity).
  rewrite Heq. clear Heq.
  apply (ranked_acyclic _ (fun n => n)). intros a b He.
  unfold has_edge in He. simpl in He.
  destruct (eq_dec a 1); [discriminate|].
  destruct (eq_dec a 2); [|discriminate]. subst a.
  unfold dict_contains in He. simpl in He.
  destruct (eq_dec b 1); [subst; lia|discriminate].
Qed.

Lemma loop_store_ok : Store.graph_ok loop_store first_graph.
Proof.
  split.
  - separate_store.
  - apply (add_edge_ok (add_node Graph_init 1) 1 1 true).
    + apply add_node_ok, Graph_init_ok.
    + vm_compute. reflexivity.
Qed.

Lemma nodes_store_ok : Store.graph_ok nodes_store first_graph.
Proof.
  split.
  - separate_store.
  - assert (Heq : Store.graph_at nodes_store first_graph =
                  add_node (add_node (add_node (add_node (@Graph_init nat bool) 7) 3) 9) 1)
      by (vm_compute; reflexivity).
    rewrite Heq.
    apply add_node_ok, add_node_ok, add_node_ok, add_node_ok, Graph_init_ok.
Qed.

Lemma empty_graph_store_ok : Store.graph_ok empty_graph_store first_graph.
Proof.
  split.
  - separate_store.
  - assert (Heq : Store.graph_at empty_graph_store first_graph = @Graph_init nat bool)
      by (vm_compute; reflexivity).
    rewrite Heq. apply Graph_init_ok.
Qed.

Lemma empty_graph_store_acyclic : acyclic (Store.graph_at empty_graph_store first_graph).
Proof. apply edge_free_acyclic. intros a b. vm_compute. reflexivity. Qed.

Lemma topological_sort_respects_edges_witness :
  Store.graph_ok edge_store first_graph /\
  acyclic (Store.graph_at edge_store first_graph) /\
  (exists h' res,
      Store.topological_sort sort_key_from_iter_spec (inl first_graph) None edge_store
      = (h', Ok res) /\
      NoDup res /\
      forall a b, has_edge (Store.graph_at edge_store first_graph) a b = true ->
                  before b a res) /\
  snd (Store.topological_sort sort_key_from_iter_spec (inl first_graph) None edge_store)
  = Ok [1; 2] /\
  has_edge (Store.graph_at edge_store first_graph) 2 1 = true.
Proof.
  split; [exact edge_store_ok|]. split; [exact edge_store_acyclic|]. split.
  - exact (proj1 (topological_sort_respects_edges sort_key_from_iter_spec edge_store
                    first_graph edge_store_ok edge_store_acyclic)).
  - split; vm_compute; reflexivity.
Defined.

Lemma topological_sort_permutation_witness :
  Store.graph_ok edge_store first_graph /\
  acyclic (Store.graph_at edge_store first_graph) /\
  (exists h' res,
      Store.topological_sort sort_key_from_iter_spec (inr [3; 2; 1]) (Some first_graph)
        edge_store = (h', Ok res) /\
      NoDup res /\
      forall n, In n res <->
                In n [3; 2; 1] /\ In n (nodes (Store.graph_at edge_store first_graph))) /\
  snd (Store.topological_sort sort_key_from_iter_spec (inr [3; 2; 1]) (Some first_graph)
         edge_store) = Ok [1; 2].
Proof.
  split; [exact edge_store_ok|]. split; [exact edge_store_acyclic|]. split.
  - exact (proj2 (topological_sort_permutation sort_key_from_iter_spec edge_store
                    first_graph edge_store_ok edge_store_acyclic) [3; 2; 1]).
  - vm_compute. reflexivity.
Defined.

(** C2, as the claim has it, fails when the list names a node that the graph
    does not have: on the empty graph the list [[1]] gives the empty list,
    which omits the requested node 1. *)
Lemma topological_sort_permutation_counterexample :
  Store.graph_ok empty_graph_store first_graph /\
  acyclic (Store.graph_at empty_graph_store first_graph) /\
  snd (Store.topological_sort sort_key_from_iter_spec (inr [1]) (Some first_graph)
         empty_graph_store) = Ok [] /\
  In 1 [1] /\ ~ In 1 (@nil nat) /\ ~ Permutation (@nil nat) [1].
Proof.
  split; [exact empty_graph_store_ok|]. split; [exact empty_graph_store_acyclic|].
  split; [vm_compute; reflexivity|]. split; [simpl; tauto|]. split; [simpl; tauto|].
  intros Hp. apply Permutation_length in Hp. discriminate.
Qed.

Lemma topological_sort_edge_free_witness :
  Store.graph_ok nodes_store first_graph /\
  (forall a b, has_edge (Store.graph_at nodes_store first_graph) a b = false) /\
  (forall i n, nth_error [7; 3; 9; 1] i = Some n ->
               sort_key_from_iter_spec [7; 3; 9; 1] n = Z.of_nat i) /\
  exists h',
    Store.topological_sort sort_key_from_iter_spec (inl first_graph) None nodes_store
    = (h', Ok [7; 3; 9; 1]).
Proof.
  assert (Hfree : forall a b, has_edge (Store.graph_at nodes_store first_graph) a b = false).
  { intros a b.
    assert (Heq : Store.graph_at nodes_store first_graph =
                  @mkGraph nat bool [(7, []); (3, []); (9, []); (1, [])]
                                    [(7, []); (3, []); (9, []); (1, [])])
      by (vm_compute; reflexivity).
    rewrite Heq. unfold has_edge. simpl.
    destruct (eq_dec a 7); auto. destruct (eq_dec a 3); auto.
    destruct (eq_dec a 9); auto. destruct (eq_dec a 1); auto. }
  assert (Hkey : forall i n, nth_error [7; 3; 9; 1] i = Some n ->
                             sort_key_from_iter_spec [7; 3; 9; 1] n = Z.of_nat i).
  { intros i n Hn.
    do 4 (destruct i as [|i]; [inversion Hn; subst; vm_compute; reflexivity|]).
    destruct i; discriminate. }
  split; [exact nodes_store_ok|]. split; [exact Hfree|]. split; [exact Hkey|].
  exact (topological_sort_edge_free sort_key_from_iter_spec nodes_store first_graph
           nodes_store_ok Hfree Hkey).
Defined.

Lemma topological_sort_assertion_witness :
  Store.graph_ok loop_store first_graph /\
  Store.graph_ok edge_store first_graph /\
  (exists n, path (Store.graph_at loop_store first_graph) n n) /\
  acyclic (Store.graph_at edge_store first_graph) /\
  (exists h',
      Store.topological_sort sort_key_from_iter_spec (inl first_graph) None loop_store
      = (h', Raise AssertionError)) /\
  (exists h' res,
      Store.topological_sort sort_key_from_iter_spec (inl first_graph) None edge_store
      = (h', Ok res)).
Proof.
  assert (Hcycle : exists n, path (Store.graph_at loop_store first_graph) n n).
  { exists 1. apply path_edge. vm_compute. reflexivity. }
  split; [exact loop_store_ok|]. split; [exact edge_store_ok|].
  split; [exact Hcycle|]. split; [exact edge_store_acyclic|]. split.
  - exact (proj1 (proj1 (topological_sort_assertion sort_key_from_iter_spec loop_store
                           first_graph loop_store_ok) Hcycle)).
  - exact (proj1 (proj2 (topological_sort_assertion sort_key_from_iter_spec edge_store
                           first_graph edge_store_ok) edge_store_acyclic)).
Defined.

Lemma topological_sort_leaves_graph_witness :
  Store.graph_ok edge_store first_graph /\
  snd (Store.topological_sort sort_key_from_iter_spec (inl first_graph) None edge_store)
  = Ok [1; 2] /\
  Store.graph_at
    (fst (Store.topological_sort sort_key_from_iter_spec (inl first_graph) None edge_store))
    first_graph
  = Store.graph_at edge_store first_graph.
Proof.
  assert (Hrun : snd (Store.topological_sort sort_key_from_iter_spec (inl first_graph)
                        None edge_store) = Ok [1; 2]) by (vm_compute; reflexivity).
  split; [exact edge_store_ok|]. split; [exact Hrun|].
  apply (proj1 (topological_sort_leaves_graph sort_key_from_iter_spec edge_store first_graph
                  edge_store_ok) _ [1; 2] (run_result _ _ Hrun)).
Defined.

Lemma nodes_store_acyclic : acyclic (Store.graph_at nodes_store first_graph).
Proof.
  apply edge_free_acyclic. intros a b.
  assert (Heq : Store.graph_at nodes_store first_graph =
                @mkGraph nat bool [(7, []); (3, []); (9, []); (1, [])]
                                  [(7, []); (3, []); (9, []); (1, [])])
    by (vm_compute; reflexivity).
  rewrite Heq. unfold has_edge. simpl.
  destruct (eq_dec a 7); auto. destruct (eq_dec a 3); auto.
  destruct (eq_dec a 9); auto. destruct (eq_dec a 1); auto.
Qed.

Lemma topological_sort_omits_absent_witness :
  Store.graph_ok nodes_store first_graph /\
  acyclic (Store.graph_at nodes_store first_graph) /\
  (exists h' res,
      Store.topological_sort sort_key_from_iter_spec (inr [1; 5; 9; 3; 7])
        (Some first_graph) nodes_store = (h', Ok res) /\
      (forall n, In n [1; 5; 9; 3; 7] ->
                 ~ In n (nodes (Store.graph_at nodes_store first_graph)) -> ~ In n res) /\
      (forall n, In n [1; 5; 9; 3; 7] ->
                 In n (nodes (Store.graph_at nodes_store first_graph)) -> In n res) /\
      NoDup res /\
      Store.topological_sort sort_key_from_iter_spec
        (inr (filter (fun n => mem n (nodes (Store.graph_at nodes_store first_graph)))
                     [1; 5; 9; 3; 7]))
        (Some first_graph) nodes_store = (h', Ok res)) /\
  filter (fun n => mem n (nodes (Store.graph_at nodes_store first_graph))) [1; 5; 9; 3; 7]
  = [1; 9; 3; 7] /\
  snd (Store.topological_sort sort_key_from_iter_spec (inr [1; 5; 9; 3; 7])
         (Some first_graph) nodes_store) = Ok [1; 9; 3; 7].
Proof.
  split; [exact nodes_store_ok|]. split; [exact nodes_store_acyclic|]. split; [|split].
  - destruct (topological_sort_omits_absent sort_key_from_iter_spec nodes_store first_graph
                [1; 5; 9; 3; 7] nodes_store_ok nodes_store_acyclic)
      as (h' & res & Hrun & Hout & Hin & Hnd & _ & Hsame).
    exists h', res. split; [exact Hrun|]. split; [exact Hout|]. split; [exact Hin|].
    split; [exact Hnd|].
    apply Hsame. intros a b Ha Hb.
    exact (sort_key_spec_order
             (fun n => mem n (nodes (Store.graph_at nodes_store first_graph)))
             [1; 5; 9; 3; 7] a b
             (proj2 (mem_true a (nodes (Store.graph_at nodes_store first_graph))) Ha)
             (proj2 (mem_true b (nodes (Store.graph_at nodes_store first_graph))) Hb)).
  - vm_compute. reflexivity.
  - vm_compute. reflexivity.
Defined.

(** ** The methods of the graph, one by one *)

Section Methods.
Context {N E : Type} `{EqDec N}.
Implicit Types (g : Graph N E).

Lemma edge_label g a b : edge g a b = lookup (out_label g a b).
  Proof.
    unfold edge, out_label. destruct (dict_get (_out_edges g) a); reflexivity.
  Qed.

Lemma has_edge_out_label g a b :
    has_edge g a b = match out_label g a b with Some _ => true | None => false end.
  Proof.
    unfold has_edge, out_label, dict_contains.
    destruct (dict_get (_out_edges g) a); reflexivity.
  Qed.

Lemma successors_absent g n : ~ In n (nodes g) -> successors g n = Raise KeyError.
  Proof.
    intros Hn. unfold successors. apply dict_get_None in Hn. now rewrite Hn.
  Qed.

Lemma predecessors_absent g n :
    ~ In n (dict_keys (_in_edges g)) -> predecessors g n = Raise KeyError.
  Proof.
    intros Hn. unfold predecessors. apply dict_get_None in Hn. now rewrite Hn.
  Qed.

Lemma predecessors_node g n :
    In n (dict_keys (_in_edges g)) -> exists preds, predecessors g n = Ok preds.
  Proof.
    intros Hn. apply dict_get_In_keys in Hn. destruct Hn as [edges Hedges].
    unfold predecessors. rewrite Hedges. simpl. eauto.
  Qed.

  (** X1.  [add_node] of a node that the graph has changes nothing, so the
      node keeps its edges; [add_node] of a new node puts it last in the
      order of the nodes, with no successors and no predecessors.  Either
      way every edge of the graph is as it was. *)
Theorem add_node_keeps_edges g n :
    mirror g ->
    (In n (nodes g) -> add_node g n = g) /\
    (~ In n (nodes g) ->
     nodes (add_node g n) = nodes g ++ [n] /\
     successors (add_node g n) n = Ok [] /\
     predecessors (add_node g n) n = Ok []) /\
    (forall a b, edge (add_node g n) a b = edge g a b) /\
    (forall a b, has_edge (add_node g n) a b = has_edge g a b).
  Proof.
    intros Hm. split; [|split; [|split]].
    - intros Hn. unfold add_node.
      rewrite dict_setdefault_present by exact Hn.
      rewrite dict_setdefault_present by (now apply (mirror_nodes_in g n Hm)).
      now destruct g.
    - intros Hn.
      assert (Hn' : ~ In n (dict_keys (_in_edges g)))
        by (intros Hc; apply Hn; now apply (mirror_nodes_in g n Hm)).
      unfold add_node, nodes, successors, predecessors. cbn [_out_edges _in_edges].
      rewrite !dict_get_setdefault.
      apply dict_get_None in Hn, Hn'. rewrite Hn, Hn'.
      destruct (eq_dec n n) as [_|Hc]; [|congruence].
      split; [|split; reflexivity].
      rewrite dict_setdefault_absent by (now apply dict_get_None).
      unfold dict_keys. now rewrite map_app.
    - intros a b. now rewrite !edge_label, out_label_add_node.
    - intros a b. now rewrite !has_edge_out_label, out_label_add_node.
  Qed.
Lemma keys_set_add (d : dict N E) k v :
    dict_keys (dict_set d k v) = set_add k (dict_keys d).
  Proof.
    unfold set_add. destruct (mem k (dict_keys d)) eqn:Hk.
    - apply dict_keys_set_in. now apply mem_true.
    - apply dict_keys_set_new. now apply mem_false.
  Qed.

  (** X2.  [add_edge] raises [KeyError] exactly when the origin or the
      destination is not a node of the graph, and returns otherwise. *)
Theorem add_edge_missing_node g o d e :
    mirror g ->
    (add_edge g o d e = Raise KeyError <-> ~ In o (nodes g) \/ ~ In d (nodes g)) /\
    ((exists g', add_edge g o d e = Ok g') <-> In o (nodes g) /\ In d (nodes g)).
  Proof.
    intros Hm.
    assert (Hin : In d (nodes g) <-> In d (dict_keys (_in_edges g)))
      by apply (mirror_nodes_in g d Hm).
    destruct (in_dec eq_dec o (nodes g)) as [Ho|Ho];
      [destruct (in_dec eq_dec d (nodes g)) as [Hd|Hd]|].
    - destruct (add_edge_Ok g o d e Ho (proj1 Hin Hd)) as [g' Hg']. rewrite Hg'.
      split; split; try tauto; try discriminate. eauto.
    - assert (Hrun : add_edge g o d e = Raise KeyError).
      { unfold add_edge. apply dict_get_In_keys in Ho. destruct Ho as [oe Hoe].
        rewrite Hoe. cbn [lookup bind].
        assert (Hnone : dict_get (_in_edges g) d = None) by (apply dict_get_None; tauto).
        now rewrite Hnone. }
      rewrite Hrun. split; split; try tauto.
      + intros [g' Hg']. discriminate.
    - assert (Hrun : add_edge g o d e = Raise KeyError).
      { unfold add_edge. apply dict_get_None in Ho. now rewrite Ho. }
      rewrite Hrun. split; split; try tauto.
      + intros [g' Hg']. discriminate.
  Qed.

  (** X3.  After [add_edge] the edge is there with its label, for [edge],
      [has_edge], [successors] and [predecessors]; a destination that is
      new among the successors of the origin goes last, one that was there
      keeps its place (and so for the predecessors); the nodes and every
      other edge are as they were. *)
Theorem add_edge_then_read g o d e g' :
    add_edge g o d e = Ok g' ->
    edge g' o d = Ok e /\ has_edge g' o d = true /\
    nodes g' = nodes g /\
    (forall s, successors g o = Ok s -> successors g' o = Ok (set_add d s)) /\
    (forall p, predecessors g d = Ok p -> predecessors g' d = Ok (set_add o p)) /\
    (forall a b, a <> o \/ b <> d ->
                 edge g' a b = edge g a b /\ has_edge g' a b = has_edge g a b).
  Proof.
    intros Hrun.
    pose proof (out_label_add_edge Hrun) as Hout.
    assert (Hod : out_label g' o d = Some e).
    { rewrite Hout. destruct (eq_dec o o); [|congruence].
      destruct (eq_dec d d); congruence. }
    split; [now rewrite edge_label, Hod|].
    split; [now rewrite has_edge_out_label, Hod|].
    split; [exact (nodes_add_edge Hrun)|].
    unfold add_edge in Hrun. inv_ok.
    split; [|split].
    - intros s Hs. apply successors_Ok in Hs. destruct Hs as (edges & Hedges & ->).
      assert (edges = a) by congruence. subst edges.
      unfold successors. cbn [_out_edges]. rewrite dict_get_set_eq. cbn [lookup bind].
      now rewrite keys_set_add.
    - intros p Hp. apply predecessors_Ok in Hp. destruct Hp as (edges & Hedges & ->).
      assert (edges = a0) by congruence. subst edges.
      unfold predecessors. cbn [_in_edges]. rewrite dict_get_set_eq. cbn [lookup bind].
      now rewrite keys_set_add.
    - intros x y Hne.
      assert (Hxy : out_label
                      (mkGraph (dict_set (_out_edges g) o (dict_set a d e))
                               (dict_set (_in_edges g) d (dict_set a0 o e))) x y
                    = out_label g x y).
      { rewrite Hout. destruct (eq_dec o x); [|reflexivity].
        destruct (eq_dec d y); [|reflexivity]. subst. tauto. }
      now rewrite !edge_label, !has_edge_out_label, Hxy.
  Qed.
Lemma dict_set_same {V} (d : dict N V) k v : dict_get d k = Some v -> dict_set d k v = d.
  Proof.
    induction d as [|[k' v'] d IH]; simpl; [discriminate|].
    destruct (eq_dec k k') as [->|Hne].
    - intros Hv. inversion Hv. reflexivity.
    - intros Hv. now rewrite IH.
  Qed.

Lemma dict_set_set {V} (d : dict N V) k v v' :
    dict_set (dict_set d k v) k v' = dict_set d k v'.
  Proof.
    induction d as [|[k' w] d IH]; simpl.
    - destruct (eq_dec k k); [reflexivity|congruence].
    - destruct (eq_dec k k') as [->|Hne]; simpl.
      + destruct (eq_dec k' k'); [reflexivity|congruence].
      + destruct (eq_dec k k'); [congruence|]. now rewrite IH.
  Qed.

Lemma dict_pop_set_new {V} (d : dict N V) k v :
    ~ In k (dict_keys d) -> dict_pop (dict_set d k v) k = d.
  Proof.
    induction d as [|[k' w] d IH]; simpl; intros Hk.
    - destruct (eq_dec k k); [reflexivity|congruence].
    - destruct (eq_dec k k') as [->|Hne]; [tauto|]. simpl.
      destruct (eq_dec k k'); [congruence|]. rewrite IH; tauto.
  Qed.

Lemma remove_edge_fails g o d :
    ~ In o (nodes g) \/ ~ In d (dict_keys (_in_edges g)) ->
    remove_edge g o d = Raise KeyError.
  Proof.
    intros Hmiss. unfold remove_edge.
    destruct (dict_get (_out_edges g) o) as [oe|] eqn:Hoe; [|reflexivity].
    cbn [lookup bind].
    destruct (dict_get (_in_edges g) d) as [ie|] eqn:Hie; [|reflexivity].
    exfalso. destruct Hmiss as [Hc|Hc]; apply Hc, dict_get_In_keys; eauto.
  Qed.

  (** No label in the outgoing index, none in the incoming one. *)
Lemma absent_both_ways g o d oe ie :
    mirror g -> has_edge g o d = false ->
    dict_get (_out_edges g) o = Some oe -> dict_get (_in_edges g) d = Some ie ->
    ~ In d (dict_keys oe) /\ ~ In o (dict_keys ie).
  Proof.
    intros Hm He Hoe Hie.
    assert (Hd : ~ In d (dict_keys oe)).
    { unfold has_edge in He. rewrite Hoe in He. now apply dict_contains_false. }
    split; [exact Hd|].
    intros Ho. apply dict_get_In_keys in Ho. destruct Ho as [l Hl].
    assert (Hin : in_edge g o d l) by (exists ie; auto).
    apply (proj2 Hm) in Hin. destruct Hin as (oe' & Hoe' & Hl').
    assert (oe' = oe) by congruence. subst oe'.
    apply Hd, dict_get_In_keys. eauto.
  Qed.

Lemma remove_edge_absent g o d :
    mirror g -> In o (nodes g) -> In d (nodes g) -> has_edge g o d = false ->
    remove_edge g o d = Ok g.
  Proof.
    intros Hm Ho Hd He.
    apply (mirror_nodes_in g d Hm) in Hd.
    apply dict_get_In_keys in Ho, Hd. destruct Ho as [oe Hoe], Hd as [ie Hie].
    destruct (absent_both_ways g o d oe ie Hm He Hoe Hie) as [Hno Hni].
    unfold remove_edge. rewrite Hoe, Hie. cbn [lookup bind].
    rewrite !dict_pop_absent by assumption.
    rewrite !dict_set_same by assumption. now destruct g.
  Qed.

  (** X4.  [remove_edge] raises [KeyError] exactly when the origin or the
      destination is not a node.  Otherwise it returns: the edge is gone,
      the destination leaves the successors of the origin and the others
      keep their order, and the nodes and every other edge are as they
      were. *)
Theorem remove_edge_effect g o d :
    mirror g ->
    (remove_edge g o d = Raise KeyError <-> ~ In o (nodes g) \/ ~ In d (nodes g)) /\
    (In o (nodes g) -> In d (nodes g) ->
     exists g',
       remove_edge g o d = Ok g' /\
       has_edge g' o d = false /\ nodes g' = nodes g /\
       (forall s, successors g o = Ok s -> successors g' o = Ok (remove eq_dec d s)) /\
       (forall p, predecessors g d = Ok p -> predecessors g' d = Ok (remove eq_dec o p)) /\
       (forall a b, a <> o \/ b <> d ->
                    edge g' a b = edge g a b /\ has_edge g' a b = has_edge g a b)).
  Proof.
    intros Hm.
    assert (Hin : In d (nodes g) <-> In d (dict_keys (_in_edges g)))
      by apply (mirror_nodes_in g d Hm).
    split.
    - split.
      + intros Hrun.
        destruct (in_dec eq_dec o (nodes g)) as [Ho|Ho]; [|tauto].
        destruct (in_dec eq_dec d (nodes g)) as [Hd|Hd]; [|tauto].
        destruct (remove_edge_Ok g o d Ho (proj1 Hin Hd)) as [g' Hg']. congruence.
      + intros Hmiss. apply remove_edge_fails. tauto.
    - intros Ho Hd.
      destruct (remove_edge_Ok g o d Ho (proj1 Hin Hd)) as [g' Hrun].
      exists g'. split; [exact Hrun|].
      pose proof (out_label_remove_edge Hrun) as Hout.
      assert (Hod : out_label g' o d = None).
      { rewrite Hout. destruct (eq_dec o o); [|congruence].
        destruct (eq_dec d d); congruence. }
      split; [now rewrite has_edge_out_label, Hod|].
      split; [exact (nodes_remove_edge Hrun)|].
      unfold remove_edge in Hrun. inv_ok.
      split; [|split].
      * intros s Hs. apply successors_Ok in Hs. destruct Hs as (edges & Hedges & ->).
        assert (edges = a) by congruence. subst edges.
        unfold successors. cbn [_out_edges]. rewrite dict_get_set_eq. cbn [lookup bind].
        now rewrite dict_keys_pop.
      * intros p Hp. apply predecessors_Ok in Hp. destruct Hp as (edges & Hedges & ->).
        assert (edges = a0) by congruence. subst edges.
        unfold predecessors. cbn [_in_edges]. rewrite dict_get_set_eq. cbn [lookup bind].
        now rewrite dict_keys_pop.
      * intros x y Hne.
        assert (Hxy : out_label
                        (mkGraph (dict_set (_out_edges g) o (dict_pop a d))
                                 (dict_set (_in_edges g) d (dict_pop a0 o))) x y
                      = out_label g x y).
        { rewrite Hout. destruct (eq_dec o x); [|reflexivity].
          destruct (eq_dec d y); [|reflexivity]. subst. tauto. }
        now rewrite !edge_label, !has_edge_out_label, Hxy.
  Qed.

  (** X5.  [remove_edge] of an edge that the graph does not have, between
      two of its nodes, raises nothing and leaves the graph exactly as it
      was. *)
Theorem remove_edge_missing_edge g o d :
    mirror g -> In o (nodes g) -> In d (nodes g) -> has_edge g o d = false ->
    remove_edge g o d = Ok g.
  Proof. apply remove_edge_absent. Qed.

  (** X6.  [remove_edge] undoes [add_edge]: adding an edge that the graph
      did not have and removing it gives back the graph, with the order of
      every dictionary as it was. *)
Theorem add_edge_remove_edge_round_trip g o d e g1 :
    mirror g -> has_edge g o d = false -> add_edge g o d e = Ok g1 ->
    remove_edge g1 o d = Ok g.
  Proof.
    intros Hm He Hrun. unfold add_edge in Hrun. inv_ok.
    destruct (absent_both_ways g o d a a0 Hm He Ha Ha0) as [Hno Hni].
    unfold remove_edge. cbn [_out_edges _in_edges].
    rewrite !dict_get_set_eq. cbn [lookup bind].
    rewrite !dict_set_set, !dict_pop_set_new by assumption.
    rewrite !dict_set_same by assumption. now destruct g.
  Qed.
  (** X7.  [remove_node] raises [KeyError] when the graph does not have the
      node.  Otherwise it returns: the node leaves the nodes, the successors
      and the predecessors of the others, which all keep their order; no
      edge from or to the node is left, and every edge between two other
      nodes keeps its label. *)
Theorem remove_node_effect g node :
    mirror g ->
    (~ In node (nodes g) -> remove_node g node = Raise KeyError) /\
    (In node (nodes g) ->
     exists g',
       remove_node g node = Ok g' /\
       nodes g' = remove eq_dec node (nodes g) /\
       (forall a s, a <> node -> successors g a = Ok s ->
                    successors g' a = Ok (remove eq_dec node s)) /\
       (forall a p, a <> node -> predecessors g a = Ok p ->
                    predecessors g' a = Ok (remove eq_dec node p)) /\
       (forall a b, a = node \/ b = node -> has_edge g' a b = false) /\
       (forall a b, a <> node -> b <> node ->
                    edge g' a b = edge g a b /\ has_edge g' a b = has_edge g a b)).
  Proof.
    intros Hm. split; [apply remove_node_absent|].
    intros Hn. destruct (remove_node_Ok g node Hm Hn) as [g' Hrun].
    exists g'. split; [exact Hrun|].
    destruct (remove_node_spec Hm Hrun) as (Hnodes & _ & Hout & Hin).
    pose proof (out_label_remove_node Hm Hrun) as Hlabel.
    split; [exact Hnodes|]. split; [|split; [|split]].
    - intros a s Ha Hs. apply successors_Ok in Hs. destruct Hs as (edges & Hedges & ->).
      unfold successors. rewrite Hout, Hedges.
      destruct (eq_dec node a); [congruence|]. cbn [option_map lookup bind].
      now rewrite dict_keys_pop.
    - intros a p Ha Hp. apply predecessors_Ok in Hp. destruct Hp as (edges & Hedges & ->).
      unfold predecessors. rewrite Hin, Hedges.
      destruct (eq_dec node a); [congruence|]. cbn [option_map lookup bind].
      now rewrite dict_keys_pop.
    - intros a b Hab. rewrite has_edge_out_label, Hlabel.
      destruct (eq_dec node a); [reflexivity|].
      destruct (eq_dec node b); [reflexivity|]. destruct Hab; congruence.
    - intros a b Ha Hb.
      assert (Hab : out_label g' a b = out_label g a b).
      { rewrite Hlabel. destruct (eq_dec node a); [congruence|].
        destruct (eq_dec node b); [congruence|]. reflexivity. }
      now rewrite !edge_label, !has_edge_out_label, Hab.
  Qed.

  (** X8.  The four ways to read an edge agree on a graph whose indices
      are mirrored: [has_edge] is true exactly when [edge] returns a label,
      when the destination is among the [successors] of the origin, and
      when the origin is among the [predecessors] of the destination;
      [edge] raises [KeyError] when [has_edge] is false, and [successors]
      and [predecessors] raise it for what is not a node. *)
Theorem reads_agree g o d :
    mirror g ->
    (has_edge g o d = true <-> exists l, edge g o d = Ok l) /\
    (has_edge g o d = false <-> edge g o d = Raise KeyError) /\
    (has_edge g o d = true <-> exists s, successors g o = Ok s /\ In d s) /\
    (has_edge g o d = true <-> exists p, predecessors g d = Ok p /\ In o p) /\
    (successors g o = Raise KeyError <-> ~ In o (nodes g)) /\
    (predecessors g d = Raise KeyError <-> ~ In d (nodes g)).
  Proof.
    intros Hm. split; [|split; [|split; [|split; [|split]]]].
    - rewrite has_edge_out_label, edge_label.
      destruct (out_label g o d) as [l|]; simpl; split; eauto; try discriminate.
      intros [l Hl]. discriminate.
    - rewrite has_edge_out_label, edge_label.
      destruct (out_label g o d) as [l|]; simpl; split; auto; discriminate.
    - split.
      + intros He. destruct (edge_nodes g o d Hm He) as [Ho _].
        destruct (successors_node g o Ho) as [s Hs]. exists s. split; [exact Hs|].
        now apply (successors_has_edge g o s d Hs).
      + intros (s & Hs & Hd). now apply (successors_has_edge g o s d Hs).
    - split.
      + intros He. destruct (edge_nodes g o d Hm He) as [_ Hd].
        apply (mirror_nodes_in g d Hm) in Hd.
        destruct (predecessors_node g d Hd) as [p Hp]. exists p. split; [exact Hp|].
        now apply (predecessors_has_edge g d p o Hm Hp).
      + intros (p & Hp & Ho). now apply (predecessors_has_edge g d p o Hm Hp).
    - split.
      + intros Hrun Ho. destruct (successors_node g o Ho) as [s Hs]. congruence.
      + apply successors_absent.
    - split.
      + intros Hrun Hd. apply (mirror_nodes_in g d Hm) in Hd.
        destruct (predecessors_node g d Hd) as [p Hp]. congruence.
      + intros Hd. apply predecessors_absent. intros Hc. apply Hd.
        now apply (mirror_nodes_in g d Hm).
  Qed.
End Methods.

Lemma add_node_keeps_edges_witness :
  mirror one_edge /\
  add_node one_edge 1 = one_edge /\
  nodes (add_node one_edge 3) = nodes one_edge ++ [3] /\
  successors (add_node one_edge 3) 3 = Ok [] /\
  predecessors (add_node one_edge 3) 3 = Ok [].
Proof.
  split; [apply one_edge_ok|]. split.
  - apply (add_node_keeps_edges one_edge 1); [apply one_edge_ok|]. simpl; tauto.
  - apply (add_node_keeps_edges one_edge 3); [apply one_edge_ok|].
    simpl. intros [Hc|[Hc|[]]]; discriminate.
Defined.

Lemma add_edge_missing_node_witness :
  mirror one_edge /\
  (add_edge one_edge 1 3 true = Raise KeyError <->
   ~ In 1 (nodes one_edge) \/ ~ In 3 (nodes one_edge)) /\
  ((exists g', add_edge one_edge 2 1 false = Ok g') <->
   In 2 (nodes one_edge) /\ In 1 (nodes one_edge)).
Proof.
  split; [apply one_edge_ok|]. split.
  - apply (add_edge_missing_node one_edge 1 3 true), one_edge_ok.
  - apply (add_edge_missing_node one_edge 2 1 false), one_edge_ok.
Defined.

Lemma add_edge_then_read_witness :
  add_edge (add_node (add_node Graph_init 1) 2) 1 2 true = Ok one_edge /\
  edge one_edge 1 2 = Ok true /\ has_edge one_edge 1 2 = true.
Proof.
  split; [reflexivity|].
  pose proof (add_edge_then_read (add_node (add_node Graph_init 1) 2) 1 2 true one_edge
                eq_refl) as (Hedge & Hhas & _).
  split; [exact Hedge|exact Hhas].
Defined.

Lemma remove_edge_effect_witness :
  mirror one_edge /\ In 1 (nodes one_edge) /\ In 2 (nodes one_edge) /\
  exists g',
    remove_edge one_edge 1 2 = Ok g' /\
    has_edge g' 1 2 = false /\ nodes g' = nodes one_edge.
Proof.
  split; [apply one_edge_ok|]. split; [simpl; tauto|]. split; [simpl; tauto|].
  destruct (proj2 (remove_edge_effect one_edge 1 2 (proj2 (proj2 one_edge_ok))))
    as (g' & Hrun & Hgone & Hnodes & _).
  - simpl; tauto.
  - simpl; tauto.
  - exists g'. split; [exact Hrun|]. split; [exact Hgone|exact Hnodes].
Defined.

Lemma remove_edge_missing_edge_witness :
  mirror one_edge /\ In 2 (nodes one_edge) /\ In 1 (nodes one_edge) /\
  has_edge one_edge 2 1 = false /\
  remove_edge one_edge 2 1 = Ok one_edge.
Proof.
  split; [apply one_edge_ok|]. split; [simpl; tauto|]. split; [simpl; tauto|].
  split; [reflexivity|].
  apply (remove_edge_missing_edge one_edge 2 1 (proj2 (proj2 one_edge_ok)));
    [simpl; tauto|simpl; tauto|reflexivity].
Defined.

Lemma add_edge_remove_edge_round_trip_witness :
  mirror one_edge /\ has_edge one_edge 2 1 = false /\
  add_edge one_edge 2 1 false =
    Ok (mkGraph [(1, [(2, true)]); (2, [(1, false)])]
                [(1, [(2, false)]); (2, [(1, true)])]) /\
  remove_edge (mkGraph [(1, [(2, true)]); (2, [(1, false)])]
                       [(1, [(2, false)]); (2, [(1, true)])]) 2 1 = Ok one_edge.
Proof.
  split; [apply one_edge_ok|]. split; [reflexivity|]. split; [reflexivity|].
  apply (add_edge_remove_edge_round_trip one_edge 2 1 false _ (proj2 (proj2 one_edge_ok)));
    reflexivity.
Defined.

Lemma remove_node_effect_witness :
  mirror one_edge /\
  remove_node one_edge 3 = Raise KeyError /\
  exists g', remove_node one_edge 1 = Ok g' /\ nodes g' = remove eq_dec 1 (nodes one_edge).
Proof.
  split; [apply one_edge_ok|]. split.
  - apply (remove_node_effect one_edge 3); [apply one_edge_ok|].
    simpl. intros [Hc|[Hc|[]]]; discriminate.
  - destruct (proj2 (remove_node_effect one_edge 1 (proj2 (proj2 one_edge_ok))))
      as (g' & Hrun & Hnodes & _); [simpl; tauto|].
    exists g'. split; [exact Hrun|exact Hnodes].
Defined.

Lemma reads_agree_witness :
  mirror one_edge /\
  (has_edge one_edge 1 2 = true <-> exists l, edge one_edge 1 2 = Ok l) /\
  (has_edge one_edge 1 2 = true <->
   exists p, predecessors one_edge 2 = Ok p /\ In 1 p).
Proof.
  pose proof (reads_agree one_edge 1 2 (proj2 (proj2 one_edge_ok)))
    as (Hedge & _ & _ & Hpred & _).
  split; [apply one_edge_ok|]. split; [exact Hedge|exact Hpred].
Defined.

(** ** [update] and [copy], with the order of the dictionaries *)

Section Merge.
Context {N E : Type} `{EqDec N}.
Implicit Types (g self other : Graph N E).

Lemma keys_setdefault_add {V} (d : dict N V) k v :
    dict_keys (dict_setdefault d k v) = set_add k (dict_keys d).
  Proof.
    unfold set_add. destruct (mem k (dict_keys d)) eqn:Hk.
    - rewrite dict_setdefault_present by (now apply mem_true). reflexivity.
    - rewrite dict_setdefault_absent by (now apply mem_false).
      unfold dict_keys. now rewrite map_app.
  Qed.

  (** What one turn of the loop of [update] leaves in the two indices. *)
Lemma update_node_get [other self node g'] :
    update_node other self node = Ok g' ->
    nodes g' = set_add node (nodes self) /\
    (forall a, dict_get (_out_edges g') a =
               if eq_dec node a
               then option_map
                      (dict_update (match dict_get (_out_edges self) node with
                                    | Some mine => mine
                                    | None => []
                                    end))
                      (dict_get (_out_edges other) node)
               else dict_get (_out_edges self) a) /\
    (forall a, dict_get (_in_edges g') a =
               if eq_dec node a
               then option_map
                      (dict_update (match dict_get (_in_edges self) node with
                                    | Some mine => mine
                                    | None => []
                                    end))
                      (dict_get (_in_edges other) node)
               else dict_get (_in_edges self) a).
  Proof.
    intros Hrun. unfold update_node in Hrun. inv_ok.
    rename a into mo, a0 into to, a1 into mi, a2 into ti.
    cbn [add_node _out_edges _in_edges] in Ha, Ha1.
    rewrite dict_get_setdefault in Ha, Ha1.
    unfold nodes. cbn [add_node _out_edges _in_edges].
    split; [|split].
    - rewrite dict_keys_set_in, keys_setdefault_add; [reflexivity|].
      apply In_keys_setdefault. auto.
    - intros x. rewrite dict_get_set, Ha0. cbn [option_map].
      destruct (eq_dec node x) as [<-|Hne].
      + destruct (dict_get (_out_edges self) node).
        * inversion Ha. reflexivity.
        * destruct (eq_dec node node); [|congruence]. inversion Ha. reflexivity.
      + rewrite dict_get_setdefault.
        destruct (dict_get (_out_edges self) x); [reflexivity|].
        destruct (eq_dec node x); congruence.
    - intros x. rewrite dict_get_set, Ha2. cbn [option_map].
      destruct (eq_dec node x) as [<-|Hne].
      + destruct (dict_get (_in_edges self) node).
        * inversion Ha1. reflexivity.
        * destruct (eq_dec node node); [|congruence]. inversion Ha1. reflexivity.
      + rewrite dict_get_setdefault.
        destruct (dict_get (_in_edges self) x); [reflexivity|].
        destruct (eq_dec node x); congruence.
  Qed.

Lemma fold_set_add (ns : list N) : forall l,
    NoDup ns ->
    fold_left (fun acc n => set_add n acc) ns l =
    l ++ filter (fun n => negb (mem n l)) ns.
  Proof.
    induction ns as [|n ns IH]; intros l Hnd; simpl.
    - now rewrite app_nil_r.
    - inversion Hnd as [|? ? Hn Hnd']; subst. rewrite IH by exact Hnd'.
      unfold set_add. destruct (mem n l) eqn:Hmem; simpl; [reflexivity|].
      rewrite <- app_assoc. simpl. f_equal. f_equal.
      apply filter_ext_in. intros x Hx. f_equal.
      destruct (mem x l) eqn:Hxl.
      + apply mem_true. apply in_app_iff. left. now apply mem_true.
      + apply mem_false. intros Hc. apply in_app_iff in Hc.
        destruct Hc as [Hc|[<-|[]]]; [|tauto].
        apply mem_false in Hxl. tauto.
  Qed.

Lemma update_loop_nodes other : forall ns self g',
    for_each (update_node other) ns self = Ok g' ->
    nodes g' = fold_left (fun acc n => set_add n acc) ns (nodes self).
  Proof.
    induction ns as [|n ns IH]; simpl; intros self g' Hrun.
    - now inversion Hrun.
    - inv_ok. rewrite (IH _ _ Hrun). f_equal. apply (update_node_get Ha).
  Qed.

  (** The loop of [update] on nodes that the graph does not have yet: each
      gets the dictionaries of the other graph, entry by entry. *)
Lemma update_loop_fresh other (Hoo : index_ok (_out_edges other))
    (Hoi : index_ok (_in_edges other)) : forall ns self g',
    NoDup ns ->
    (forall n, In n ns -> dict_get (_out_edges self) n = None /\
                          dict_get (_in_edges self) n = None) ->
    for_each (update_node other) ns self = Ok g' ->
    (forall a, dict_get (_out_edges g') a =
               if mem a ns then dict_get (_out_edges other) a
               else dict_get (_out_edges self) a) /\
    (forall a, dict_get (_in_edges g') a =
               if mem a ns then dict_get (_in_edges other) a
               else dict_get (_in_edges self) a).
  Proof.
    induction ns as [|n ns IH]; simpl; intros self g' Hnd Hfresh Hrun.
    - inversion Hrun; subst. split; reflexivity.
    - inv_ok. rename a into g1.
      inversion Hnd as [|? ? Hn Hnd']; subst.
      destruct (update_node_get Ha) as (_ & Hout1 & Hin1).
      destruct (Hfresh n (or_introl eq_refl)) as [Hno Hni].
      rewrite Hno in Hout1. rewrite Hni in Hin1.
      destruct (IH g1 g' Hnd') as [Hout Hin]; [|exact Hrun|].
      { intros m Hm. rewrite Hout1, Hin1.
        destruct (eq_dec n m) as [->|Hne]; [tauto|]. apply Hfresh. auto. }
      assert (Hget : forall index : dict N (dict N E), index_ok index ->
                forall a (theirs : dict N E), dict_get index a = Some theirs ->
                                 dict_update [] theirs = theirs).
      { intros index Hindex a theirs Hth. apply dict_update_nil.
        exact (index_ok_get _ _ _ Hindex Hth). }
      split.
      + intros a. rewrite Hout, Hout1. unfold mem.
        destruct (in_dec eq_dec a (n :: ns)) as [Ha'|Ha'];
          destruct (in_dec eq_dec a ns) as [Ha''|Ha'']; try reflexivity.
        * destruct Ha' as [->|]; [|tauto].
          destruct (eq_dec a a); [|congruence].
          destruct (dict_get (_out_edges other) a) as [theirs|] eqn:Hth; [|reflexivity].
          cbn [option_map]. now rewrite (Hget _ Hoo a theirs Hth).
        * exfalso. apply Ha'. right. exact Ha''.
        * destruct (eq_dec n a) as [->|]; [|reflexivity]. exfalso. apply Ha'. now left.
      + intros a. rewrite Hin, Hin1. unfold mem.
        destruct (in_dec eq_dec a (n :: ns)) as [Ha'|Ha'];
          destruct (in_dec eq_dec a ns) as [Ha''|Ha'']; try reflexivity.
        * destruct Ha' as [->|]; [|tauto].
          destruct (eq_dec a a); [|congruence].
          destruct (dict_get (_in_edges other) a) as [theirs|] eqn:Hth; [|reflexivity].
          cbn [option_map]. now rewrite (Hget _ Hoi a theirs Hth).
        * exfalso. apply Ha'. right. exact Ha''.
        * destruct (eq_dec n a) as [->|]; [|reflexivity]. exfalso. apply Ha'. now left.
  Qed.

Lemma copy_reads g :
    Graph_ok g ->
    exists c,
      copy g = Ok c /\ Graph_ok c /\
      nodes c = nodes g /\
      (forall n, successors c n = successors g n) /\
      (forall n, predecessors c n = predecessors g n) /\
      (forall a b, edge c a b = edge g a b) /\
      (forall a b, has_edge c a b = has_edge g a b).
  Proof.
    intros Hg. destruct (copy_Ok g (proj2 (proj2 Hg))) as [c Hrun].
    exists c. split; [exact Hrun|].
    destruct (copy_spec Hg Hrun) as (Hok & Hnodes & _ & Hlabel).
    split; [exact Hok|]. split; [exact Hnodes|].
    unfold copy, update in Hrun.
    destruct (update_loop_fresh g (proj1 Hg) (proj1 (proj2 Hg)) (nodes g) Graph_init c)
      as [Hout Hin]; [apply Hg|intros n _; split; reflexivity|exact Hrun|].
    assert (Hsame_out : forall n, dict_get (_out_edges c) n = dict_get (_out_edges g) n).
    { intros n. rewrite Hout. destruct (mem n (nodes g)) eqn:Hn; [reflexivity|].
      apply mem_false in Hn. simpl. symmetry. now apply dict_get_None. }
    assert (Hsame_in : forall n, dict_get (_in_edges c) n = dict_get (_in_edges g) n).
    { intros n. rewrite Hin. destruct (mem n (nodes g)) eqn:Hn; [reflexivity|].
      apply mem_false in Hn. simpl. symmetry. apply dict_get_None.
      intros Hc. apply Hn. now apply (mirror_nodes_in g n (proj2 (proj2 Hg))). }
    split; [|split; [|split]].
    - intros n. unfold successors. now rewrite Hsame_out.
    - intros n. unfold predecessors. now rewrite Hsame_in.
    - intros a b. now rewrite !edge_label, Hlabel.
    - intros a b. now rewrite !has_edge_out_label, Hlabel.
  Qed.

  (** X9.  [update] from a well-formed graph raises nothing.  The nodes of
      the graph keep their order and the new nodes of the other graph
      follow in theirs; the edges are those of either graph, and an edge
      that both have takes the label of the other graph. *)
Theorem update_takes_other_labels self other :
    Graph_ok other ->
    exists g',
      update self other = Ok g' /\
      nodes g' = nodes self ++ filter (fun n => negb (mem n (nodes self))) (nodes other) /\
      (forall a b, has_edge g' a b = has_edge self a b || has_edge other a b) /\
      (forall a b, edge g' a b =
                   match edge other a b with
                   | Ok l => Ok l
                   | _ => edge self a b
                   end).
  Proof.
    intros Hother.
    destruct (update_Ok self other (proj2 (proj2 Hother))) as [g' Hrun].
    exists g'. split; [exact Hrun|].
    destruct (update_spec Hother Hrun) as (_ & _ & Hout & _).
    split; [|split].
    - unfold update in Hrun. rewrite (update_loop_nodes _ _ _ _ Hrun).
      apply fold_set_add. apply Hother.
    - intros a b. rewrite !has_edge_out_label, Hout. unfold merged.
      destruct (out_label other a b), (out_label self a b); reflexivity.
    - intros a b. rewrite !edge_label, Hout. unfold merged.
      destruct (out_label other a b); reflexivity.
  Qed.

  (** X10.  [copy] of a well-formed graph returns a well-formed graph
      that reads as the original: the same nodes in the same order, for
      every node the same successors and the same predecessors in the same
      order, and the same labels. *)
Theorem copy_reads_as_original g :
    Graph_ok g ->
    exists c,
      copy g = Ok c /\ Graph_ok c /\
      nodes c = nodes g /\
      (forall n, successors c n = successors g n) /\
      (forall n, predecessors c n = predecessors g n) /\
      (forall a b, edge c a b = edge g a b) /\
      (forall a b, has_edge c a b = has_edge g a b).
  Proof. apply copy_reads. Qed.
End Merge.

Lemma update_takes_other_labels_witness :
  Graph_ok other_edge /\
  exists g',
    update one_edge other_edge = Ok g' /\
    nodes g' =
      nodes one_edge ++ filter (fun n => negb (mem n (nodes one_edge))) (nodes other_edge).
Proof.
  split; [exact other_edge_ok|].
  destruct (update_takes_other_labels one_edge other_edge other_edge_ok)
    as (g' & Hrun & Hnodes & _).
  exists g'. split; [exact Hrun|exact Hnodes].
Defined.

Lemma copy_reads_as_original_witness :
  Graph_ok one_edge /\
  exists c, copy one_edge = Ok c /\ Graph_ok c /\ nodes c = nodes one_edge.
Proof.
  split; [exact one_edge_ok|].
  destruct (copy_reads_as_original one_edge one_edge_ok) as (c & Hrun & Hok & Hnodes & _).
  exists c. split; [exact Hrun|]. split; [exact Hok|exact Hnodes].
Defined.

(** ** Self-references and the cycle search *)

Section SelfReferences.
Context {N E : Type} `{EqDec N}.
Implicit Types (g : Graph N E).

Lemma remove_self_loop_labels : forall xs g g',
    for_each (fun g node => remove_edge g node node) xs g = Ok g' ->
    forall a b, out_label g' a b =
                if eq_dec a b
                then if mem a xs then None else out_label g a b
                else out_label g a b.
  Proof.
    induction xs as [|x xs IH]; simpl; intros g g' Hrun a b.
    - inversion Hrun; subst. destruct (eq_dec a b); reflexivity.
    - inv_ok. rename a0 into g1. rewrite (IH _ _ Hrun).
      rewrite (out_label_remove_edge Ha). unfold mem.
      destruct (eq_dec a b) as [<-|Hab].
      + destruct (in_dec eq_dec a xs) as [Hin|Hin];
          destruct (in_dec eq_dec a (x :: xs)) as [Hin'|Hin']; try reflexivity.
        * exfalso. apply Hin'. now right.
        * destruct (eq_dec x a) as [->|Hne]; [reflexivity|].
          destruct Hin' as [->|]; tauto.
        * destruct (eq_dec x a) as [->|Hne]; [|reflexivity].
          exfalso. apply Hin'. now left.
      + destruct (eq_dec x a) as [->|]; [|reflexivity].
        destruct (eq_dec a b); [congruence|reflexivity].
  Qed.

Lemma remove_self_loops_Ok : forall xs g,
    Graph_ok g -> incl xs (nodes g) ->
    exists g', for_each (fun g node => remove_edge g node node) xs g = Ok g' /\
               Graph_ok g' /\ nodes g' = nodes g.
  Proof.
    induction xs as [|x xs IH]; simpl; intros g Hg Hxs; [eauto|].
    assert (Hx : In x (nodes g)) by (apply Hxs; simpl; auto).
    destruct (remove_edge_Ok g x x Hx) as [g1 Hg1].
    { now apply (mirror_nodes_in g x (proj2 (proj2 Hg))). }
    rewrite Hg1. cbn [bind].
    pose proof (remove_edge_ok _ _ _ _ Hg Hg1) as Hok1.
    pose proof (nodes_remove_edge Hg1) as Hn1.
    destruct (IH g1 Hok1) as (g' & Hrun & Hok & Hn).
    - rewrite Hn1. intros z Hz. apply Hxs. simpl; auto.
    - exists g'. split; [exact Hrun|]. split; [exact Hok|]. congruence.
  Qed.

  (** X11.  [_remove_self_references] returns on a well-formed graph: no
      node is left with an edge to itself, and the nodes and every edge
      between two different nodes are as they were. *)
Theorem remove_self_references_effect g :
    Graph_ok g ->
    exists g',
      _remove_self_references g = Ok g' /\ Graph_ok g' /\
      nodes g' = nodes g /\
      (forall a, has_edge g' a a = false) /\
      (forall a b, a <> b ->
                   edge g' a b = edge g a b /\ has_edge g' a b = has_edge g a b).
  Proof.
    intros Hg.
    destruct (remove_self_loops_Ok (nodes g) g Hg (incl_refl _)) as (g' & Hrun & Hok & Hnodes).
    exists g'. split; [exact Hrun|]. split; [exact Hok|]. split; [exact Hnodes|].
    pose proof (remove_self_loop_labels _ _ _ Hrun) as Hlabel.
    split.
    - intros a. rewrite has_edge_out_label, Hlabel.
      destruct (eq_dec a a); [|congruence].
      destruct (mem a (nodes g)) eqn:Ha; [reflexivity|].
      apply mem_false in Ha. now rewrite out_label_absent.
    - intros a b Hab. rewrite !edge_label, !has_edge_out_label, Hlabel.
      destruct (eq_dec a b); [congruence|]. split; reflexivity.
  Qed.

Lemma remove_self_references_none : forall xs g,
    mirror g -> incl xs (nodes g) -> (forall a, has_edge g a a = false) ->
    for_each (fun g node => remove_edge g node node) xs g = Ok g.
  Proof.
    induction xs as [|x xs IH]; simpl; intros g Hm Hxs Hfree; [reflexivity|].
    assert (Hx : In x (nodes g)) by (apply Hxs; simpl; auto).
    rewrite (remove_edge_absent g x x Hm Hx Hx (Hfree x)). cbn [bind].
    apply IH; auto. intros y Hy. apply Hxs. simpl; auto.
  Qed.
End SelfReferences.

Lemma remove_self_references_effect_witness :
  Graph_ok self_loop /\
  exists g',
    _remove_self_references self_loop = Ok g' /\ Graph_ok g' /\
    nodes g' = nodes self_loop /\
    (forall a, has_edge g' a a = false).
Proof.
  split; [exact self_loop_ok|].
  destruct (remove_self_references_effect self_loop self_loop_ok)
    as (g' & Hrun & Hok & Hnodes & Hfree & _).
  exists g'. split; [exact Hrun|]. split; [exact Hok|]. split; [exact Hnodes|exact Hfree].
Defined.

Section CycleFound.
Context {N E : Type} `{EqDec N}.
Variable pick : list N -> nat.
Implicit Types (g : Graph N E) (stack : list (frame (N:=N))).

Lemma path_trans g a b c : path g a b -> path g b c -> path g a c.
  Proof.
    induction 1 as [a b He|a b b' He Hp IH]; intros Hc.
    - eapply path_step; eauto.
    - eapply path_step; eauto.
  Qed.

  (** From the successor drawn, down the frames above the frame of
      [dependency] and to [dependency]: each is followed by one of its
      predecessors. *)
Lemma backwards_above g dependency : forall stack s,
    chained g stack -> In dependency (map fst stack) ->
    (forall t deps below, stack = (t, deps) :: below -> has_edge g t s = true) ->
    backwards g (s :: above dependency stack ++ [dependency]).
  Proof.
    induction stack as [|[t deps] below IH]; intros s Hch Hin Htop; [destruct Hin|].
    pose proof (Htop t deps below eq_refl) as Hts.
    cbn [above]. destruct (eq_dec t dependency) as [->|Hne].
    - simpl. auto.
    - change (backwards g (s :: t :: above dependency below ++ [dependency])).
      split; [exact Hts|].
      destruct Hch as [Hlow Hch]. apply IH; auto.
      + destruct Hin as [Heq|Hin]; [simpl in Heq; congruence|exact Hin].
      + intros t' deps' below' ->. exact Hlow.
  Qed.

  (** A cycle of the graph, as the search lists it: distinct nodes of the
      graph, each followed by one of its predecessors, and the first a
      predecessor of the last. *)
Lemma unwind_simple_cycle g in_stack top rest below dependency cycle :
    dfs_inv g in_stack ((top, rest) :: below) ->
    has_edge g top dependency = true ->
    In dependency in_stack ->
    unwind dependency ((top, rest) :: below) [dependency] = Ok cycle ->
    exists first others,
      cycle = first :: others /\ NoDup cycle /\ incl cycle (nodes g) /\
      backwards g (cycle ++ [first]).
  Proof.
    intros Hinv He Hin Hrun.
    destruct (unwind_closed_cycle g in_stack top rest below dependency Hinv He Hin)
      as (cycle' & Hrun' & Hcycle & _ & Hnd & Hincl & _).
    assert (Heq : cycle = dependency :: above dependency ((top, rest) :: below))
      by congruence.
    assert (Hsame : cycle' = cycle) by congruence.
    rewrite Hsame in Hnd, Hincl.
    exists dependency, (above dependency ((top, rest) :: below)).
    split; [exact Heq|]. split; [exact Hnd|]. split; [exact Hincl|].
    rewrite Heq. destruct Hinv as (_ & Hset & Hch & _).
    apply (backwards_above g dependency ((top, rest) :: below) dependency Hch).
    - now apply Hset.
    - intros t deps below' Hstack. inversion Hstack; subst. exact He.
  Qed.

Lemma dfs_cycle g : forall fuel processed in_stack stack cycle,
    dfs_inv g in_stack stack ->
    dfs pick fuel g processed in_stack stack = Ok (Cycle cycle) ->
    exists first others,
      cycle = first :: others /\ NoDup cycle /\ incl cycle (nodes g) /\
      backwards g (cycle ++ [first]).
  Proof.
    induction fuel as [|fuel IH]; intros processed in_stack stack cycle Hinv Hrun;
      [discriminate|].
    destruct stack as [|[top deps] below]; [discriminate|].
    destruct deps as [|d ds].
    - apply (eq_trans (eq_sym (dfs_leave pick fuel g processed in_stack top below)))
        in Hrun.
      destruct (dfs_inv_leave g in_stack top below Hinv) as [Htop Hinv'].
      replace (mem top in_stack) with true in Hrun by (symmetry; now apply mem_true).
      exact (IH _ _ _ _ Hinv' Hrun).
    - destruct (set_pop_cons pick d ds) as (dep & rest & Hpop).
      destruct (set_pop_Ok pick _ _ _ Hpop) as (Hdep & Hrest & _).
      apply (eq_trans (eq_sym (dfs_draw pick fuel g processed in_stack top d ds below
                                 dep rest Hpop))) in Hrun.
      destruct (dfs_inv_draw pick g in_stack top (d :: ds) below dep Hinv Hdep)
        as [He Hinv'].
      rewrite <- Hrest in Hinv'.
      destruct (mem dep in_stack) eqn:Hin_stack.
      + apply mem_true in Hin_stack.
        destruct (unwind dep ((top, rest) :: below) [dep]) as [c| |] eqn:Hunwind;
          try discriminate.
        cbn [bind] in Hrun. inversion Hrun; subst c.
        exact (unwind_simple_cycle g in_stack top rest below dep cycle
                 Hinv' He Hin_stack Hunwind).
      + apply mem_false in Hin_stack.
        destruct (mem dep processed) eqn:Hproc.
        * exact (IH _ _ _ _ Hinv' Hrun).
        * destruct (successors g dep) as [deps'| |] eqn:Hsucc; try discriminate.
          cbn [bind] in Hrun.
          exact (IH _ _ _ _ (dfs_inv_push pick g in_stack top rest below dep deps'
                               Hinv' He Hin_stack Hsucc) Hrun).
  Qed.

Lemma search_from_cycle g fuel : forall roots processed cycle,
    search_from pick fuel g roots processed = Ok (Some cycle) ->
    exists first others,
      cycle = first :: others /\ NoDup cycle /\ incl cycle (nodes g) /\
      backwards g (cycle ++ [first]).
  Proof.
    induction roots as [|root roots IH]; intros processed cycle Hrun; [discriminate|].
    cbn [search_from] in Hrun.
    destruct (mem root processed); [exact (IH _ _ Hrun)|].
    destruct (successors g root) as [deps| |] eqn:Hsucc; try discriminate.
    cbn [bind] in Hrun.
    destruct (dfs pick fuel g processed [root] [(root, deps)])
      as [[c|p1]| |] eqn:Hdfs; try discriminate; cbn [bind] in Hrun.
    - inversion Hrun; subst c.
      apply (dfs_cycle g fuel processed [root] [(root, deps)] cycle); [|exact Hdfs].
      split; [|split; [|split]]; simpl.
      + constructor; [tauto|constructor].
      + tauto.
      + tauto.
      + intros n ds [Heq|[]]. inversion Heq; subst. split.
        * pose proof Hsucc as Hs. apply successors_Ok in Hs.
          destruct Hs as (edges & Hedges & _). apply dict_get_In_keys. eauto.
        * intros x Hx. now apply (successors_has_edge g n _ x Hsucc).
    - exact (IH _ _ Hrun).
  Qed.

Lemma closed_walk_paths g first others :
    backwards g ((first :: others) ++ [first]) ->
    forall x, In x (first :: others) -> path g x x.
  Proof.
    intros Hwalk x Hx.
    assert (Hfirst : path g first first).
    { apply (backwards_path g others first first []). exact Hwalk. }
    destruct Hx as [<-|Hx]; [exact Hfirst|].
    apply in_split in Hx. destruct Hx as (l1 & l2 & ->).
    assert (Hxf : path g x first).
    { apply (backwards_path g l1 first x (l2 ++ [first])).
      simpl in Hwalk. now rewrite <- app_assoc in Hwalk. }
    assert (Hfx : path g first x).
    { apply (backwards_path g l2 x first []).
      change (first :: (l1 ++ x :: l2) ++ [first])
        with ((first :: l1) ++ (x :: l2) ++ [first]) in Hwalk.
      simpl in Hwalk. rewrite <- app_assoc in Hwalk.
      apply (backwards_app_r g (first :: l1)). exact Hwalk. }
    exact (path_trans g x first x Hxf Hfx).
  Qed.

  (** X12.  On a graph whose indices are mirrored [_find_cycle] returns,
      whatever the order in which its sets give their elements, and it
      returns [None] exactly when the graph has no cycle. *)
Theorem find_cycle_none_iff_acyclic g :
    mirror g ->
    (exists r, _find_cycle pick g = Ok r) /\
    (_find_cycle pick g = Ok None <-> acyclic g).
  Proof.
    intros Hm. split.
    - destruct (find_cycle_spec pick g Hm) as (r & Hr & _). eauto.
    - split.
      + apply find_cycle_none_acyclic.
      + intros Hac. now apply find_cycle_acyclic_none.
  Qed.

  (** X13.  The list that [_find_cycle] returns is a cycle of the graph:
      distinct nodes of the graph, not none, each with an edge from the
      node listed after it and the last with an edge from the first; so
      every node of the list is on a cycle. *)
Theorem find_cycle_reports_simple_cycle g cycle :
    _find_cycle pick g = Ok (Some cycle) ->
    (exists first others,
        cycle = first :: others /\ NoDup cycle /\ incl cycle (nodes g) /\
        backwards g (cycle ++ [first])) /\
    (forall x, In x cycle -> path g x x).
  Proof.
    intros Hrun. unfold _find_cycle in Hrun.
    destruct (search_from_cycle g _ _ _ _ Hrun) as (first & others & -> & Hnd & Hincl & Hw).
    split; [exists first, others; auto|].
    now apply closed_walk_paths.
  Qed.
End CycleFound.

Lemma find_cycle_none_iff_acyclic_witness :
  mirror one_edge /\
  (exists r, _find_cycle (fun _ => 0) one_edge = Ok r) /\
  (_find_cycle (fun _ => 0) one_edge = Ok None <-> acyclic one_edge).
Proof.
  split; [apply one_edge_ok|].
  apply (find_cycle_none_iff_acyclic (fun _ => 0) one_edge), one_edge_ok.
Defined.

Lemma find_cycle_reports_simple_cycle_witness :
  _find_cycle (fun _ => 0) three_cycle = Ok (Some [1; 3; 2]) /\
  backwards three_cycle ([1; 3; 2] ++ [1]) /\
  (forall x, In x [1; 3; 2] -> path three_cycle x x).
Proof.
  assert (Hrun : _find_cycle (fun _ => 0) three_cycle = Ok (Some [1; 3; 2]))
    by (vm_compute; reflexivity).
  split; [exact Hrun|].
  destruct (find_cycle_reports_simple_cycle (fun _ => 0) three_cycle [1; 3; 2] Hrun)
    as [(first & others & Heq & _ & _ & Hwalk) Hpaths].
  split; [|exact Hpaths].
  inversion Heq; subst first. exact Hwalk.
Defined.

(** ** [replace_cycles] on a graph without cycles *)

Section ReplaceAgain.
Context {N : Type} `{EqDec N}.
Implicit Types (g : Graph N bool).

Lemma acyclic_no_self_loop g : acyclic g -> forall a, has_edge g a a = false.
  Proof.
    intros Hac a. destruct (has_edge g a a) eqn:He; [|reflexivity].
    destruct (Hac a). now apply path_edge.
  Qed.

Lemma replace_cycles_fixed pick key g :
    Graph_ok g -> acyclic g -> replace_cycles pick key g = Ok g.
  Proof.
    intros Hg Hac. unfold replace_cycles, _remove_self_references.
    rewrite (remove_self_references_none (nodes g) g (proj2 (proj2 Hg)) (incl_refl _)
               (acyclic_no_self_loop g Hac)).
    cbn [bind replace_loop].
    rewrite (find_cycle_acyclic_none g (proj2 (proj2 Hg)) Hac pick). reflexivity.
  Qed.

  (** X14.  On a well-formed graph without cycles [replace_cycles] changes
      nothing: the graph it leaves is the graph it was given, with the
      order of every dictionary as it was. *)
Theorem replace_cycles_acyclic_unchanged pick key g :
    Graph_ok g -> acyclic g -> replace_cycles pick key g = Ok g.
  Proof. apply replace_cycles_fixed. Qed.

  (** X15.  [replace_cycles] need not be run twice: on the graph that it
      leaves, a second run, with any rank function and any order of the
      sets of the search, changes nothing. *)
Theorem replace_cycles_idempotent pick key pick' key' g :
    Graph_ok g ->
    exists g', replace_cycles pick key g = Ok g' /\
               replace_cycles pick' key' g' = Ok g'.
  Proof.
    intros Hg. unfold replace_cycles at 1.
    destruct (remove_self_references_spec g Hg) as (g0 & Hg0 & Hok0 & _).
    rewrite Hg0. cbn [bind].
    destruct (replace_loop_spec pick key (S (edge_count g0)) g0 Hok0)
      as (g' & Hrun & Hok & _ & Hnone); [lia|].
    exists g'. split; [exact Hrun|].
    apply replace_cycles_fixed; [exact Hok|].
    exact (find_cycle_none_acyclic pick g' Hnone).
  Qed.
End ReplaceAgain.

Lemma one_edge_acyclic : acyclic one_edge.
Proof.
  apply (find_cycle_none_acyclic (fun _ => 0)). vm_compute. reflexivity.
Qed.

Lemma replace_cycles_acyclic_unchanged_witness :
  Graph_ok one_edge /\ acyclic one_edge /\
  replace_cycles (fun _ => 0) Z.of_nat one_edge = Ok one_edge.
Proof.
  split; [exact one_edge_ok|]. split; [exact one_edge_acyclic|].
  exact (replace_cycles_acyclic_unchanged (fun _ => 0) Z.of_nat one_edge
           one_edge_ok one_edge_acyclic).
Defined.

Lemma replace_cycles_idempotent_witness :
  Graph_ok three_cycle /\
  exists g', replace_cycles (fun _ => 0) Z.of_nat three_cycle = Ok g' /\
             replace_cycles (fun l => length l) (fun n => (- Z.of_nat n)%Z) g' = Ok g'.
Proof.
  split; [exact three_cycle_ok|].
  exact (replace_cycles_idempotent (fun _ => 0) Z.of_nat (fun l => length l)
           (fun n => (- Z.of_nat n)%Z) three_cycle three_cycle_ok).
Defined.

(** ** The edges that [replace_cycles] removes and adds *)

Section Membership.
Context {A : Type} `{EqDec A}.

Lemma mem_cons (a x : A) xs :
    mem a (x :: xs) = if eq_dec x a then true else mem a xs.
  Proof.
    unfold mem. destruct (in_dec eq_dec a (x :: xs)) as [Hin|Hin];
      destruct (eq_dec x a) as [->|Hne]; try reflexivity.
    - destruct (in_dec eq_dec a xs); [reflexivity|]. destruct Hin; [congruence|tauto].
    - exfalso. apply Hin. now left.
    - destruct (in_dec eq_dec a xs); [|reflexivity]. exfalso. apply Hin. now right.
  Qed.
End Membership.

Section SortedOrder.
Context {A : Type} `{EqDec A}.
Variable key : A -> Z.

Lemma insert_by_sorted (x : A) l :
    StronglySorted (fun a b => (key a <= key b)%Z) l ->
    StronglySorted (fun a b => (key a <= key b)%Z) (insert_by key x l).
  Proof.
    induction l as [|y l IH]; simpl; intros Hs.
    - constructor; constructor.
    - inversion Hs as [|? ? Hl Hy]; subst.
      destruct (key x <=? key y)%Z eqn:Hxy.
      + apply Z.leb_le in Hxy. constructor; [exact Hs|].
        constructor; [exact Hxy|].
        eapply Forall_impl; [|exact Hy]. simpl. intros z Hz. lia.
      + apply Z.leb_gt in Hxy. constructor; [now apply IH|].
        apply (Permutation_Forall (insert_by_perm key x l)).
        constructor; [lia|exact Hy].
  Qed.

Lemma sorted_sorted (l : list A) :
    StronglySorted (fun a b => (key a <= key b)%Z) (sorted key l).
  Proof.
    induction l as [|x l IH]; simpl; [constructor|]. now apply insert_by_sorted.
  Qed.

Lemma sorted_adjacent (l1 l2 : list A) a b :
    StronglySorted (fun a b => (key a <= key b)%Z) (l1 ++ b :: a :: l2) ->
    (key b <= key a)%Z.
  Proof.
    induction l1 as [|x l1 IH]; simpl; intros Hs; inversion Hs as [|? ? Hl Hx]; subst.
    - inversion Hx; assumption.
    - now apply IH.
  Qed.
End SortedOrder.

Section ReplacedEdges.
Context {N : Type} `{EqDec N}.
Variable pick : list N -> nat.
Variable key : N -> Z.
Implicit Types (g : Graph N bool).

Lemma remove_edges_from_labels node : forall ds g g',
    for_each (fun g dependency => remove_edge g node dependency) ds g = Ok g' ->
    forall a b, out_label g' a b =
                if eq_dec node a
                then if mem b ds then None else out_label g a b
                else out_label g a b.
  Proof.
    induction ds as [|d ds IH]; simpl; intros g g' Hrun a b.
    - inversion Hrun; subst. destruct (eq_dec node a); reflexivity.
    - inv_ok. rename a0 into g1. rewrite (IH _ _ Hrun).
      rewrite (out_label_remove_edge Ha), mem_cons.
      destruct (eq_dec node a); [|reflexivity].
      destruct (mem b ds); destruct (eq_dec d b); reflexivity.
  Qed.

Lemma remove_cycle_labels cycle : forall xs g g',
    for_each
      (fun g node =>
         for_each (fun g dependency => remove_edge g node dependency) cycle g) xs g
    = Ok g' ->
    forall a b, out_label g' a b =
                if mem a xs && mem b cycle then None else out_label g a b.
  Proof.
    induction xs as [|x xs IH]; simpl; intros g g' Hrun a b.
    - now inversion Hrun.
    - inv_ok. rename a0 into g1. rewrite (IH _ _ Hrun).
      rewrite (remove_edges_from_labels x cycle g g1 Ha), mem_cons.
      destruct (mem a xs); destruct (eq_dec x a); destruct (mem b cycle); reflexivity.
  Qed.

Lemma link_chain_edges : forall rest g prev g',
    link_chain g prev rest = Ok g' ->
    forall a b, has_edge g' a b = true <->
                has_edge g a b = true \/
                exists l1 l2, prev :: rest = l1 ++ b :: a :: l2.
  Proof.
    induction rest as [|node rest IH]; simpl; intros g prev g' Hrun a b.
    - inversion Hrun; subst. split; [auto|].
      intros [He|(l1 & l2 & Heq)]; [exact He|].
      destruct l1 as [|x [|y l1]]; discriminate.
    - inv_ok. rename a0 into g1. rewrite (IH _ _ _ Hrun a b).
      assert (Hg1 : has_edge g1 a b = true <->
                    has_edge g a b = true \/ (a = node /\ b = prev)).
      { rewrite !has_edge_out_label, (out_label_add_edge Ha).
        destruct (eq_dec node a) as [->|Hne].
        - destruct (eq_dec prev b) as [->|Hne'].
          + split; auto.
          + split; [auto|]. intros [He|[_ Hc]]; [exact He|congruence].
        - split; [auto|]. intros [He|[Hc _]]; [exact He|congruence]. }
      rewrite Hg1. split.
      + intros [[He|[-> ->]]|(l1 & l2 & Heq)].
        * auto.
        * right. exists [], rest. reflexivity.
        * right. exists (prev :: l1), l2. simpl. now rewrite Heq.
      + intros [He|(l1 & l2 & Heq)]; [auto|].
        destruct l1 as [|x l1]; simpl in Heq; inversion Heq; subst.
        * auto.
        * right. exists l1, l2. assumption.
  Qed.

Lemma path_lift g g1 :
    (forall a b, has_edge g1 a b = true -> path g a b) ->
    forall a b, path g1 a b -> path g a b.
  Proof.
    intros Hedge a b Hp. induction Hp as [a b He|a b c He Hp IH].
    - auto.
    - exact (path_trans g a b c (Hedge a b He) IH).
  Qed.

  (** The nodes of a reported cycle reach each other. *)
Lemma cycle_reach g1 cycle :
    _find_cycle pick g1 = Ok (Some cycle) ->
    forall x y, In x cycle -> In y cycle -> path g1 x y.
  Proof.
    intros Hfind. unfold _find_cycle in Hfind.
    destruct (search_from_cycle pick g1 _ _ _ _ Hfind)
      as (first & others & -> & _ & _ & Hwalk).
    assert (Hfirst : path g1 first first).
    { apply (backwards_path g1 others first first []). exact Hwalk. }
    assert (Hreach : forall x, In x (first :: others) ->
                               path g1 x first /\ path g1 first x).
    { intros x [<-|Hx]; [auto|].
      apply in_split in Hx. destruct Hx as (l1 & l2 & ->). split.
      - apply (backwards_path g1 l1 first x (l2 ++ [first])).
        simpl in Hwalk. now rewrite <- app_assoc in Hwalk.
      - apply (backwards_path g1 l2 x first []).
        change (first :: (l1 ++ x :: l2) ++ [first])
          with ((first :: l1) ++ (x :: l2) ++ [first]) in Hwalk.
        simpl in Hwalk. rewrite <- app_assoc in Hwalk.
        apply (backwards_app_r g1 (first :: l1)). exact Hwalk. }
    intros x y Hx Hy.
    exact (path_trans g1 x first y (proj1 (Hreach x Hx)) (proj2 (Hreach y Hy))).
  Qed.

Lemma replace_loop_edges g : forall fuel g1 g',
    replace_loop pick key fuel g1 = Ok g' ->
    (forall a b, has_edge g1 a b = true -> path g a b) ->
    (forall a b, has_edge g1 a b = true ->
                 has_edge g a b = true \/ (key b <= key a)%Z) ->
    (forall a b, has_edge g a b = true -> ~ path g b a -> has_edge g1 a b = true) ->
    (forall a b, has_edge g' a b = true -> path g a b) /\
    (forall a b, has_edge g' a b = true ->
                 has_edge g a b = true \/ (key b <= key a)%Z) /\
    (forall a b, has_edge g a b = true -> ~ path g b a -> has_edge g' a b = true).
  Proof.
    induction fuel as [|fuel IH]; intros g1 g' Hrun HA HB HC; [discriminate|].
    cbn [replace_loop] in Hrun.
    destruct (_find_cycle pick g1) as [[cycle|]| |] eqn:Hfind; try discriminate;
      cbn [bind] in Hrun.
    2:{ inversion Hrun; subst. auto. }
    destruct cycle as [|c cs]; [inversion Hrun; subst; auto|].
    set (cycle := c :: cs) in *.
    inv_ok. rename a into g2, a0 into g3.
    pose proof (cycle_reach g1 cycle Hfind) as Hreach.
    pose proof (remove_cycle_labels cycle cycle g1 g2 Ha) as Hremoved.
    unfold relink in Ha0.
    destruct (sorted key cycle) as [|prev rest] eqn:Hsorted; [discriminate|].
    pose proof (link_chain_edges rest g2 prev g3 Ha0) as Hlinked.
    assert (Hkept : forall a b, has_edge g2 a b = true <->
                                has_edge g1 a b = true /\ ~ (In a cycle /\ In b cycle)).
    { intros a b. rewrite !has_edge_out_label, Hremoved. unfold mem.
      destruct (in_dec eq_dec a cycle); destruct (in_dec eq_dec b cycle); cbn [andb];
        (split;
         [intros He; first [discriminate|split; [exact He|tauto]]
         |intros [He Hc]; first [exact He|exfalso; tauto]]). }
    assert (Hadj : forall a b l1 l2, prev :: rest = l1 ++ b :: a :: l2 ->
                                     In a cycle /\ In b cycle /\ (key b <= key a)%Z).
    { intros a b l1 l2 Heq. split; [|split].
      - apply (In_sorted key). rewrite Hsorted, Heq.
        apply in_app_iff. right. simpl. auto.
      - apply (In_sorted key). rewrite Hsorted, Heq.
        apply in_app_iff. right. simpl. auto.
      - apply (sorted_adjacent key l1 l2). rewrite <- Heq, <- Hsorted.
        apply sorted_sorted. }
    apply (IH g3 g' Hrun).
    - intros a b He. apply Hlinked in He. destruct He as [He|(l1 & l2 & Heq)].
      + apply HA. now apply Hkept.
      + destruct (Hadj a b l1 l2 Heq) as (Hca & Hcb & _).
        apply (path_lift g g1 HA). now apply Hreach.
    - intros a b He. apply Hlinked in He. destruct He as [He|(l1 & l2 & Heq)].
      + apply HB. now apply Hkept.
      + right. now apply (Hadj a b l1 l2 Heq).
    - intros a b He Hback. apply Hlinked. left. apply Hkept.
      split; [now apply HC|]. intros [Hca Hcb]. apply Hback.
      apply (path_lift g g1 HA). now apply Hreach.
  Qed.

  (** X16.  What [replace_cycles] does to the edges.  An edge that is on no
      cycle of the graph is kept.  An edge of the graph it leaves was there
      before, or leads from a node to a node of no greater rank.  And a
      node reaches in the graph it leaves only nodes that it reached
      before. *)
Theorem replace_cycles_edges g g' :
    replace_cycles pick key g = Ok g' ->
    (forall a b, has_edge g a b = true -> ~ path g b a -> has_edge g' a b = true) /\
    (forall a b, has_edge g' a b = true ->
                 has_edge g a b = true \/ (key b <= key a)%Z) /\
    (forall a b, path g' a b -> path g a b).
  Proof.
    intros Hrun. unfold replace_cycles in Hrun. inv_ok. rename a into g0.
    unfold _remove_self_references in Ha.
    pose proof (remove_self_loop_labels _ _ _ Ha) as Hlabel.
    assert (Hsub : forall a b, has_edge g0 a b = true -> has_edge g a b = true).
    { intros a b. rewrite !has_edge_out_label, Hlabel.
      destruct (eq_dec a b); [|auto]. destruct (mem a (nodes g)); [discriminate|auto]. }
    destruct (replace_loop_edges g _ g0 g' Hrun) as (HA & HB & HC).
    - intros a b He. apply path_edge. now apply Hsub.
    - intros a b He. left. now apply Hsub.
    - intros a b He Hback. rewrite has_edge_out_label, Hlabel.
      destruct (eq_dec a b) as [->|Hne].
      + destruct Hback. now apply path_edge.
      + now rewrite <- has_edge_out_label.
    - split; [exact HC|]. split; [exact HB|].
      exact (path_lift g g' HA).
  Qed.
End ReplacedEdges.

Lemma replace_cycles_edges_witness :
  replace_cycles (fun _ => 0) Z.of_nat three_cycle =
    Ok (mkGraph [(1, []); (2, [(1, true)]); (3, [(2, true)])]
                [(1, [(2, true)]); (2, [(3, true)]); (3, [])]) /\
  (forall a b,
      has_edge (mkGraph [(1, []); (2, [(1, true)]); (3, [(2, true)])]
                        [(1, [(2, true)]); (2, [(3, true)]); (3, [])]) a b = true ->
      has_edge three_cycle a b = true \/ (Z.of_nat b <= Z.of_nat a)%Z).
Proof.
  assert (Hrun : replace_cycles (fun _ => 0) Z.of_nat three_cycle =
                 Ok (mkGraph [(1, []); (2, [(1, true)]); (3, [(2, true)])]
                             [(1, [(2, true)]); (2, [(3, true)]); (3, [])]))
    by (vm_compute; reflexivity).
  split; [exact Hrun|].
  exact (proj1 (proj2 (replace_cycles_edges (fun _ => 0) Z.of_nat three_cycle _ Hrun))).
Defined.

(** ** What [is_topologically_sorted] checks *)

Section Checked.
Context {N E : Type} `{EqDec N}.
Implicit Types (g : Graph N E).

Lemma sorted_from_iff g : forall l visited,
    incl l (nodes g) ->
    exists b,
      sorted_from g visited l = Ok b /\
      (b = true <->
       forall l1 x l2 y, l = l1 ++ x :: l2 -> has_edge g x y = true ->
                         In y visited \/ In y (l1 ++ [x])).
  Proof.
    induction l as [|node rest IH]; intros visited Hl.
    - exists true. split; [reflexivity|]. split; [|reflexivity].
      intros _ l1 x l2 y Heq. destruct l1; discriminate.
    - assert (Hnode : In node (nodes g)) by (apply Hl; simpl; auto).
      assert (Hrest : incl rest (nodes g)) by (intros z Hz; apply Hl; simpl; auto).
      destruct (successors_node g node Hnode) as [deps Hdeps].
      cbn [sorted_from]. rewrite Hdeps. cbn [bind].
      destruct (forallb (fun dependency => mem dependency (set_add node visited)) deps)
        eqn:Hall.
      + destruct (IH (set_add node visited) Hrest) as (b & Hrun & Hb).
        exists b. split; [exact Hrun|]. rewrite Hb. split.
        * intros Hcond l1 x l2 y Heq He. destruct l1 as [|n l1]; simpl in Heq.
          -- inversion Heq; subst x l2. simpl.
             rewrite forallb_forall in Hall.
             assert (Hy : In y deps) by (now apply (successors_has_edge g node deps y Hdeps)).
             apply Hall, mem_true, In_set_add in Hy.
             destruct Hy as [->|Hy]; auto.
          -- inversion Heq; subst n rest.
             destruct (Hcond l1 x l2 y eq_refl He) as [Hy|Hy].
             ++ apply In_set_add in Hy. simpl. destruct Hy as [->|Hy]; auto.
             ++ simpl. tauto.
        * intros Hcond l1 x l2 y Heq He.
          destruct (Hcond (node :: l1) x l2 y) as [Hy|Hy]; [simpl; congruence|exact He| |].
          -- left. apply In_set_add. auto.
          -- simpl in Hy. destruct Hy as [<-|Hy]; [|auto].
             left. apply In_set_add. auto.
      + exists false. split; [reflexivity|]. split; [discriminate|].
        intros Hcond. exfalso.
        assert (Hnot : forallb (fun dependency => mem dependency (set_add node visited)) deps
                       = true).
        { apply forallb_forall. intros y Hy. apply mem_true, In_set_add.
          apply (successors_has_edge g node deps y Hdeps) in Hy.
          destruct (Hcond [] node rest y eq_refl Hy) as [Hv|[<-|[]]]; auto. }
        congruence.
  Qed.

Lemma sorted_from_app g : forall l1 l2 visited,
    sorted_from g visited l1 = Ok true ->
    sorted_from g visited (l1 ++ l2) =
    sorted_from g (fold_left (fun acc n => set_add n acc) l1 visited) l2.
  Proof.
    induction l1 as [|node l1 IH]; intros l2 visited Hrun; [reflexivity|].
    cbn [sorted_from app fold_left] in *.
    destruct (successors g node) as [deps| |]; try discriminate. cbn [bind] in *.
    destruct (forallb (fun dependency => mem dependency (set_add node visited)) deps);
      [|discriminate].
    now apply IH.
  Qed.

  (** X17.  [is_topologically_sorted] on a list of nodes of the graph
      returns [True] exactly when every successor of every node of the list
      is listed before it or is the node itself; it returns [False]
      otherwise.  When the list is in order up to a node that the graph
      does not have, it raises [KeyError]. *)
Theorem is_topologically_sorted_checks g l :
    (incl l (nodes g) ->
     exists b,
       is_topologically_sorted l g = Ok b /\
       (b = true <->
        forall l1 x l2 y, l = l1 ++ x :: l2 -> has_edge g x y = true ->
                          In y (l1 ++ [x]))) /\
    (forall l1 x l2,
        l = l1 ++ x :: l2 -> is_topologically_sorted l1 g = Ok true ->
        ~ In x (nodes g) ->
        is_topologically_sorted l g = Raise KeyError).
  Proof.
    split.
    - intros Hl. destruct (sorted_from_iff g l [] Hl) as (b & Hrun & Hb).
      exists b. split; [exact Hrun|]. rewrite Hb. split.
      + intros Hcond l1 x l2 y Heq He. destruct (Hcond l1 x l2 y Heq He) as [[]|Hy]; auto.
      + intros Hcond l1 x l2 y Heq He. right. eauto.
    - intros l1 x l2 -> Hrun Hx. unfold is_topologically_sorted in *.
      rewrite (sorted_from_app g l1 (x :: l2) [] Hrun). cbn [sorted_from].
      now rewrite (successors_absent g x Hx).
  Qed.
End Checked.

Lemma is_topologically_sorted_checks_witness :
  incl [2; 1] (nodes one_edge) /\
  (exists b, is_topologically_sorted [2; 1] one_edge = Ok b) /\
  is_topologically_sorted [2; 3; 1] one_edge = Raise KeyError.
Proof.
  assert (Hincl : incl [2; 1] (nodes one_edge)).
  { intros x [<-|[<-|[]]]; simpl; auto. }
  split; [exact Hincl|]. split.
  - destruct (proj1 (is_topologically_sorted_checks one_edge [2; 1]) Hincl)
      as (b & Hrun & _).
    exists b. exact Hrun.
  - apply (proj2 (is_topologically_sorted_checks one_edge [2; 3; 1]) [2] 3 [1]).
    + reflexivity.
    + reflexivity.
    + simpl. intros [Hc|[Hc|[]]]; discriminate.
Defined.

(** ** More on [topological_sort]: failure, paths and stability *)

Section Positions.
Context {N : Type} `{EqDec N}.

Lemma before_after (x y : N) l1 l2 :
    NoDup (l1 ++ x :: l2) -> before x y (l1 ++ x :: l2) -> In y l2.
  Proof.
    intros Hnd Hb. apply before_rev in Hb.
    rewrite rev_app_distr in Hb. simpl in Hb. rewrite <- app_assoc in Hb. simpl in Hb.
    apply in_rev. apply (before_split y x (rev l2) (rev l1)); [|exact Hb].
    apply NoDup_rev in Hnd. rewrite rev_app_distr in Hnd. simpl in Hnd.
    now rewrite <- app_assoc in Hnd.
  Qed.

Lemma before_trans (c b a : N) l :
    NoDup l -> before c b l -> before b a l -> before c a l.
  Proof.
    intros Hnd Hcb (m1 & m2 & m3 & ->).
    assert (Hc : In c m1) by exact (before_split c b m1 (m2 ++ a :: m3) Hnd Hcb).
    apply in_split in Hc. destruct Hc as (p & q & ->).
    exists p, (q ++ b :: m2), m3. rewrite <- !app_assoc. simpl.
    rewrite <- ?app_assoc. reflexivity.
  Qed.

Lemma sorted_last_greatest (R : N -> N -> Prop) l x :
    StronglySorted R (l ++ [x]) -> forall y, In y l -> R y x.
  Proof.
    induction l as [|z l IH]; simpl; intros Hs y Hy; [destruct Hy|].
    inversion Hs as [|? ? Hl Hz]; subst. destruct Hy as [<-|Hy].
    - rewrite Forall_forall in Hz. apply Hz, in_app_iff. simpl; auto.
    - now apply IH.
  Qed.

Lemma index_from_position (n : N) : forall l i k,
    NoDup l -> nth_error l i = Some n -> index_from k n l = k + i.
  Proof.
    induction l as [|x l IH]; intros i k Hnd Hn; [destruct i; discriminate|].
    inversion Hnd as [|? ? Hx Hnd']; subst. simpl.
    destruct i as [|i]; simpl in Hn.
    - inversion Hn; subst. destruct (eq_dec n n); [lia|congruence].
    - destruct (eq_dec n x) as [->|Hne].
      + exfalso. apply Hx. eapply nth_error_In; eauto.
      + rewrite (IH i (S k) Hnd' Hn). lia.
  Qed.

  (** The rank that the model of [sort_key_from_iter] gives to a node of a
      list without duplicates is its position. *)
Lemma sort_key_position (l : list N) i n :
    NoDup l -> nth_error l i = Some n -> sort_key_from_iter_spec l n = Z.of_nat i.
  Proof.
    intros Hnd Hn. unfold sort_key_from_iter_spec.
    now rewrite (index_from_position n l i 0 Hnd Hn).
  Qed.
End Positions.

Section SortMore.
Context {N E : Type} `{EqDec N}.
Variable sort_key_from_iter : list N -> N -> Z.
Implicit Types (h : Store.store (N:=N) (E:=E)) (g r : Store.GraphRef).

  (** X18.  Whatever the outcome of [topological_sort], a list or an
      exception, every dictionary that there was before the call is as it
      was, and so is the graph of the caller.  With a list and no graph, and
      with a graph where the list should be, the call raises [TypeError]
      at once. *)
Theorem topological_sort_any_outcome h g :
    Store.graph_ok h g ->
    (forall h' out,
        Store.topological_sort sort_key_from_iter (inl g) None h = (h', out) ->
        Store.unchanged h h' /\ Store.graph_at h' g = Store.graph_at h g) /\
    (forall requested h' out,
        Store.topological_sort sort_key_from_iter (inr requested) (Some g) h = (h', out) ->
        Store.unchanged h h' /\ Store.graph_at h' g = Store.graph_at h g) /\
    (forall requested,
        Store.topological_sort sort_key_from_iter (inr requested) None h
        = (h, Raise TypeError)) /\
    (forall target,
        Store.topological_sort sort_key_from_iter (inl target) (Some g) h
        = (h, Raise TypeError)).
  Proof.
    intros Hg. split; [|split; [|split]].
    - intros h' out Hrun. rewrite topological_sort_graph in Hrun.
      exact (sort_with_frame sort_key_from_iter _ h g h' out Hg Hrun).
    - intros requested h' out Hrun. rewrite topological_sort_list in Hrun.
      exact (sort_with_frame sort_key_from_iter _ h g h' out Hg Hrun).
    - reflexivity.
    - reflexivity.
  Qed.

Lemma order_paths (G : Graph N E) order :
    NoDup order ->
    (forall a b, has_edge G a b = true -> before b a order) ->
    forall a b, path G a b -> before b a order.
  Proof.
    intros Hnd Hedge a b Hp. induction Hp as [a b He|a b c He Hp IH].
    - auto.
    - exact (before_trans c b a order Hnd IH (Hedge a b He)).
  Qed.

  (** X19.  Given a list and an acyclic graph, the sort honours the
      dependencies that pass through nodes that are not in the list: when a
      node of the list reaches another by a path of the graph, the node
      reached stands before it in the list returned. *)
Theorem topological_sort_respects_paths h g requested :
    Store.graph_ok h g -> acyclic (Store.graph_at h g) ->
    exists h' res,
      Store.topological_sort sort_key_from_iter (inr requested) (Some g) h
      = (h', Ok res) /\
      forall a b, path (Store.graph_at h g) a b ->
                  In a requested -> In b requested -> before b a res.
  Proof.
    intros Hg Hacyc. rewrite topological_sort_list.
    destruct (sort_with_acyclic sort_key_from_iter requested h g Hg Hacyc)
      as (h' & order & Hrun & _ & Hnd & _ & Hbefore).
    exists h', (filter (fun node => mem node requested) order).
    split; [exact Hrun|].
    intros a b Hp Ha Hb. apply before_filter; [|now apply mem_true|now apply mem_true].
    exact (order_paths _ order Hnd Hbefore a b Hp).
  Qed.
End SortMore.

Section Stable.
Context {N E : Type} `{EqDec N}.
Variable sort_key_from_iter : list N -> N -> Z.
Implicit Types (h : Store.store (N:=N) (E:=E)) (g r : Store.GraphRef).

Lemma position_in_prefix (key : N -> Z) (l p1 p2 rest : list N) x :
    (forall i n, nth_error l i = Some n -> key n = Z.of_nat i) ->
    l = p1 ++ x :: p2 ++ rest -> key x = Z.of_nat (length p1).
  Proof.
    intros Hkey ->. apply Hkey.
    rewrite nth_error_app2 by lia. now rewrite Nat.sub_diag.
  Qed.

Lemma ordered_nodes_acyclic (G : Graph N E) :
    NoDup (nodes G) ->
    (forall a b, has_edge G a b = true -> before b a (nodes G)) ->
    acyclic G.
  Proof.
    intros Hnd Horder. apply (ranked_acyclic G (fun n => index_from 0 n (nodes G))).
    intros a b He. apply before_index; auto.
  Qed.

  (** The loop on a graph whose nodes are listed after their successors,
      ranked by their positions: it takes the nodes from the last to the
      first. *)
Lemma sort_loop_stable key h0 r (G : Graph N E)
    (Hkey : forall i n, nth_error (nodes G) i = Some n -> key n = Z.of_nat i)
    (Hnd : NoDup (nodes G))
    (Horder : forall a b, has_edge G a b = true -> before b a (nodes G)) :
    forall fuel h pending result prefix,
      Store.separate h r -> Store.made_after h0 h r -> Store.unchanged h0 h ->
      sort_inv G (Store.graph_at h r) pending result ->
      nodes G = prefix ++ rev result ->
      length (nodes (Store.graph_at h r)) < fuel ->
      exists h', Store.sort_loop fuel key r pending result h = (h', Ok (rev (nodes G))).
  Proof.
    induction fuel as [|fuel IH];
      intros h pending result prefix Hsep Hma Hun Hinv Hsplit Hfuel; [lia|].
    destruct pending as [|p ps].
    - exists h. cbn [Store.sort_loop]. unfold Store.ret. f_equal. f_equal.
      pose proof (sort_inv_done G _ result (ordered_nodes_acyclic G Hnd Horder) Hinv)
        as Hdone.
      pose proof (sort_inv_all G _ result Hinv Hdone) as Hall.
      destruct prefix as [|x prefix].
      + simpl in Hsplit. now rewrite Hsplit, rev_involutive.
      + exfalso. rewrite Hsplit in Hnd.
        apply (NoDup_app_disjoint (x :: prefix) (rev result) x Hnd); [simpl; auto|].
        apply -> in_rev. apply Hall. rewrite Hsplit. simpl. auto.
    - destruct (sort_iteration key h0 h r G (p :: ps) result Hsep Hma Hun Hinv)
        as (node & pending1 & deps & pending' & h1 & Hsorted & _ & _
            & Hsep1 & Hma1 & Hun1 & Hinv1 & Hlen & Hloop); [discriminate|].
      rewrite Hloop. set (pending := p :: ps) in *.
      destruct Hinv as (_ & Hnodes & Hedges & _ & Hpend & _ & _ & _).
      assert (Hnode : In node pending).
      { apply (In_sorted key). rewrite Hsorted. apply in_app_iff. simpl; auto. }
      assert (Hprefix : forall x, In x (nodes G) -> ~ In x result -> In x prefix).
      { intros x Hx Hnew. rewrite Hsplit in Hx. apply in_app_iff in Hx.
        destruct Hx as [Hx|Hx]; [exact Hx|]. apply in_rev in Hx. tauto. }
      assert (Hnode_prefix : In node prefix).
      { destruct (proj1 (Hpend node) Hnode) as [HnR _].
        apply Hnodes in HnR. now apply Hprefix. }
      destruct (exists_last (l := prefix)) as (prefix' & m & Hlast).
      { intros ->. destruct Hnode_prefix. }
      subst prefix.
      assert (Hm_new : ~ In m result).
      { intros Hc. rewrite Hsplit in Hnd.
        apply (NoDup_app_disjoint (prefix' ++ [m]) (rev result) m Hnd).
        - apply in_app_iff. simpl; auto.
        - now apply -> in_rev. }
      assert (Hm_G : In m (nodes G)).
      { rewrite Hsplit. apply in_app_iff. left. apply in_app_iff. simpl; auto. }
      assert (Hm_pending : In m pending).
      { apply Hpend. split; [apply Hnodes; auto|].
        intros q. destruct (has_edge (Store.graph_at h r) q m) eqn:He; [|reflexivity].
        exfalso. apply Hedges in He. destruct He as (He & Hq & _).
        apply Horder in He. rewrite Hsplit, <- app_assoc in He, Hnd. simpl in He, Hnd.
        apply (before_after m q prefix' (rev result) Hnd) in He.
        apply in_rev in He. tauto. }
      assert (Hle : (key m <= key node)%Z).
      { apply (In_sorted key) in Hm_pending. rewrite Hsorted in Hm_pending.
        apply in_app_iff in Hm_pending. destruct Hm_pending as [Hm1|[->|[]]]; [|lia].
        apply (sorted_last_greatest (fun x y => (key x <= key y)%Z) pending1 node);
          [|exact Hm1].
        rewrite <- Hsorted. apply sorted_sorted. }
      assert (Hkm : key m = Z.of_nat (length prefix')).
      { apply (position_in_prefix key (nodes G) prefix' [] (rev result) m Hkey).
        rewrite Hsplit, <- app_assoc. reflexivity. }
      assert (Heq : node = m).
      { apply in_app_iff in Hnode_prefix. destruct Hnode_prefix as [Hin|[->|[]]]; [|reflexivity].
        exfalso. apply in_split in Hin. destruct Hin as (p1 & p2 & ->).
        assert (Hkn : key node = Z.of_nat (length p1)).
        { apply (position_in_prefix key (nodes G) p1 p2 (m :: rev result) node Hkey).
          rewrite Hsplit, <- !app_assoc. simpl. rewrite <- ?app_assoc. reflexivity. }
        rewrite length_app in Hkm. simpl in Hkm. lia. }
      subst node.
      apply (IH h1 pending' (result ++ [m]) prefix' Hsep1 Hma1 Hun1 Hinv1).
      + rewrite Hsplit, rev_app_distr, <- app_assoc. reflexivity.
      + lia.
  Qed.

  (** X20.  The sort is stable.  When the nodes of the graph are already
      listed after their successors (for every edge the destination was
      added before the origin) and the rank of a node is its position,
      [topological_sort] of the graph alone returns the nodes in the order
      of the graph. *)
Theorem topological_sort_stable h g :
    Store.graph_ok h g ->
    (forall a b, has_edge (Store.graph_at h g) a b = true ->
                 before b a (nodes (Store.graph_at h g))) ->
    (forall i n, nth_error (nodes (Store.graph_at h g)) i = Some n ->
                 sort_key_from_iter (nodes (Store.graph_at h g)) n = Z.of_nat i) ->
    exists h',
      Store.topological_sort sort_key_from_iter (inl g) None h =
      (h', Ok (nodes (Store.graph_at h g))).
  Proof.
    intros Hg Horder Hkey. rewrite topological_sort_graph.
    set (G := Store.graph_at h g) in *.
    assert (Hnd : NoDup (nodes G)) by apply Hg.
    pose proof (ordered_nodes_acyclic G Hnd Horder) as Hacyc.
    destruct (sort_with_run sort_key_from_iter (nodes G) h g Hg)
      as (h1 & r & pending & h2 & result' & _ & Hsep1 & Hma1 & Hun1 & Hinv1
          & Hloop & Hun2 & Hinv2 & Hrun).
    fold G in Hinv1, Hinv2, Hrun.
    destruct (sort_loop_stable (sort_key_from_iter (nodes G)) h r G Hkey Hnd Horder
                (S (length (nodes (Store.graph_at h1 r)))) h1 pending [] (nodes G)
                Hsep1 Hma1 Hun1 Hinv1) as [h2' Hloop'].
    { simpl. now rewrite app_nil_r. }
    { lia. }
    rewrite Hloop' in Hloop. inversion Hloop; subst h2' result'.
    pose proof (sort_inv_done G _ _ Hacyc Hinv2) as Hdone.
    pose proof (sort_inv_sorted G _ _ (proj2 Hg) Hinv2 Hdone) as Hsorted.
    rewrite Hdone, Hsorted in Hrun. simpl in Hrun. rewrite rev_involutive in Hrun.
    rewrite filter_all in Hrun by (intros x Hx; now apply mem_true).
    exists h2. exact Hrun.
  Qed.
End Stable.

(** The chain of the tests: the nodes 1, 2 and 3 and the edges [2 -> 1] and
    [3 -> 2]. *)
Lemma chain_store_graph :
  Store.graph_at chain_store first_graph =
  mkGraph [(1, []); (2, [(1, true)]); (3, [(2, true)])]
          [(1, [(2, true)]); (2, [(3, true)]); (3, [])].
Proof. vm_compute. reflexivity. Qed.

Lemma chain_store_ok : Store.graph_ok chain_store first_graph.
Proof.
  split.
  - separate_store.
  - rewrite chain_store_graph.
    apply (add_edge_ok
             (mkGraph [(1, []); (2, [(1, true)]); (3, [])]
                      [(1, [(2, true)]); (2, []); (3, [])]) 3 2 true); [|reflexivity].
    apply (add_edge_ok (add_node (add_node (add_node Graph_init 1) 2) 3) 2 1 true);
      [|reflexivity].
    apply add_node_ok, add_node_ok, add_node_ok, Graph_init_ok.
Qed.

Lemma chain_store_ordered :
  forall a b, has_edge (Store.graph_at chain_store first_graph) a b = true ->
              before b a (nodes (Store.graph_at chain_store first_graph)).
Proof.
  rewrite chain_store_graph. intros a b He.
  unfold has_edge, dict_contains in He. simpl in He.
  destruct (eq_dec a 1); [discriminate|].
  destruct (eq_dec a 2) as [->|]; simpl in He.
  - destruct (eq_dec b 1) as [->|]; [|discriminate]. exists [], [], [3]. reflexivity.
  - destruct (eq_dec a 3) as [->|]; [|discriminate]. simpl in He.
    destruct (eq_dec b 2) as [->|]; [|discriminate]. exists [1], [], []. reflexivity.
Qed.

Lemma chain_store_acyclic : acyclic (Store.graph_at chain_store first_graph).
Proof.
  apply ordered_nodes_acyclic;
    [exact (proj1 (proj1 (proj2 chain_store_ok)))|exact chain_store_ordered].
Qed.

Lemma topological_sort_any_outcome_witness :
  Store.graph_ok loop_store first_graph /\
  snd (Store.topological_sort sort_key_from_iter_spec (inl first_graph) None loop_store)
  = Raise AssertionError /\
  Store.graph_at
    (fst (Store.topological_sort sort_key_from_iter_spec (inl first_graph) None loop_store))
    first_graph
  = Store.graph_at loop_store first_graph.
Proof.
  assert (Hrun : snd (Store.topological_sort sort_key_from_iter_spec (inl first_graph)
                        None loop_store) = Raise AssertionError)
    by (vm_compute; reflexivity).
  split; [exact loop_store_ok|]. split; [exact Hrun|].
  apply (proj1 (topological_sort_any_outcome sort_key_from_iter_spec loop_store first_graph
                  loop_store_ok) _ (Raise AssertionError) (run_result _ _ Hrun)).
Defined.

Lemma topological_sort_respects_paths_witness :
  Store.graph_ok chain_store first_graph /\
  acyclic (Store.graph_at chain_store first_graph) /\
  path (Store.graph_at chain_store first_graph) 3 1 /\
  (exists h' res,
      Store.topological_sort sort_key_from_iter_spec (inr [3; 1]) (Some first_graph)
        chain_store = (h', Ok res) /\
      forall a b, path (Store.graph_at chain_store first_graph) a b ->
                  In a [3; 1] -> In b [3; 1] -> before b a res) /\
  snd (Store.topological_sort sort_key_from_iter_spec (inr [3; 1]) (Some first_graph)
         chain_store) = Ok [1; 3].
Proof.
  split; [exact chain_store_ok|]. split; [exact chain_store_acyclic|]. split; [|split].
  - apply (path_step _ 3 2 1); [|apply path_edge]; vm_compute; reflexivity.
  - exact (topological_sort_respects_paths sort_key_from_iter_spec chain_store first_graph
             [3; 1] chain_store_ok chain_store_acyclic).
  - vm_compute. reflexivity.
Defined.

Lemma topological_sort_stable_witness :
  Store.graph_ok chain_store first_graph /\
  (forall a b, has_edge (Store.graph_at chain_store first_graph) a b = true ->
               before b a (nodes (Store.graph_at chain_store first_graph))) /\
  (forall i n, nth_error (nodes (Store.graph_at chain_store first_graph)) i = Some n ->
               sort_key_from_iter_spec (nodes (Store.graph_at chain_store first_graph)) n
               = Z.of_nat i) /\
  (exists h',
      Store.topological_sort sort_key_from_iter_spec (inl first_graph) None chain_store
      = (h', Ok (nodes (Store.graph_at chain_store first_graph)))) /\
  nodes (Store.graph_at chain_store first_graph) = [1; 2; 3].
Proof.
  assert (Hkey : forall i n,
             nth_error (nodes (Store.graph_at chain_store first_graph)) i = Some n ->
             sort_key_from_iter_spec (nodes (Store.graph_at chain_store first_graph)) n
             = Z.of_nat i).
  { intros i n. apply sort_key_position. exact (proj1 (proj1 (proj2 chain_store_ok))). }
  split; [exact chain_store_ok|]. split; [exact chain_store_ordered|].
  split; [exact Hkey|]. split.
  - exact (topological_sort_stable sort_key_from_iter_spec chain_store first_graph
             chain_store_ok chain_store_ordered Hkey).
  - vm_compute. reflexivity.
Defined.

(** ** The graph objects of the store, as the methods build them *)

Section StoreBuild.
Context {N E : Type} `{EqDec N}.
Implicit Types (h : Store.store (N:=N) (E:=E)) (g : Store.GraphRef).

Lemma override_same {V} (f : nat -> V) a v : Store.override f a v a = v.
  Proof. unfold Store.override. destruct (Nat.eq_dec a a); congruence. Qed.

Lemma override_other {V} (f : nat -> V) a v b : b <> a -> Store.override f a v b = f b.
  Proof. intros Hne. unfold Store.override. destruct (Nat.eq_dec b a); congruence. Qed.

Lemma graph_init_store h :
    exists h' g,
      Store.Graph_init h = (h', Ok g) /\
      Store.separate h' g /\ Store.graph_at h' g = Graph_init /\
      Store.unchanged h h' /\ Store.made_after h h' g.
  Proof.
    eexists. eexists. split; [reflexivity|].
    unfold Store.separate, Store.graph_at, Store.unchanged, Store.made_after,
      Store.edges_refs, Store.index_value.
    cbn [Store.out_edges_ref Store.in_edges_ref Store.index_at Store.edges_at
         Store.next_index Store.next_edges].
    rewrite override_same, (override_other _ (S (Store.next_index h))), override_same by lia.
    cbn [map app].
    split; [|split; [reflexivity|split]].
    - split; [lia|]. split; [lia|]. split; [lia|]. split; [constructor|intros a []].
    - split; [|reflexivity]. intros a Ha. now rewrite !override_other by lia.
    - split; [lia|]. split; [lia|]. intros a [].
  Qed.

Lemma add_node_store g n h :
    Store.separate h g ->
    exists h',
      Store.add_node g n h = (h', Ok tt) /\
      Store.graph_at h' g = add_node (Store.graph_at h g) n /\
      Store.separate h' g /\
      (forall a, a <> Store.out_edges_ref g -> a <> Store.in_edges_ref g ->
                 Store.index_at h' a = Store.index_at h a) /\
      (forall a, a < Store.next_edges h -> Store.edges_at h' a = Store.edges_at h a) /\
      Store.next_index h' = Store.next_index h /\
      Store.next_edges h <= Store.next_edges h'.
  Proof.
    intros (Hne & Hob & Hib & Hnd & Hbound).
    set (co := Store.out_edges_ref g) in *. set (ci := Store.in_edges_ref g) in *.
    unfold Store.edges_refs in *. fold co ci in Hnd, Hbound.
    assert (Hbo : forall r, In r (map snd (Store.index_at h co)) -> r < Store.next_edges h).
    { intros r Hr. apply Hbound, in_app_iff. auto. }
    assert (Hbi : forall r, In r (map snd (Store.index_at h ci)) -> r < Store.next_edges h).
    { intros r Hr. apply Hbound, in_app_iff. auto. }
    destruct (index_setdefault_store co n h Hbo)
      as (h1 & Hs1 & Hv1 & Hx1 & Hi1 & He1 & Hnew1 & Hni1 & Hne1).
    assert (Hbi1 : forall r, In r (map snd (Store.index_at h1 ci)) -> r < Store.next_edges h1).
    { intros r Hr. rewrite Hi1 in Hr by auto. apply Hbi in Hr. lia. }
    destruct (index_setdefault_store ci n h1 Hbi1)
      as (h2 & Hs2 & Hv2 & Hx2 & Hi2 & He2 & Hnew2 & Hni2 & Hne2).
    set (a1 := Store.next_edges h) in *. set (a2 := Store.next_edges h1) in *.
    assert (Ha12 : a2 = S a1) by exact Hne1.
    assert (Hio2 : Store.index_at h2 co = dict_setdefault (Store.index_at h co) n a1).
    { rewrite Hi2 by auto. exact Hx1. }
    assert (Hii2 : Store.index_at h2 ci = dict_setdefault (Store.index_at h ci) n a2).
    { rewrite Hx2, Hi1 by auto. reflexivity. }
    assert (Hro : forall r, In r (map snd (Store.index_at h2 co)) -> r <= a1).
    { intros r Hr. rewrite Hio2 in Hr. apply refs_setdefault in Hr. destruct Hr as [Hr| ->].
      - apply Hbo in Hr. lia.
      - lia. }
    assert (Hri : forall r, In r (map snd (Store.index_at h2 ci)) -> r <= a2 /\ r <> a1).
    { intros r Hr. rewrite Hii2 in Hr. apply refs_setdefault in Hr. destruct Hr as [Hr| ->].
      - apply Hbi in Hr. lia.
      - lia. }
    assert (Hnd2 : NoDup (map snd (Store.index_at h2 co) ++ map snd (Store.index_at h2 ci))).
    { apply NoDup_app.
      - rewrite Hio2. apply NoDup_refs_setdefault.
        + exact (NoDup_app_remove_r _ _ Hnd).
        + intros Hin. apply Hbo in Hin. lia.
      - rewrite Hii2. apply NoDup_refs_setdefault.
        + exact (NoDup_app_remove_l _ _ Hnd).
        + intros Hin. apply Hbi in Hin. lia.
      - intros r Hr Hr'. pose proof (Hri r Hr') as [_ Hr1].
        rewrite Hio2 in Hr. rewrite Hii2 in Hr'.
        apply refs_setdefault in Hr, Hr'.
        destruct Hr as [Hr|Hr]; [|congruence].
        destruct Hr' as [Hr'| ->].
        + exact (NoDup_app_disjoint _ _ r Hnd Hr Hr').
        + apply Hbo in Hr. lia. }
    assert (Hvo2 : Store.index_value h2 co =
                   dict_setdefault (Store.index_value h co) n []).
    { rewrite <- Hv1. apply index_value_ext; [now apply Hi2|].
      intros r Hr. apply He2. rewrite <- (Hi2 co) in Hr by auto.
      apply Hro in Hr. lia. }
    assert (Hvi2 : Store.index_value h2 ci =
                   dict_setdefault (Store.index_value h ci) n []).
    { rewrite Hv2. f_equal. apply index_value_ext; [now apply Hi1|].
      intros r Hr. apply He1. apply Hbi in Hr. lia. }
    exists h2. split; [|split; [|split; [|split; [|split; [|split]]]]].
    - unfold Store.add_node. fold co ci. unfold Store.mbind. now rewrite Hs1, Hs2.
    - unfold Store.graph_at, add_node. fold co ci. cbn [_out_edges _in_edges].
      now rewrite Hvo2, Hvi2.
    - split; [exact Hne|]. fold co ci. split; [lia|]. split; [lia|].
      unfold Store.edges_refs. fold co ci. split; [exact Hnd2|].
      intros a Hin. apply in_app_iff in Hin.
      destruct Hin as [Hin|Hin]; [apply Hro in Hin|apply Hri in Hin]; lia.
    - intros a Hao Hai. now rewrite Hi2, Hi1.
    - intros a Ha. rewrite He2, He1 by lia. reflexivity.
    - lia.
    - lia.
  Qed.
Lemma add_edge_store g o d e h :
    Store.separate h g ->
    (forall G', add_edge (Store.graph_at h g) o d e = Ok G' ->
                exists h',
                  Store.add_edge g o d e h = (h', Ok tt) /\
                  Store.graph_at h' g = G' /\
                  Store.separate h' g /\
                  (forall a, Store.index_at h' a = Store.index_at h a) /\
                  (forall a, ~ In a (Store.edges_refs h g) ->
                             Store.edges_at h' a = Store.edges_at h a) /\
                  Store.next_index h' = Store.next_index h /\
                  Store.next_edges h' = Store.next_edges h) /\
    (forall ex, add_edge (Store.graph_at h g) o d e = Raise ex ->
                Store.add_edge g o d e h = (h, Raise ex)).
  Proof.
    intros (Hne & Hob & Hib & Hnd & Hbound).
    set (co := Store.out_edges_ref g) in *. set (ci := Store.in_edges_ref g) in *.
    unfold Store.edges_refs in *. fold co ci in Hnd, Hbound.
    unfold add_edge, Store.graph_at. fold co ci. cbn [_out_edges _in_edges].
    rewrite !dict_get_index_value.
    unfold Store.add_edge. fold co ci.
    rewrite (mbind_read _ _ h _ (edges_of_read co o h)).
    destruct (dict_get (Store.index_at h co) o) as [a|] eqn:Ha; cbn [option_map lookup bind].
    2:{ split; [discriminate|]. intros ex Hex. inversion Hex. reflexivity. }
    rewrite (mbind_read _ _ h _ (edges_of_read ci d h)).
    destruct (dict_get (Store.index_at h ci) d) as [b|] eqn:Hb; cbn [option_map lookup bind].
    2:{ split; [discriminate|]. intros ex Hex. inversion Hex. reflexivity. }
    split; [|discriminate].
    intros G' HG'. inversion HG'; subst G'. clear HG'.
    assert (Har : In a (map snd (Store.index_at h co))) by (eapply dict_get_ref_In; eauto).
    assert (Hbr : In b (map snd (Store.index_at h ci))) by (eapply dict_get_ref_In; eauto).
    assert (Hab : b <> a).
    { intros ->. exact (NoDup_app_disjoint _ _ a Hnd Har Hbr). }
    eexists. split; [reflexivity|].
    cbn [Store.index_at Store.edges_at Store.next_index Store.next_edges].
    rewrite (override_other _ a _ b Hab).
    split; [|split; [|split; [|split; [|split]]]]; try reflexivity.
    - unfold Store.index_value.
      cbn [Store.index_at Store.edges_at Store.out_edges_ref Store.in_edges_ref].
      fold co ci. f_equal.
      + rewrite map_override_other.
        * now apply map_override_set; [exact (NoDup_app_remove_r _ _ Hnd)|].
        * intros Hin. exact (NoDup_app_disjoint _ _ b Hnd Hin Hbr).
      + rewrite (map_override_set _ (Store.index_at h ci) d b);
          [|exact (NoDup_app_remove_l _ _ Hnd)|exact Hb].
        f_equal. apply map_override_other.
        intros Hin. exact (NoDup_app_disjoint _ _ a Hnd Har Hin).
    - split; [exact Hne|]. split; [exact Hob|]. split; [exact Hib|].
      split; [exact Hnd|exact Hbound].
    - intros x Hx. rewrite !override_other; [reflexivity| |].
      + intros ->. apply Hx, in_app_iff. auto.
      + intros ->. apply Hx, in_app_iff. auto.
  Qed.
Lemma remove_node_store_absent g n h :
    ~ In n (nodes (Store.graph_at h g)) ->
    Store.remove_node g n h = (h, Raise KeyError).
  Proof.
    intros Hn. rewrite nodes_graph_at in Hn. apply dict_get_None in Hn.
    unfold Store.remove_node.
    apply (mbind_Raise _ _ h h KeyError).
    rewrite (mbind_read _ _ h _ (edges_of_read (Store.out_edges_ref g) n h)).
    now rewrite Hn.
  Qed.

  (** X21.  [Graph()] makes an empty graph out of two new dictionaries and
      leaves the dictionaries that there were as they were.  [add_node] on
      a well-formed graph object raises nothing, keeps it well-formed and
      changes its value as the method on values does; it writes to the two
      indices of the graph only. *)
Theorem graph_objects_built h :
    (exists h' g,
        Store.Graph_init h = (h', Ok g) /\
        Store.graph_ok h' g /\ nodes (Store.graph_at h' g) = [] /\
        Store.unchanged h h' /\ Store.made_after h h' g) /\
    (forall g n,
        Store.graph_ok h g ->
        exists h',
          Store.add_node g n h = (h', Ok tt) /\
          Store.graph_ok h' g /\
          Store.graph_at h' g = add_node (Store.graph_at h g) n /\
          (forall a, a <> Store.out_edges_ref g -> a <> Store.in_edges_ref g ->
                     Store.index_at h' a = Store.index_at h a) /\
          (forall a, a < Store.next_edges h -> Store.edges_at h' a = Store.edges_at h a)).
  Proof.
    split.
    - destruct (graph_init_store h) as (h' & g & Hrun & Hsep & Hval & Hun & Hma).
      exists h', g. split; [exact Hrun|]. split; [|split; [|split]]; auto.
      + split; [exact Hsep|]. rewrite Hval. apply Graph_init_ok.
      + now rewrite Hval.
    - intros g n [Hsep Hok].
      destruct (add_node_store g n h Hsep) as (h' & Hrun & Hval & Hsep' & Hi & He & _).
      exists h'. split; [exact Hrun|]. split; [|split; [|split]]; auto.
      split; [exact Hsep'|]. rewrite Hval. now apply add_node_ok.
  Qed.

  (** X22.  [add_edge] on a well-formed graph object either returns, and
      then the object is well-formed, its value is the one that the method
      on values gives, and no dictionary but those of the successors of the
      origin and of the predecessors of the destination is written; or it
      raises [KeyError], for a node that the graph does not have, and then
      the store is as it was. *)
Theorem add_edge_object h g o d e :
    Store.graph_ok h g ->
    (In o (nodes (Store.graph_at h g)) /\ In d (nodes (Store.graph_at h g)) ->
     exists h' G',
       add_edge (Store.graph_at h g) o d e = Ok G' /\
       Store.add_edge g o d e h = (h', Ok tt) /\
       Store.graph_at h' g = G' /\ Store.graph_ok h' g /\
       (forall a, Store.index_at h' a = Store.index_at h a) /\
       (forall a, ~ In a (Store.edges_refs h g) ->
                  Store.edges_at h' a = Store.edges_at h a)) /\
    (~ (In o (nodes (Store.graph_at h g)) /\ In d (nodes (Store.graph_at h g))) ->
     Store.add_edge g o d e h = (h, Raise KeyError)).
  Proof.
    intros [Hsep Hok]. pose proof (proj2 (proj2 Hok)) as Hm.
    destruct (add_edge_store g o d e h Hsep) as [Hsuccess Hfail].
    split.
    - intros [Ho Hd].
      destruct (add_edge_Ok (Store.graph_at h g) o d e Ho) as [G' HG'].
      { now apply (mirror_nodes_in _ d Hm). }
      destruct (Hsuccess G' HG') as (h' & Hrun & Hval & Hsep' & Hi & He & _).
      exists h', G'. split; [exact HG'|]. split; [exact Hrun|]. split; [exact Hval|].
      split; [|split; [exact Hi|exact He]].
      split; [exact Hsep'|]. rewrite Hval. exact (add_edge_ok _ _ _ _ _ Hok HG').
    - intros Hmiss. apply Hfail.
      destruct (add_edge (Store.graph_at h g) o d e) as [G'| |] eqn:Hrun.
      + exfalso. apply Hmiss. split.
        * unfold add_edge in Hrun. inv_ok. apply dict_get_In_keys. eauto.
        * apply (mirror_nodes_in _ d Hm). unfold add_edge in Hrun. inv_ok.
          apply dict_get_In_keys. eauto.
      + now destruct (add_edge_fails _ _ _ _ _ Hrun) as [-> _].
      + exfalso. unfold add_edge in Hrun.
        destruct (dict_get (_out_edges (Store.graph_at h g)) o); [|discriminate].
        destruct (dict_get (_in_edges (Store.graph_at h g)) d); discriminate.
  Qed.

  (** X23.  [remove_node] on a well-formed graph object raises [KeyError]
      for a node that the graph does not have, and then the store is as it
      was; for a node of the graph it returns, the object is well-formed,
      its value is the one that the method on values gives, and no
      dictionary of another graph is written. *)
Theorem remove_node_object h g n :
    Store.graph_ok h g ->
    (~ In n (nodes (Store.graph_at h g)) ->
     Store.remove_node g n h = (h, Raise KeyError)) /\
    (In n (nodes (Store.graph_at h g)) ->
     exists h' R',
       remove_node (Store.graph_at h g) n = Ok R' /\
       Store.remove_node g n h = (h', Ok tt) /\
       Store.graph_at h' g = R' /\ Store.graph_ok h' g /\
       (forall a, a <> Store.out_edges_ref g -> a <> Store.in_edges_ref g ->
                  Store.index_at h' a = Store.index_at h a) /\
       (forall a, ~ In a (Store.edges_refs h g) ->
                  Store.edges_at h' a = Store.edges_at h a)).
  Proof.
    intros [Hsep Hok]. split; [apply remove_node_store_absent|].
    intros Hn.
    destruct (remove_node_Ok (Store.graph_at h g) n (proj2 (proj2 Hok)) Hn) as [R' HR'].
    destruct (remove_node_store g n h R' Hsep HR')
      as (h' & Hrun & Hval & Hsep' & _ & He & Hi & _).
    exists h', R'. split; [exact HR'|]. split; [exact Hrun|]. split; [exact Hval|].
    split; [|split; [exact Hi|exact He]].
    split; [exact Hsep'|]. rewrite Hval. exact (remove_node_ok Hok HR').
  Qed.

  (** X24.  [copy] on a well-formed graph object returns a new well-formed
      object made of new dictionaries, which reads as the original.  The
      copy and the original share nothing: removing a node from the copy
      leaves the original as it was. *)
Theorem copy_object_is_separate h g :
    Store.graph_ok h g ->
    exists h' c,
      Store.copy g h = (h', Ok c) /\
      Store.graph_ok h' c /\ Store.made_after h h' c /\ Store.unchanged h h' /\
      Store.graph_at h' g = Store.graph_at h g /\
      nodes (Store.graph_at h' c) = nodes (Store.graph_at h g) /\
      (forall a b, edge (Store.graph_at h' c) a b = edge (Store.graph_at h g) a b) /\
      (forall n, In n (nodes (Store.graph_at h g)) ->
                 exists h'',
                   Store.remove_node c n h' = (h'', Ok tt) /\
                   ~ In n (nodes (Store.graph_at h'' c)) /\
                   Store.graph_at h'' g = Store.graph_at h g).
  Proof.
    intros [Hsep Hok].
    destruct (copy_reads (Store.graph_at h g) Hok)
      as (C & HC & HokC & Hnodes & _ & _ & Hedge & _).
    destruct (copy_store h g C Hsep HC) as (h' & c & Hcopy & Hval & Hun & Hma & Hsep').
    destruct (unchanged_graph_at h h' g Hsep Hun) as (Hg' & Hgo & Hgi).
    exists h', c. split; [exact Hcopy|].
    split; [split; [exact Hsep'|now rewrite Hval]|].
    split; [exact Hma|]. split; [exact Hun|]. split; [exact Hg'|].
    rewrite Hval. split; [exact Hnodes|]. split; [exact Hedge|].
    intros n Hn. rewrite <- Hnodes, <- Hval in Hn.
    assert (HokC' : Graph_ok (Store.graph_at h' c)) by (now rewrite Hval).
    destruct (remove_node_Ok (Store.graph_at h' c) n (proj2 (proj2 HokC')) Hn) as [R' HR'].
    destruct (remove_node_store c n h' R' Hsep' HR')
      as (h'' & Hrun & Hval'' & _ & _ & He & Hi & _).
    exists h''. split; [exact Hrun|]. split.
    - rewrite Hval''. destruct (remove_node_spec (proj2 (proj2 HokC')) HR') as [-> _].
      intros Hc. apply In_remove_iff in Hc. tauto.
    - rewrite <- Hg'.
      destruct Hsep as (_ & Hob & Hib & _ & Hbound).
      destruct Hma as (Hmo & Hmi & Hmr).
      unfold Store.graph_at. f_equal.
      + apply index_value_ext; [apply Hi; lia|].
        intros a Ha. apply He. intros Hin. apply Hmr in Hin.
        rewrite Hgo in Ha.
        assert (a < Store.next_edges h)
          by (apply Hbound; unfold Store.edges_refs; apply in_app_iff; auto).
        lia.
      + apply index_value_ext; [apply Hi; lia|].
        intros a Ha. apply He. intros Hin. apply Hmr in Hin.
        rewrite Hgi in Ha.
        assert (a < Store.next_edges h)
          by (apply Hbound; unfold Store.edges_refs; apply in_app_iff; auto).
        lia.
  Qed.
End StoreBuild.

Lemma edge_store_nodes : nodes (Store.graph_at edge_store first_graph) = [1; 2].
Proof. vm_compute. reflexivity. Qed.

Lemma graph_objects_built_witness :
  Store.graph_ok edge_store first_graph /\
  (exists h' g,
      Store.Graph_init (@Store.empty_store nat bool) = (h', Ok g) /\
      Store.graph_ok h' g /\ nodes (Store.graph_at h' g) = []) /\
  exists h',
    Store.add_node first_graph 3 edge_store = (h', Ok tt) /\
    Store.graph_ok h' first_graph /\
    Store.graph_at h' first_graph = add_node (Store.graph_at edge_store first_graph) 3.
Proof.
  split; [exact edge_store_ok|]. split.
  - destruct (proj1 (graph_objects_built (@Store.empty_store nat bool)))
      as (h' & g & Hrun & Hok & Hnodes & _).
    exists h', g. split; [exact Hrun|]. split; [exact Hok|exact Hnodes].
  - destruct (proj2 (graph_objects_built edge_store) first_graph 3 edge_store_ok)
      as (h' & Hrun & Hok & Hval & _).
    exists h'. split; [exact Hrun|]. split; [exact Hok|exact Hval].
Defined.

Lemma add_edge_object_witness :
  Store.graph_ok edge_store first_graph /\
  (exists h' G',
      add_edge (Store.graph_at edge_store first_graph) 1 2 false = Ok G' /\
      Store.add_edge first_graph 1 2 false edge_store = (h', Ok tt) /\
      Store.graph_at h' first_graph = G' /\ Store.graph_ok h' first_graph) /\
  Store.add_edge first_graph 1 3 false edge_store = (edge_store, Raise KeyError).
Proof.
  split; [exact edge_store_ok|]. split.
  - destruct (proj1 (add_edge_object edge_store first_graph 1 2 false edge_store_ok))
      as (h' & G' & HG' & Hrun & Hval & Hok & _).
    { rewrite edge_store_nodes. simpl. tauto. }
    exists h', G'. split; [exact HG'|]. split; [exact Hrun|]. split; [exact Hval|exact Hok].
  - apply (proj2 (add_edge_object edge_store first_graph 1 3 false edge_store_ok)).
    rewrite edge_store_nodes. simpl. intros [_ [Hc|[Hc|[]]]]; discriminate.
Defined.

Lemma remove_node_object_witness :
  Store.graph_ok edge_store first_graph /\
  Store.remove_node first_graph 3 edge_store = (edge_store, Raise KeyError) /\
  exists h' R',
    remove_node (Store.graph_at edge_store first_graph) 1 = Ok R' /\
    Store.remove_node first_graph 1 edge_store = (h', Ok tt) /\
    Store.graph_at h' first_graph = R' /\ Store.graph_ok h' first_graph.
Proof.
  split; [exact edge_store_ok|]. split.
  - apply (proj1 (remove_node_object edge_store first_graph 3 edge_store_ok)).
    rewrite edge_store_nodes. simpl. intros [Hc|[Hc|[]]]; discriminate.
  - destruct (proj2 (remove_node_object edge_store first_graph 1 edge_store_ok))
      as (h' & R' & HR' & Hrun & Hval & Hok & _).
    { rewrite edge_store_nodes. simpl. tauto. }
    exists h', R'. split; [exact HR'|]. split; [exact Hrun|]. split; [exact Hval|exact Hok].
Defined.

Lemma copy_object_is_separate_witness :
  Store.graph_ok edge_store first_graph /\
  exists h' c,
    Store.copy first_graph edge_store = (h', Ok c) /\
    Store.graph_ok h' c /\
    Store.graph_at h' first_graph = Store.graph_at edge_store first_graph /\
    nodes (Store.graph_at h' c) = nodes (Store.graph_at edge_store first_graph).
Proof.
  split; [exact edge_store_ok|].
  destruct (copy_object_is_separate edge_store first_graph edge_store_ok)
    as (h' & c & Hrun & Hok & _ & _ & Hsame & Hnodes & _).
  exists h', c. split; [exact Hrun|]. split; [exact Hok|]. split; [exact Hsame|exact Hnodes].
Defined.

(** ** The sort and its check *)

Section SortChecked.
Context {N E : Type} `{EqDec N}.
Variable sort_key_from_iter : list N -> N -> Z.
Implicit Types (h : Store.store (N:=N) (E:=E)) (g : Store.GraphRef).

  (** X25.  What [topological_sort] returns for an acyclic graph given
      alone, [is_topologically_sorted] accepts: called after the sort on
      the list returned and the same graph, it returns [True]. *)
Theorem topological_sort_then_check h g :
    Store.graph_ok h g -> acyclic (Store.graph_at h g) ->
    exists h' res,
      Store.topological_sort sort_key_from_iter (inl g) None h = (h', Ok res) /\
      Store.is_topologically_sorted res g h' = (h', Ok true).
  Proof.
    intros Hg Hacyc. rewrite topological_sort_graph.
    set (G := Store.graph_at h g) in *.
    destruct (sort_with_run sort_key_from_iter (nodes G) h g Hg)
      as (h1 & r & pending & h2 & result' & _ & _ & _ & _ & _ & _ & Hun2 & Hinv2 & Hrun).
    fold G in Hinv2, Hrun.
    pose proof (sort_inv_done G _ result' Hacyc Hinv2) as Hdone.
    pose proof (sort_inv_all G _ result' Hinv2 Hdone) as Hall.
    pose proof (sort_inv_sorted G _ result' (proj2 Hg) Hinv2 Hdone) as Hsorted.
    rewrite Hdone, Hsorted in Hrun.
    rewrite filter_all in Hrun.
    2:{ intros x Hx. apply mem_true, Hall. now apply in_rev. }
    exists h2, (rev result'). split; [exact Hrun|].
    rewrite is_topologically_sorted_read.
    destruct (unchanged_graph_at h h2 g (proj1 Hg) Hun2) as (Hsame & _).
    rewrite Hsame. fold G. now rewrite Hsorted.
  Qed.
End SortChecked.

Lemma topological_sort_then_check_witness :
  Store.graph_ok chain_store first_graph /\
  acyclic (Store.graph_at chain_store first_graph) /\
  (exists h' res,
      Store.topological_sort sort_key_from_iter_spec (inl first_graph) None chain_store
      = (h', Ok res) /\
      Store.is_topologically_sorted res first_graph h' = (h', Ok true)) /\
  snd (Store.topological_sort sort_key_from_iter_spec (inl first_graph) None chain_store)
  = Ok [1; 2; 3].
Proof.
  split; [exact chain_store_ok|]. split; [exact chain_store_acyclic|]. split.
  - exact (topological_sort_then_check sort_key_from_iter_spec chain_store first_graph
             chain_store_ok chain_store_acyclic).
  - vm_compute. reflexivity.
Defined.
